(** * A segregated explicit free-list allocator (malloc-lab/mm.c)

    Shallow embedding of [mm.c] and proofs about it.  The managed region is
    a byte-addressed memory; header, footer and link words are 8-byte
    little-endian loads and stores into it; [size_t] arithmetic wraps
    modulo [2^64]; an access outside the region granted by [mem_sbrk] is a
    [Fault]; the list traversals carry a fuel bound. *)

From Stdlib Require Import ZArith Lia List.
From stdpp Require Import base tactics option list functions gmap.

Local Open Scope Z_scope.

(** ** Results of running allocator code *)

Inductive outcome (A : Type) : Type :=
| Done (a : A)      (* normal return *)
| Fault             (* access outside the granted region *)
| OutOfFuel.        (* a list traversal exceeded its iteration bound *)

Arguments Done {A} a.
Arguments Fault {A}.
Arguments OutOfFuel {A}.

#[global] Instance outcome_ret : MRet outcome := fun A a => Done a.
#[global] Instance outcome_bind : MBind outcome := fun A B f c =>
  match c with
  | Done a => f a
  | Fault => Fault
  | OutOfFuel => OutOfFuel
  end.

(** ** Bytes and 64-bit words *)

(** Little-endian composition of a list of bytes. *)
Fixpoint le_combine (bs : list Z) : Z :=
  match bs with
  | [] => 0
  | b :: bs' => b + 256 * le_combine bs'
  end.

(** The [n] low-order bytes of [v], least significant first. *)
Fixpoint le_split (n : nat) (v : Z) : list Z :=
  match n with
  | O => []
  | S n' => v mod 256 :: le_split n' (v / 256)
  end.

(** ** The byte memory *)

(** A cell holds one byte; a cell never written reads as 0. *)
Definition load_byte (m : gmap Z Z) (a : Z) : Z := default 0 (m !! a) mod 256.

Definition store_byte (m : gmap Z Z) (a : Z) (b : Z) : gmap Z Z :=
  <[a := b mod 256]> m.

Fixpoint load_bytes (m : gmap Z Z) (a : Z) (n : nat) : list Z :=
  match n with
  | O => []
  | S n' => load_byte m a :: load_bytes m (a + 1) n'
  end.

Fixpoint store_bytes (m : gmap Z Z) (a : Z) (bs : list Z) : gmap Z Z :=
  match bs with
  | [] => m
  | b :: bs' => store_bytes (store_byte m a b) (a + 1) bs'
  end.

(** An 8-byte little-endian load and store. *)
Definition load64 (m : gmap Z Z) (p : Z) : Z := le_combine (load_bytes m p 8).
Definition store64 (m : gmap Z Z) (p : Z) (v : Z) : gmap Z Z :=
  store_bytes m p (le_split 8 v).

(** ** Allocator state and the constants of mm.c *)

Definition WSIZE : Z := 8.
Definition DSIZE : Z := 16.
Definition CHUNKSIZE : Z := Z.shiftl 1 12.
Definition ALIGNMENT : Z := 16.
Definition N_LISTS : nat := 10.

(** [size_t] is 64 bits wide. *)
Definition SIZE_MOD : Z := 2 ^ 64.
Definition wrap (z : Z) : Z := z mod SIZE_MOD.
(** [~0xF] converted to [size_t]. *)
Definition MASK_F : Z := SIZE_MOD - 16.
(** [(size_t)-1] and [(void * )-1]. *)
Definition SIZE_MAX : Z := SIZE_MOD - 1.
Definition NULL : Z := 0.

(** The globals of mm.c ([heap_listp], [seg_list]) together with the
    memory and the break pointers kept by memlib. *)
Record state : Type := mkState {
  mem : gmap Z Z;
  mem_start_brk : Z;
  mem_brk : Z;
  mem_max_addr : Z;
  heap_listp : Z;
  seg_list : list Z;
}.

Definition set_mem (st : state) (m : gmap Z Z) : state :=
  mkState m (mem_start_brk st) (mem_brk st) (mem_max_addr st) (heap_listp st) (seg_list st).
Definition set_brk (st : state) (b : Z) : state :=
  mkState (mem st) (mem_start_brk st) b (mem_max_addr st) (heap_listp st) (seg_list st).
Definition set_heap_listp (st : state) (p : Z) : state :=
  mkState (mem st) (mem_start_brk st) (mem_brk st) (mem_max_addr st) p (seg_list st).
Definition set_seg_list (st : state) (l : list Z) : state :=
  mkState (mem st) (mem_start_brk st) (mem_brk st) (mem_max_addr st) (heap_listp st) l.

(** [seg_list[i]] and [seg_list[i] = v]. *)
Definition seg_get (st : state) (i : nat) : Z := seg_list st !!! i.
Definition seg_set (st : state) (i : nat) (v : Z) : state :=
  set_seg_list st (<[i := v]> (seg_list st)).

(** Modelled from the spec: memlib's [mem_sbrk], the region-growth primitive
    [grow(byte_count) -> previous_top_address | failure_sentinel].  It extends
    the granted region contiguously by [incr] bytes and returns the previous
    top, or returns the sentinel [(void * )-1] and changes nothing when the
    region cannot grow that far. *)
Definition mem_sbrk (st : state) (incr : Z) : state * Z :=
  if mem_brk st + incr <=? mem_max_addr st
  then (set_brk st (mem_brk st + incr), mem_brk st)
  else (st, SIZE_MAX).

(** A word access is defined inside the granted region only. *)
Definition valid_word (st : state) (p : Z) : bool :=
  (mem_start_brk st <=? p) && (p + 8 <=? mem_brk st).

(** [GET(p)] and [PUT(p, val)]. *)
Definition GET (st : state) (p : Z) : outcome Z :=
  if valid_word st p then Done (load64 (mem st) p) else Fault.
Definition PUT (st : state) (p : Z) (val : Z) : outcome state :=
  if valid_word st p then Done (set_mem st (store64 (mem st) p val)) else Fault.

Definition ALIGN (size : Z) : Z := Z.land (wrap (size + (ALIGNMENT - 1))) MASK_F.
Definition MAX (x y : Z) : Z := if x >? y then x else y.
Definition PACK (size alloc : Z) : Z := Z.lor size alloc.

Definition GET_SIZE (st : state) (p : Z) : outcome Z :=
  v ← GET st p; Done (Z.land v MASK_F).
Definition GET_ALLOC (st : state) (p : Z) : outcome Z :=
  v ← GET st p; Done (Z.land v 1).

Definition HDRP (bp : Z) : Z := bp - WSIZE.
Definition FTRP (st : state) (bp : Z) : outcome Z :=
  s ← GET_SIZE st (HDRP bp); Done (bp + s - DSIZE).
Definition NEXT_BLKP (st : state) (bp : Z) : outcome Z :=
  s ← GET_SIZE st (bp - WSIZE); Done (bp + s).
Definition PREV_BLKP (st : state) (bp : Z) : outcome Z :=
  s ← GET_SIZE st (bp - DSIZE); Done (bp - s).

Definition PREV_FREE_BLKP (bp : Z) : Z := bp.
Definition NEXT_FREE_BLKP (bp : Z) : Z := bp + WSIZE.
Definition GET_PRED (st : state) (bp : Z) : outcome Z := GET st (PREV_FREE_BLKP bp).
Definition GET_SUCC (st : state) (bp : Z) : outcome Z := GET st (NEXT_FREE_BLKP bp).
Definition SET_PRED (st : state) (bp pred : Z) : outcome state := PUT st (PREV_FREE_BLKP bp) pred.
Definition SET_SUCC (st : state) (bp succ : Z) : outcome state := PUT st (NEXT_FREE_BLKP bp) succ.

(** ** The functions of mm.c *)

Definition get_list_index (size : Z) : nat :=
  if size <=? 16 then 0%nat
  else if size <=? 32 then 1%nat
  else if size <=? 64 then 2%nat
  else if size <=? 128 then 3%nat
  else if size <=? 256 then 4%nat
  else if size <=? 512 then 5%nat
  else if size <=? 1024 then 6%nat
  else if size <=? 2048 then 7%nat
  else if size <=? 4096 then 8%nat
  else 9%nat.

(** The [while] loop of [insert_block]: advance [(curr, prev)] while
    [curr != NULL && GET_SIZE(HDRP(curr)) < size]. *)
Fixpoint insert_scan (fuel : nat) (st : state) (size curr prev : Z) : outcome (Z * Z) :=
  if curr =? NULL then Done (curr, prev)
  else
    csize ← GET_SIZE st (HDRP curr);
    if csize <? size then
      match fuel with
      | O => OutOfFuel
      | S fuel' => succ ← GET_SUCC st curr; insert_scan fuel' st size succ curr
      end
    else Done (curr, prev).

Definition insert_block (fuel : nat) (st : state) (bp : Z) : outcome state :=
  size ← GET_SIZE st (HDRP bp);
  let index := get_list_index size in
  '(curr, prev) ← insert_scan fuel st size (seg_get st index) NULL;
  st ← SET_SUCC st bp curr;
  st ← SET_PRED st bp prev;
  st ← (if negb (curr =? NULL) then SET_PRED st curr bp else Done st);
  if negb (prev =? NULL) then SET_SUCC st prev bp
  else Done (seg_set st index bp).

Definition remove_block (st : state) (bp : Z) : outcome state :=
  size ← GET_SIZE st (HDRP bp);
  let index := get_list_index size in
  pred ← GET_PRED st bp;
  succ ← GET_SUCC st bp;
  st ← (if pred =? NULL then Done (seg_set st index succ) else SET_SUCC st pred succ);
  if negb (succ =? NULL) then SET_PRED st succ pred else Done st.

Definition coalesce (fuel : nat) (st : state) (bp : Z) : outcome (state * Z) :=
  prev_bp ← PREV_BLKP st bp;
  prev_ftr ← FTRP st prev_bp;
  prev_alloc ← GET_ALLOC st prev_ftr;
  next_bp ← NEXT_BLKP st bp;
  next_alloc ← GET_ALLOC st (HDRP next_bp);
  size ← GET_SIZE st (HDRP bp);
  let prev_free := prev_alloc =? 0 in
  let next_free := next_alloc =? 0 in
  st ← (if prev_alloc =? 0 then pb ← PREV_BLKP st bp; remove_block st pb else Done st);
  st ← (if next_alloc =? 0 then nb ← NEXT_BLKP st bp; remove_block st nb else Done st);
  '(st, bp) ←
    (if negb (prev_alloc =? 0) && negb (next_alloc =? 0) then
       (* Case 1: no coalesce *)
       Done (st, bp)
     else if negb (prev_alloc =? 0) && next_free then
       (* Case 2: next free *)
       nb ← NEXT_BLKP st bp;
       nsize ← GET_SIZE st (HDRP nb);
       let size := wrap (size + nsize) in
       st ← PUT st (HDRP bp) (PACK size 0);
       ftr ← FTRP st bp;
       st ← PUT st ftr (PACK size 0);
       Done (st, bp)
     else if (prev_alloc =? 0) && negb (next_alloc =? 0) then
       (* Case 3: prev free *)
       pb ← PREV_BLKP st bp;
       psize ← GET_SIZE st (HDRP pb);
       let size := wrap (size + psize) in
       ftr ← FTRP st bp;
       st ← PUT st ftr (PACK size 0);
       pb ← PREV_BLKP st bp;
       st ← PUT st (HDRP pb) (PACK size 0);
       pb ← PREV_BLKP st bp;
       Done (st, pb)
     else
       (* Case 4: both free *)
       pb ← PREV_BLKP st bp;
       psize ← GET_SIZE st (HDRP pb);
       nb ← NEXT_BLKP st bp;
       nftr ← FTRP st nb;
       nsize ← GET_SIZE st nftr;
       let size := wrap (size + wrap (psize + nsize)) in
       pb ← PREV_BLKP st bp;
       st ← PUT st (HDRP pb) (PACK size 0);
       nb ← NEXT_BLKP st bp;
       nftr ← FTRP st nb;
       st ← PUT st nftr (PACK size 0);
       pb ← PREV_BLKP st bp;
       Done (st, pb));
  (* Insert once after coalesce *)
  st ← insert_block fuel st bp;
  Done (st, bp).

Definition extend_heap (fuel : nat) (st : state) (words : Z) : outcome (state * Z) :=
  let size := if negb (words mod 2 =? 0) then wrap ((words + 1) * WSIZE) else wrap (words * WSIZE) in
  let '(st1, bp) := mem_sbrk st size in
  if bp =? SIZE_MAX then Done (st1, NULL)
  else
    st2 ← PUT st1 (HDRP bp) (PACK size 0);
    ftr ← FTRP st2 bp;
    st3 ← PUT st2 ftr (PACK size 0);
    nb ← NEXT_BLKP st3 bp;
    st4 ← PUT st3 (HDRP nb) (PACK 0 1);
    coalesce fuel st4 bp.

Definition mm_init (fuel : nat) (st : state) : outcome (state * Z) :=
  let st := foldl (fun s i => seg_set s i NULL) st (seq 0 N_LISTS) in
  let '(st, p) := mem_sbrk st (4 * WSIZE) in
  let st := set_heap_listp st p in
  if p =? SIZE_MAX then Done (st, -1)
  else
    st ← PUT st (heap_listp st) 0;
    st ← PUT st (heap_listp st + 1 * WSIZE) (PACK DSIZE 1);
    st ← PUT st (heap_listp st + 2 * WSIZE) (PACK DSIZE 1);
    st ← PUT st (heap_listp st + 3 * WSIZE) (PACK 0 1);
    let st := set_heap_listp st (heap_listp st + 2 * WSIZE) in
    '(st, bp) ← extend_heap fuel st (CHUNKSIZE / WSIZE);
    if bp =? NULL then Done (st, -1) else Done (st, 0).

Definition place (fuel : nat) (st : state) (bp asize : Z) : outcome state :=
  csize ← GET_SIZE st (HDRP bp);
  st ← remove_block st bp;
  let min_block := 2 * DSIZE in
  if wrap (csize - asize) >=? min_block then
    st ← PUT st (HDRP bp) (PACK asize 1);
    ftr ← FTRP st bp;
    st ← PUT st ftr (PACK asize 1);
    next_bp ← NEXT_BLKP st bp;
    st ← PUT st (HDRP next_bp) (PACK (wrap (csize - asize)) 0);
    nftr ← FTRP st next_bp;
    st ← PUT st nftr (PACK (wrap (csize - asize)) 0);
    insert_block fuel st next_bp
  else
    st ← PUT st (HDRP bp) (PACK csize 1);
    ftr ← FTRP st bp;
    PUT st ftr (PACK csize 1).

(** The inner [for] loop of [find_fit] over one bucket list.  The result is
    either an early [return best_bp] or the loop variables at list end. *)
Inductive scan_result : Type :=
| Return (bp : Z)
| Continue (best_bp min_diff : Z).

Fixpoint scan_bucket (fuel : nat) (st : state) (asize bp best_bp min_diff : Z)
  : outcome scan_result :=
  if bp =? NULL then Done (Continue best_bp min_diff)
  else
    match fuel with
    | O => OutOfFuel
    | S fuel' =>
        bsize ← GET_SIZE st (HDRP bp);
        if bsize >=? asize then
          let diff := wrap (bsize - asize) in
          if diff <? min_diff then
            if diff =? 0 then Done (Return bp)
            else succ ← GET_SUCC st bp; scan_bucket fuel' st asize succ bp diff
          else succ ← GET_SUCC st bp; scan_bucket fuel' st asize succ best_bp min_diff
        else succ ← GET_SUCC st bp; scan_bucket fuel' st asize succ best_bp min_diff
    end.

(** The outer [for (; index < N_LISTS; index++)] loop, over the remaining
    bucket indices. *)
Fixpoint scan_lists (fuel : nat) (st : state) (asize : Z) (indices : list nat)
    (best_bp min_diff : Z) : outcome Z :=
  match indices with
  | [] => Done NULL
  | index :: rest =>
      r ← scan_bucket fuel st asize (seg_get st index) best_bp min_diff;
      match r with
      | Return bp => Done bp
      | Continue best_bp min_diff =>
          if negb (best_bp =? NULL) then Done best_bp
          else scan_lists fuel st asize rest best_bp min_diff
      end
  end.

Definition find_fit (fuel : nat) (st : state) (asize : Z) : outcome Z :=
  let index := get_list_index asize in
  scan_lists fuel st asize (seq index (N_LISTS - index)) NULL SIZE_MAX.

(** The adjusted block size computed by [mm_malloc]. *)
Definition adjusted_size (size : Z) : Z :=
  if size <=? DSIZE then 2 * DSIZE else ALIGN (wrap (size + DSIZE)).

Definition mm_malloc (fuel : nat) (st : state) (size : Z) : outcome (state * Z) :=
  if size =? 0 then Done (st, NULL)
  else
    let asize := adjusted_size size in
    bp ← find_fit fuel st asize;
    if negb (bp =? NULL) then
      st ← place fuel st bp asize; Done (st, bp)
    else
      let extendsize := MAX asize CHUNKSIZE in
      '(st, bp) ← extend_heap fuel st (extendsize / WSIZE);
      if bp =? NULL then Done (st, NULL)
      else st ← place fuel st bp asize; Done (st, bp).

Definition mm_free (fuel : nat) (st : state) (bp : Z) : outcome state :=
  size ← GET_SIZE st (HDRP bp);
  st ← PUT st (HDRP bp) (PACK size 0);
  ftr ← FTRP st bp;
  st ← PUT st ftr (PACK size 0);
  '(st, _) ← coalesce fuel st bp;
  Done st.

(** [memcpy(dst, src, n)]: both ranges must lie in the granted region. *)
Definition valid_range (st : state) (p n : Z) : bool :=
  (mem_start_brk st <=? p) && (p + n <=? mem_brk st).

Definition memcpy (st : state) (dst src n : Z) : outcome state :=
  if valid_range st src n && valid_range st dst n then
    Done (set_mem st (store_bytes (mem st) dst (load_bytes (mem st) src (Z.to_nat n))))
  else Fault.

Definition mm_realloc (fuel : nat) (st : state) (ptr size : Z) : outcome (state * Z) :=
  if size =? 0 then
    st ← mm_free fuel st ptr; Done (st, NULL)
  else if ptr =? NULL then mm_malloc fuel st size
  else
    '(st, newptr) ← mm_malloc fuel st size;
    if newptr =? NULL then Done (st, NULL)
    else
      osize ← GET_SIZE st (HDRP ptr);
      let copySize := wrap (osize - DSIZE) in
      let copySize := if size <? copySize then size else copySize in
      st ← memcpy st newptr ptr copySize;
      st ← mm_free fuel st ptr;
      Done (st, newptr).

(** * Specification-side definitions *)

(** The bucket thresholds named by the size-class policy. *)
Definition thresholds : list Z := [16; 32; 64; 128; 256; 512; 1024; 2048; 4096].

(** The adjusted size as the specification words it:
    [align(max(size + block_overhead, minimum_block_size))], over the
    integers, with [align] rounding up to a multiple of 16. *)
Definition spec_align (x : Z) : Z := 16 * ((x + 15) / 16).
Definition spec_adjusted_size (size : Z) : Z := spec_align (Z.max (size + 16) 32).

(** A state as the process starts: an empty region at [base] that may grow
    up to [limit], no byte written, [seg_list] zero-initialised. *)
Definition fresh_state (m : gmap Z Z) (base limit : Z) : state :=
  mkState m base base limit 0 (replicate N_LISTS 0).

(** The state after [mm_init] on a fresh region at address 4096. *)
Definition example_heap : state :=
  match mm_init 0 (fresh_state ∅ 4096 1052672) with
  | Done (st, _) => st
  | _ => fresh_state ∅ 4096 1052672
  end.

(** ** Bucket lists as the fit search sees them *)

(** The total size stored in the header of the block at [bp]. *)
Definition block_size (st : state) (bp : Z) : Z :=
  Z.land (load64 (mem st) (bp - 8)) MASK_F.

(** The blocks reached from [cur] by following successor links to [NULL]. *)
Fixpoint succ_chain (m : gmap Z Z) (cur : Z) (L : list Z) : Prop :=
  match L with
  | [] => cur = NULL
  | b :: L' => cur = b /\ b <> NULL /\ succ_chain m (load64 m (b + 8)) L'
  end.

(** Bucket [i] holds the blocks [L], whose header and successor words lie
    in the granted region. *)
Definition bucket_list (st : state) (i : nat) (L : list Z) : Prop :=
  succ_chain (mem st) (seg_get st i) L /\
  Forall (fun b => valid_word st (b - 8) = true /\ valid_word st (b + 8) = true) L.

(** [r] is the first block of [L] with the least size not below [asize]. *)
Definition first_best (st : state) (asize : Z) (L : list Z) (r : Z) : Prop :=
  exists l1 l2, L = l1 ++ r :: l2 /\ asize <= block_size st r /\
    (forall b, b ∈ l1 -> asize <= block_size st b -> block_size st r < block_size st b) /\
    (forall b, b ∈ l2 -> asize <= block_size st b -> block_size st r <= block_size st b).

(** ** Free lists in memory *)

(** A segment of a doubly linked list: the blocks [L] linked from [cur] up
    to (excluding) [nxt], the first one pointing back to [prev]. *)
Fixpoint dllseg (m : gmap Z Z) (prev cur : Z) (L : list Z) (nxt : Z) : Prop :=
  match L with
  | [] => cur = nxt
  | b :: L' =>
      cur = b /\ b <> NULL /\ load64 m b = prev /\
      dllseg m b (load64 m (b + 8)) L' nxt
  end.

Definition last_or (d : Z) (l : list Z) : Z := default d (last l).
Definition head_or (d : Z) (l : list Z) : Z := default d (head l).

(** The segregated table [Ls] (bucket index to list of blocks) is what
    [seg_list] and the link words of memory represent. *)
Record lists_ok (st : state) (Ls : nat -> list Z) : Prop := {
  lo_seg_len : length (seg_list st) = N_LISTS;
  lo_dll : forall i, (i < N_LISTS)%nat ->
             dllseg (mem st) NULL (seg_get st i) (Ls i) NULL;
  lo_nodup : forall i, NoDup (Ls i);
  lo_unique : forall i j x, x ∈ Ls i -> x ∈ Ls j -> i = j;
  lo_member : forall i x, x ∈ Ls i ->
             x mod 16 = 0 /\ mem_start_brk st + 8 <= x /\ x + 16 <= mem_brk st;
  lo_brk : mem_brk st < 2 ^ 64;
  lo_start : 0 <= mem_start_brk st;
}.

(** The two link words of the blocks in the table. *)
Definition links (Ls : nat -> list Z) (a : Z) : Prop :=
  exists i x, x ∈ Ls i /\ x <= a < x + 16.

(** [m'] differs from [m] at most on the addresses in [D]. *)
Definition unchanged_outside (D : Z -> Prop) (m m' : gmap Z Z) : Prop :=
  forall a, ~ D a -> load_byte m' a = load_byte m a.

(** Everything but the memory and [seg_list] is the same. *)
Definition same_region (st st' : state) : Prop :=
  mem_start_brk st' = mem_start_brk st /\ mem_brk st' = mem_brk st /\
  mem_max_addr st' = mem_max_addr st /\ heap_listp st' = heap_listp st.

(** ** The heap as a sequence of blocks *)

(** A block of the abstract heap: total size in bytes and allocation flag. *)
Abbreviation block := (Z * bool)%type.

(** The word stored in the header and in the footer of a block. *)
Definition tag (b : block) : Z := PACK (fst b) (if snd b then 1 else 0).

Definition total (bl : list block) : Z := foldr (fun b acc => fst b + acc) 0 bl.

Definition sizes_ok (bl : list block) : Prop :=
  Forall (fun b => 32 <= fst b /\ fst b mod 16 = 0) bl.

(** The blocks [bl] lie one after the other from payload address [p] on:
    each has its tag in the word before its payload and in its last word. *)
Fixpoint blocks_at (m : gmap Z Z) (p : Z) (bl : list block) : Prop :=
  match bl with
  | [] => True
  | b :: bl' =>
      load64 m (p - 8) = tag b /\ load64 m (p + fst b - 16) = tag b /\
      blocks_at m (p + fst b) bl'
  end.

(** Payload addresses of the blocks laid out from [p]. *)
Fixpoint layout (p : Z) (bl : list block) : list (Z * block) :=
  match bl with
  | [] => []
  | b :: bl' => (p, b) :: layout (p + fst b) bl'
  end.

(** No two neighbours are both free. *)
Fixpoint no_adj_free (bl : list block) : Prop :=
  match bl with
  | b1 :: bl' =>
      match bl' with
      | b2 :: _ => (snd b1 = true \/ snd b2 = true) /\ no_adj_free bl'
      | [] => True
      end
  | [] => True
  end.

(** Payload address of the first block after the prologue. *)
Definition first_block (st : state) : Z := mem_start_brk st + 32.

(** The region holds padding, the prologue, the blocks [bl] and the
    epilogue header, which ends at the break. *)
Record heap_ok (st : state) (bl : list block) : Prop := {
  ok_base_pos : 0 < mem_start_brk st;
  ok_base_aligned : mem_start_brk st mod 16 = 0;
  ok_heap_listp : heap_listp st = mem_start_brk st + 16;
  ok_prologue_hdr : load64 (mem st) (mem_start_brk st + 8) = PACK DSIZE 1;
  ok_prologue_ftr : load64 (mem st) (mem_start_brk st + 16) = PACK DSIZE 1;
  ok_sizes : sizes_ok bl;
  ok_blocks : blocks_at (mem st) (first_block st) bl;
  ok_brk : mem_brk st = first_block st + total bl;
  ok_epilogue : load64 (mem st) (mem_brk st - 8) = PACK 0 1;
  ok_max : mem_brk st <= mem_max_addr st /\ mem_max_addr st < SIZE_MAX;
}.

(** The table holds exactly the free blocks of [bl] that are not in [X]
    (blocks taken out of, or not yet put into, their list), each in the
    bucket of its size. *)
Record table_matches (st : state) (bl : list block) (Ls : nat -> list Z)
    (X : Z -> Prop) : Prop := {
  tm_sound : forall i x, x ∈ Ls i ->
      ~ X x /\ exists s, (x, (s, false)) ∈ layout (first_block st) bl /\
                         get_list_index s = i;
  tm_complete : forall x s, (x, (s, false)) ∈ layout (first_block st) bl ->
      ~ X x -> x ∈ Ls (get_list_index s);
}.

Definition heap_inv (st : state) (bl : list block) (Ls : nat -> list Z) : Prop :=
  heap_ok st bl /\ lists_ok st Ls /\ table_matches st bl Ls (fun _ => False) /\
  no_adj_free bl.

(** The link words of the free blocks of [bl]. *)
Definition free_links (p0 : Z) (bl : list block) (a : Z) : Prop :=
  exists x s, (x, (s, false)) ∈ layout p0 bl /\ x <= a < x + 16.

(** The payload bytes of the allocated blocks of [bl]. *)
Definition alloc_payload (p0 : Z) (bl : list block) (a : Z) : Prop :=
  exists x s, (x, (s, true)) ∈ layout p0 bl /\ x <= a < x + s - 16.

(** ** Coalescing on the abstract heap *)

(** The physical neighbours of a block between [l1] and [l2]; the prologue
    and the epilogue stand in at the ends. *)
Definition prev_block (l1 : list block) : block := default (DSIZE, true) (last l1).
Definition next_block (l2 : list block) : block := default (0, true) (head l2).

Definition prev_free_size (l1 : list block) : Z :=
  if snd (prev_block l1) then 0 else fst (prev_block l1).
Definition next_free_size (l2 : list block) : Z :=
  if snd (next_block l2) then 0 else fst (next_block l2).
Definition drop_prev_free (l1 : list block) : list block :=
  if snd (prev_block l1) then l1 else removelast l1.
Definition drop_next_free (l2 : list block) : list block :=
  if snd (next_block l2) then l2 else tail l2.

(** The heap after the block of size [s] between [l1] and [l2] has been
    merged with its free neighbours. *)
Definition coalesced (l1 : list block) (s : Z) (l2 : list block) : list block :=
  drop_prev_free l1 ++
  (prev_free_size l1 + s + next_free_size l2, false) :: drop_next_free l2.

(** The bytes of the free blocks of [bl], header to footer. *)
Definition free_span (p0 : Z) (bl : list block) (a : Z) : Prop :=
  exists x s, (x, (s, false)) ∈ layout p0 bl /\ x - 8 <= a < x + s - 8.

(** A word count rounded up to an even count. *)
Definition round_even (words : Z) : Z := if words mod 2 =? 0 then words else words + 1.

(** The allocated blocks of [bl], as (payload address, total size), in
    address order. *)
Fixpoint allocs (p : Z) (bl : list block) : list (Z * Z) :=
  match bl with
  | [] => []
  | b :: bl' => (if snd b then [(p, fst b)] else []) ++ allocs (p + fst b) bl'
  end.

(** The state [mm_init] hands to [extend_heap]: padding, prologue and
    epilogue in place, all buckets empty. *)
Definition prologue_state (m : gmap Z Z) (base limit : Z) : state :=
  mkState
    (store64 (store64 (store64 (store64 m base 0) (base + 8) (PACK DSIZE 1))
                (base + 16) (PACK DSIZE 1)) (base + 24) (PACK 0 1))
    base (base + 32) limit (base + 16) (replicate N_LISTS 0).

(** ** Client traces *)

(** A store of one byte by the client. *)
Definition client_store (st : state) (a v : Z) : state :=
  set_mem st (store_byte (mem st) a v).

(** The pointers the client still holds once it has given up [p]. *)
Definition release (p : Z) (live : list Z) : list Z :=
  filter (fun x => x <> p) live.

(** [reachable st live]: the state [st] is the outcome of a successful
    [mm_init] on some region followed by a sequence of [mm_malloc],
    [mm_free], [mm_realloc] calls and of stores into held payloads, and the
    client holds the pointers [live].  The client frees and reallocates only
    pointers it holds, stores only inside their payloads, and requests at most
    [2 ^ 64 - 32] bytes at a time. *)
Inductive reachable : state -> list Z -> Prop :=
| reach_init m base limit fuel st :
    0 < base -> base mod 16 = 0 -> limit < SIZE_MAX ->
    mm_init fuel (fresh_state m base limit) = Done (st, 0) ->
    reachable st []
| reach_malloc st live fuel size st' p :
    reachable st live -> 0 <= size <= 2 ^ 64 - 32 ->
    mm_malloc fuel st size = Done (st', p) ->
    reachable st' (if p =? NULL then live else p :: live)
| reach_free st live fuel p st' :
    reachable st live -> p ∈ live ->
    mm_free fuel st p = Done st' ->
    reachable st' (release p live)
| reach_realloc st live fuel p size st' q :
    reachable st live -> p ∈ live \/ (p = NULL /\ size <> 0) ->
    0 <= size <= 2 ^ 64 - 32 ->
    mm_realloc fuel st p size = Done (st', q) ->
    reachable st'
      (if q =? NULL then (if size =? 0 then release p live else live)
       else q :: release p live)
| reach_store st live p a v :
    reachable st live -> p ∈ live -> p <= a < p + (block_size st p - 16) ->
    reachable (client_store st a v) live.

(** What every reachable state satisfies: the heap is well formed and the
    held pointers are the payload addresses of its allocated blocks. *)
Definition live_inv (st : state) (live : list Z) : Prop :=
  exists bl Ls, heap_inv st bl Ls /\
    forall x, x ∈ live <-> exists t, (x, t) ∈ allocs (first_block st) bl.

(** ** Example states *)

(** The state after [mm_malloc 24] on [example_heap]; the payload is at 4128. *)
Definition example_alloc : state :=
  match mm_malloc 1 example_heap 24 with
  | Done (st, _) => st
  | _ => example_heap
  end.

(** The tables of [example_heap] and [example_alloc]: one free block, in
    bucket 8. *)
Definition example_table (i : nat) : list Z := if (i =? 8)%nat then [4128] else [].
Definition example_alloc_table (i : nat) : list Z := if (i =? 8)%nat then [4176] else [].

(** The state after [mm_realloc 4128 (2 ^ 64 - 1)] on [example_alloc]. *)
Definition example_overrun : state :=
  match mm_realloc 1 example_alloc 4128 (2 ^ 64 - 1) with
  | Done (st, _) => st
  | _ => example_alloc
  end.

(** ** Order within a bucket *)

(** The blocks of [L] are in ascending order of the sizes in their
    headers. *)
Fixpoint ascending (st : state) (L : list Z) : Prop :=
  match L with
  | [] => True
  | y :: L' => Forall (fun z => block_size st y <= block_size st z) L' /\ ascending st L'
  end.

(** ** A fragmented heap *)

(** Runs of [mm_malloc] and of [mm_free] calls, each on the state the call
    before it left. *)
Definition run_mallocs (fuel : nat) (st : state) (sizes : list Z) : state :=
  foldl (fun st size => match mm_malloc fuel st size with
                        | Done (st', _) => st'
                        | _ => st
                        end) st sizes.
Definition run_frees (fuel : nat) (st : state) (ps : list Z) : state :=
  foldl (fun st p => match mm_free fuel st p with
                     | Done st' => st'
                     | _ => st
                     end) st ps.

(** The state after ten [mm_malloc] calls on [example_heap], for 64, 16, 80,
    16, 96, 16, 128, 16, 160 and 16 bytes, and [mm_free] of the five larger
    blocks: free blocks of 80, 96, 112, 144 and 176 bytes, each followed by
    an allocated block of 32 bytes, and a free block of 3328 bytes at the
    end. *)
Definition example_frag : state :=
  run_frees 3 (run_mallocs 3 example_heap [64; 16; 80; 16; 96; 16; 128; 16; 160; 16])
    [4368; 4128; 4240; 4688; 4512].

Definition example_frag_blocks : list block :=
  [(80, false); (32, true); (96, false); (32, true); (112, false); (32, true);
   (144, false); (32, true); (176, false); (32, true); (3328, false)].

(** The table of [example_frag]: three blocks in bucket 3, two in bucket 4,
    one in bucket 8. *)
Definition example_frag_table (i : nat) : list Z :=
  match i with
  | 3%nat => [4128; 4240; 4368]
  | 4%nat => [4512; 4688]
  | 8%nat => [4896]
  | _ => []
  end.

(** [example_frag] with the block of 96 bytes at 4240 taken out of its
    bucket, and the table that is left. *)
Definition example_frag_removed : state :=
  match remove_block example_frag 4240 with
  | Done st => st
  | _ => example_frag
  end.

Definition example_frag_rest (i : nat) : list Z :=
  match i with
  | 3%nat => [4128; 4368]
  | 4%nat => [4512; 4688]
  | 8%nat => [4896]
  | _ => []
  end.

(** ** A block the client has written to *)

(** The state after [mm_malloc 64] on [example_heap]: the payload is at
    4128, in a block of 80 bytes. *)
Definition example_block : state :=
  match mm_malloc 1 example_heap 64 with
  | Done (st, _) => st
  | _ => example_heap
  end.

(** [example_block] after the client has stored three bytes into that
    payload: the address 4169 as a little-endian word at 4152 and the byte
    128 at 4161. *)
Definition example_stored : state :=
  client_store (client_store (client_store example_block 4152 73) 4153 16) 4161 128.

(** * Basic laws *)

(** Linear arithmetic with division and remainder by constants. *)
Ltac lia_mod := Z.div_mod_to_equations; lia.

(** ** The outcome monad *)

Lemma bind_Done {A B} (f : A -> outcome B) (a : A) : (Done a ≫= f) = f a.
Proof. reflexivity. Qed.

Lemma Done_inj {A} (a b : A) : Done a = Done b -> a = b.
Proof. intros H. injection H as H. exact H. Qed.

Lemma bind_Done_inv {A B} (f : A -> outcome B) (c : outcome A) (b : B) :
  (c ≫= f) = Done b -> exists a, c = Done a /\ f a = Done b.
Proof. destruct c; simpl; intros H; try discriminate; eauto. Qed.

(** ** Byte lists *)

Lemma length_le_split n v : length (le_split n v) = n.
Proof. revert v; induction n; simpl; intros; auto. Qed.

Lemma le_combine_split n v : le_combine (le_split n v) = v mod 256 ^ Z.of_nat n.
Proof.
  revert v; induction n as [|n IH]; intros v.
  - simpl. now rewrite Z.mod_1_r.
  - cbn [le_split le_combine]. rewrite IH.
    replace (256 ^ Z.of_nat (S n)) with (256 * 256 ^ Z.of_nat n).
    + rewrite Z.rem_mul_r by lia. reflexivity.
    + rewrite Nat2Z.inj_succ, Z.pow_succ_r by lia. reflexivity.
Qed.

Lemma le_combine_range bs :
  Forall (fun b => 0 <= b < 256) bs ->
  0 <= le_combine bs < 256 ^ Z.of_nat (length bs).
Proof.
  induction 1 as [|b bs Hb _ IH].
  - simpl. lia.
  - cbn [le_combine length]. rewrite Nat2Z.inj_succ, Z.pow_succ_r by lia. lia.
Qed.

Lemma le_split_bytes n v : Forall (fun b => 0 <= b < 256) (le_split n v).
Proof.
  revert v; induction n; simpl; intros; constructor; auto.
  apply Z.mod_pos_bound. lia.
Qed.

(** ** Byte memory *)

Lemma load_byte_range m a : 0 <= load_byte m a < 256.
Proof. unfold load_byte. apply Z.mod_pos_bound. lia. Qed.

Lemma load_store_byte m a b a' :
  load_byte (store_byte m a b) a' = if decide (a = a') then b mod 256 else load_byte m a'.
Proof.
  unfold load_byte, store_byte. rewrite lookup_insert.
  destruct (decide (a = a')); simpl; auto.
  rewrite Z.mod_mod by lia. reflexivity.
Qed.

Lemma load_store_bytes_out bs : forall m a a',
  a' < a \/ a + Z.of_nat (length bs) <= a' ->
  load_byte (store_bytes m a bs) a' = load_byte m a'.
Proof.
  induction bs as [|b bs IH]; intros m a a' H; simpl; auto.
  rewrite IH by (simpl in H; lia).
  rewrite load_store_byte. destruct (decide (a = a')); auto.
  simpl in H. lia.
Qed.

Lemma load_store_bytes_in bs : forall m a (i : nat) b,
  bs !! i = Some b ->
  load_byte (store_bytes m a bs) (a + Z.of_nat i) = b mod 256.
Proof.
  induction bs as [|b0 bs IH]; intros m a i b H; [discriminate|].
  destruct i as [|i]; simpl in H.
  - injection H as ->. simpl. rewrite load_store_bytes_out by lia.
    rewrite load_store_byte. rewrite Z.add_0_r.
    destruct (decide (a = a)); congruence.
  - simpl store_bytes.
    replace (a + Z.of_nat (S i)) with ((a + 1) + Z.of_nat i) by lia.
    eapply IH; eauto.
Qed.

Lemma load_bytes_length m a n : length (load_bytes m a n) = n.
Proof. revert a; induction n; simpl; intros; auto. Qed.

Lemma load_bytes_lookup m n : forall a (i : nat),
  (i < n)%nat -> load_bytes m a n !! i = Some (load_byte m (a + Z.of_nat i)).
Proof.
  induction n as [|n IH]; intros a i H; [lia|].
  destruct i as [|i]; simpl.
  - now rewrite Z.add_0_r.
  - rewrite IH by lia. do 2 f_equal. lia.
Qed.

Lemma load_bytes_ext m m' n : forall a,
  (forall a', a <= a' < a + Z.of_nat n -> load_byte m' a' = load_byte m a') ->
  load_bytes m' a n = load_bytes m a n.
Proof.
  induction n as [|n IH]; intros a H; simpl; auto.
  rewrite H by lia. f_equal. apply IH. intros a' Ha'. apply H. lia.
Qed.

Lemma load_bytes_bytes m n : forall a, Forall (fun b => 0 <= b < 256) (load_bytes m a n).
Proof. induction n; simpl; intros; constructor; auto using load_byte_range. Qed.

Lemma load_store_bytes_same bs : forall m a,
  Forall (fun b => 0 <= b < 256) bs ->
  load_bytes (store_bytes m a bs) a (length bs) = bs.
Proof.
  intros m a Hb. apply list_eq. intros i.
  destruct (decide (i < length bs)%nat) as [Hi|Hi].
  - rewrite load_bytes_lookup by auto.
    destruct (lookup_lt_is_Some_2 bs i Hi) as [b Hbi].
    rewrite (load_store_bytes_in _ _ _ _ _ Hbi), Hbi. f_equal.
    rewrite Forall_lookup in Hb. specialize (Hb _ _ Hbi).
    apply Z.mod_small. lia.
  - rewrite !lookup_ge_None_2; auto; rewrite ?load_bytes_length; lia.
Qed.

(** ** Word-level laws *)

Lemma load64_range m p : 0 <= load64 m p < 2 ^ 64.
Proof.
  unfold load64.
  pose proof (le_combine_range _ (load_bytes_bytes m 8 p)) as H.
  rewrite load_bytes_length in H. exact H.
Qed.

Lemma load64_store64_eq m p v : load64 (store64 m p v) p = v mod 2 ^ 64.
Proof.
  unfold load64, store64.
  pose proof (load_store_bytes_same (le_split 8 v) m p (le_split_bytes 8 v)) as H.
  rewrite length_le_split in H. rewrite H.
  apply (le_combine_split 8 v).
Qed.

Lemma load_byte_store64 m p v a :
  a < p \/ p + 8 <= a -> load_byte (store64 m p v) a = load_byte m a.
Proof.
  intros H. unfold store64. apply load_store_bytes_out.
  rewrite length_le_split. lia.
Qed.

Lemma load64_store64_disj m p v q :
  q + 8 <= p \/ p + 8 <= q -> load64 (store64 m p v) q = load64 m q.
Proof.
  intros H. unfold load64. f_equal. apply load_bytes_ext.
  intros a Ha. apply load_byte_store64. lia.
Qed.

Lemma load64_ext m m' p :
  (forall a, p <= a < p + 8 -> load_byte m' a = load_byte m a) ->
  load64 m' p = load64 m p.
Proof. intros H. unfold load64. f_equal. apply load_bytes_ext. exact H. Qed.

(** ** Size and allocation bits of a tag word *)

Lemma land_MASK_F v : 0 <= v < 2 ^ 64 -> Z.land v MASK_F = 16 * (v / 16).
Proof.
  intros Hv. unfold MASK_F, SIZE_MOD.
  replace (2 ^ 64 - 16) with (Z.shiftl (Z.ones 60) 4) by reflexivity.
  replace (16 * (v / 16)) with (Z.shiftl (Z.shiftr v 4) 4)
    by (rewrite Z.shiftl_mul_pow2, Z.shiftr_div_pow2 by lia; change (2 ^ 4) with 16; lia).
  apply Z.bits_inj'. intros n Hn.
  rewrite Z.land_spec.
  destruct (Z.ltb_spec n 4) as [Hlt|Hge].
  - rewrite !Z.shiftl_spec_low by lia. apply andb_false_r.
  - rewrite !Z.shiftl_spec by lia. rewrite Z.shiftr_spec by lia.
    replace (n - 4 + 4) with n by lia.
    destruct (Z.ltb_spec (n - 4) 60) as [Hlt|Hge'].
    + rewrite Z.ones_spec_low by lia. apply andb_true_r.
    + rewrite Z.ones_spec_high by lia. rewrite andb_false_r.
      symmetry. apply (Z.bits_above_log2 v n); [lia|].
      destruct (Z.eq_dec v 0) as [->|Hne]; [simpl; lia|].
      apply Z.log2_lt_pow2; [lia|].
      apply Z.lt_le_trans with (2 ^ 64); [lia|].
      apply Z.pow_le_mono_r; lia.
Qed.

Lemma land_1 v : Z.land v 1 = v mod 2.
Proof. change 1 with (Z.ones 1) at 1. rewrite Z.land_ones by lia. reflexivity. Qed.

Lemma PACK_add s a : s mod 16 = 0 -> 0 <= a < 16 -> PACK s a = s + a.
Proof.
  intros Hs Ha. unfold PACK.
  rewrite <- Z.add_nocarry_lor; [reflexivity|].
  apply Z.bits_inj'. intros n Hn. rewrite Z.land_spec, Z.bits_0.
  destruct (Z.ltb_spec n 4) as [Hlt|Hge].
  - replace (Z.testbit s n) with false; [reflexivity|].
    symmetry. rewrite <- (Z.mod_pow2_bits_low s 4 n) by lia.
    change (2 ^ 4) with 16. rewrite Hs. apply Z.bits_0.
  - replace (Z.testbit a n) with false; [apply andb_false_r|].
    symmetry. destruct (Z.eq_dec a 0) as [->|Hne]; [apply Z.bits_0|].
    apply Z.bits_above_log2; [lia|].
    apply Z.log2_lt_pow2; [lia|].
    apply Z.lt_le_trans with (2 ^ 4); [simpl; lia|].
    apply Z.pow_le_mono_r; lia.
Qed.

Lemma tag_size s a :
  0 <= s -> s + a < 2 ^ 64 -> s mod 16 = 0 -> 0 <= a < 16 -> Z.land (s + a) MASK_F = s.
Proof.
  intros H0 H1 H2 H3. rewrite land_MASK_F by lia.
  assert (s = 16 * (s / 16)) as Hs by (apply Z_div_exact_full_2; lia).
  set (k := s / 16) in *. rewrite Hs.
  rewrite (Z.mul_comm 16 k), Z.div_add_l by lia.
  rewrite (Z.div_small a) by lia. lia.
Qed.

Lemma tag_alloc s a : s mod 16 = 0 -> 0 <= a < 2 -> Z.land (s + a) 1 = a.
Proof.
  intros H2 H3. rewrite land_1.
  assert (s = 16 * (s / 16)) as Hs by (apply Z_div_exact_full_2; lia).
  set (k := s / 16) in *. rewrite Hs.
  replace (16 * k + a) with (a + (8 * k) * 2) by lia.
  rewrite Z.mod_add by lia. apply Z.mod_small. lia.
Qed.

Lemma land_MASK_F_range v : 0 <= v < 2 ^ 64 ->
  0 <= Z.land v MASK_F <= 2 ^ 64 - 16 /\ Z.land v MASK_F mod 16 = 0 /\ Z.land v MASK_F <= v.
Proof.
  intros Hv. rewrite land_MASK_F by auto.
  pose proof (Z.mul_div_le v 16 ltac:(lia)).
  pose proof (Z.div_pos v 16 ltac:(lia) ltac:(lia)).
  assert (v / 16 < 2 ^ 60) by (apply Z.div_lt_upper_bound; lia).
  repeat split; try lia.
  rewrite Z.mul_comm. apply Z.mod_mul. lia.
Qed.

Lemma wrap_small z : 0 <= z < 2 ^ 64 -> wrap z = z.
Proof. intros. unfold wrap, SIZE_MOD. apply Z.mod_small. auto. Qed.

(** * The size-class index *)

Lemma get_list_index_count s :
  get_list_index s = length (filter (fun t => t < s) thresholds).
Proof.
  unfold get_list_index, thresholds.
  repeat (match goal with |- context [?a <=? ?b] => destruct (Z.leb_spec a b) end);
    repeat (rewrite filter_cons; case_decide; try lia); reflexivity.
Qed.

Lemma get_list_index_mono s1 s2 :
  s1 <= s2 -> (get_list_index s1 <= get_list_index s2)%nat.
Proof.
  intros H. unfold get_list_index.
  repeat (match goal with |- context [?a <=? ?b] => destruct (Z.leb_spec a b) end); lia.
Qed.

Lemma get_list_index_lt s : (get_list_index s < N_LISTS)%nat.
Proof.
  unfold get_list_index, N_LISTS.
  repeat (match goal with |- context [?a <=? ?b] => destruct (Z.leb_spec a b) end); lia.
Qed.

(** C3: [get_list_index] is a monotonic step function over the doubling
    thresholds 16 .. 4096 with a catch-all last bucket 9, so every block of
    size at least [s] maps to bucket [get_list_index s] or a higher one. *)
Theorem get_list_index_monotone_step :
  (forall s1 s2, s1 < s2 -> (get_list_index s1 <= get_list_index s2)%nat) /\
  (forall s, get_list_index s = length (filter (fun t => t < s) thresholds)) /\
  (forall (i : nat) t, thresholds !! i = Some t -> t = 16 * 2 ^ Z.of_nat i) /\
  (forall s, 4096 < s -> get_list_index s = 9%nat) /\
  (forall s b, s <= b -> (get_list_index s <= get_list_index b)%nat).
Proof.
  split; [|split; [|split; [|split]]].
  - intros s1 s2 H. apply get_list_index_mono. lia.
  - apply get_list_index_count.
  - intros i t H. unfold thresholds in H.
    do 9 (destruct i as [|i]; [simpl in H; inversion H; reflexivity|simpl in H]). discriminate.
  - intros s H. unfold get_list_index.
    repeat (match goal with |- context [?a <=? ?b] => destruct (Z.leb_spec a b) end); lia.
  - intros s b H. apply get_list_index_mono. exact H.
Qed.

Lemma get_list_index_monotone_step_witness :
  (get_list_index 24 <= get_list_index 4097)%nat /\
  (get_list_index 100 <= get_list_index 100)%nat /\
  get_list_index 5000 = 9%nat /\
  (16 * 2 ^ Z.of_nat 3 = 128).
Proof.
  destruct get_list_index_monotone_step as (H1 & _ & H3 & H4 & H5).
  split; [apply H1; lia|].
  split; [apply H5; lia|].
  split; [apply H4; lia|].
  symmetry. apply H3. reflexivity.
Defined.

(** * The adjusted size of a request *)

Lemma mm_malloc_zero fuel st : mm_malloc fuel st 0 = Done (st, NULL).
Proof. reflexivity. Qed.

Lemma ALIGN_spec x : 0 <= x -> x + 15 < 2 ^ 64 -> ALIGN x = spec_align x.
Proof.
  intros H0 H1. unfold ALIGN, spec_align, ALIGNMENT.
  replace (x + (16 - 1)) with (x + 15) by lia.
  rewrite wrap_small by lia. apply land_MASK_F. lia.
Qed.

(** Below the wrap-around limit the two-branch computation of [mm_malloc]
    is the specification's formula. *)
Lemma adjusted_size_spec size :
  0 < size <= 2 ^ 64 - 32 -> adjusted_size size = spec_adjusted_size size.
Proof.
  intros H. unfold adjusted_size, spec_adjusted_size, DSIZE.
  destruct (Z.leb_spec size 16) as [Hle|Hgt].
  - rewrite Z.max_r by lia. reflexivity.
  - rewrite Z.max_l by lia. rewrite wrap_small by lia.
    apply ALIGN_spec; lia.
Qed.

Lemma adjusted_size_bounds size :
  0 < size <= 2 ^ 64 - 32 ->
  32 <= adjusted_size size /\ adjusted_size size mod 16 = 0 /\
  size + 16 <= adjusted_size size <= 2 ^ 64 - 16.
Proof.
  intros H. rewrite adjusted_size_spec by auto.
  unfold spec_adjusted_size, spec_align.
  destruct (Z.leb_spec size 16) as [Hle|Hgt].
  - rewrite Z.max_r by lia. change (16 * ((32 + 15) / 16)) with 32.
    change (32 mod 16) with 0. lia.
  - rewrite Z.max_l by lia.
    pose proof (Z.div_mod (size + 16 + 15) 16 ltac:(lia)).
    pose proof (Z.mod_pos_bound (size + 16 + 15) 16 ltac:(lia)).
    repeat split; try lia.
    rewrite Z.mul_comm. apply Z.mod_mul. lia.
Qed.

(** C4 (the code departs from the claim): for a request of [SIZE_MAX] bytes
    the sum [size + DSIZE] wraps around, the adjusted size is 16, below the
    minimum block size 32 and below the request, while the specification's
    formula gives [2^64 + 16]; [mm_malloc] then returns a block of total
    size 16 instead of failing. *)
Theorem adjusted_size_wraps :
  adjusted_size (2 ^ 64 - 1) = 16 /\
  spec_adjusted_size (2 ^ 64 - 1) = 2 ^ 64 + 16 /\
  exists st, mm_malloc 1 example_heap (2 ^ 64 - 1) = Done (st, 4128) /\
             GET st (HDRP 4128) = Done (PACK 16 1).
Proof.
  split; [vm_compute; reflexivity|].
  split; [vm_compute; reflexivity|].
  eexists. split; [vm_compute; reflexivity|].
  vm_compute. reflexivity.
Qed.

(** * Resize: the degenerate arguments *)

Lemma mm_realloc_zero fuel st ptr :
  mm_realloc fuel st ptr 0 = (st' ← mm_free fuel st ptr; Done (st', NULL)).
Proof. reflexivity. Qed.

Lemma mm_realloc_null fuel st size :
  size <> 0 -> mm_realloc fuel st NULL size = mm_malloc fuel st size.
Proof.
  intros H. unfold mm_realloc.
  destruct (Z.eqb_spec size 0); [contradiction|]. reflexivity.
Qed.

(** C7, as stated, fails: with a null pointer and size 0 [mm_realloc] runs
    [mm_free(NULL)], which reads the word at address [-8] outside the
    region, while [mm_malloc(0)] returns null and leaves the state alone. *)
Lemma mm_realloc_null_zero_not_malloc :
  mm_realloc 1 example_heap NULL 0 = Fault /\
  mm_malloc 1 example_heap 0 = Done (example_heap, NULL) /\
  ~ (forall fuel st size, mm_realloc fuel st NULL size = mm_malloc fuel st size).
Proof.
  assert (mm_realloc 1 example_heap NULL 0 = Fault) as H by (vm_compute; reflexivity).
  split; [exact H|]. split; [reflexivity|].
  intros Hall. specialize (Hall 1%nat example_heap 0).
  rewrite H in Hall. discriminate.
Qed.

(** * The fit search *)

Lemma GET_valid st p : valid_word st p = true -> GET st p = Done (load64 (mem st) p).
Proof. intros H. unfold GET. rewrite H. reflexivity. Qed.

Lemma GET_Done_inv st p v : GET st p = Done v -> valid_word st p = true /\ v = load64 (mem st) p.
Proof. unfold GET. destruct (valid_word st p); intros H; inversion H; auto. Qed.

Lemma GET_SIZE_valid st bp :
  valid_word st (bp - 8) = true -> GET_SIZE st (HDRP bp) = Done (block_size st bp).
Proof. intros H. unfold GET_SIZE, HDRP, WSIZE. rewrite GET_valid by auto. reflexivity. Qed.

Lemma GET_SIZE_Done_inv st bp s :
  GET_SIZE st (HDRP bp) = Done s -> valid_word st (bp - 8) = true /\ s = block_size st bp.
Proof.
  unfold GET_SIZE, HDRP, WSIZE. intros H.
  apply bind_Done_inv in H as (v & Hv & H). apply GET_Done_inv in Hv as [Hv ->].
  inversion H. auto.
Qed.

Lemma block_size_range st bp :
  0 <= block_size st bp <= 2 ^ 64 - 16 /\ block_size st bp mod 16 = 0.
Proof.
  unfold block_size.
  pose proof (land_MASK_F_range _ (load64_range (mem st) (bp - 8))). tauto.
Qed.

Section Scan.
Variables (st : state) (asize : Z).
Hypothesis asize_nonneg : 0 <= asize.

(** What the loop variables [(best_bp, min_diff)] say about the blocks
    [P] passed so far. *)
Definition scan_inv (P : list Z) (best min_diff : Z) : Prop :=
  (best = NULL /\ min_diff = SIZE_MAX /\ forall b, b ∈ P -> block_size st b < asize) \/
  (best <> NULL /\ first_best st asize P best /\
   min_diff = block_size st best - asize /\ 0 < min_diff).

Lemma first_best_skip P best b :
  first_best st asize P best ->
  (asize <= block_size st b -> block_size st best <= block_size st b) ->
  first_best st asize (P ++ [b]) best.
Proof.
  intros (l1 & l2 & -> & Hadm & H1 & H2) Hb.
  exists l1, (l2 ++ [b]). split; [now rewrite <- app_assoc|].
  split; [auto|]. split; [auto|].
  intros x Hx. apply elem_of_app in Hx as [Hx|Hx]; [auto|].
  apply list_elem_of_singleton in Hx as ->. auto.
Qed.

Lemma first_best_take P best b :
  (best = NULL /\ (forall x, x ∈ P -> block_size st x < asize)) \/
  (first_best st asize P best /\ block_size st b < block_size st best) ->
  asize <= block_size st b ->
  first_best st asize (P ++ [b]) b.
Proof.
  intros H Hb. exists P, []. split; [reflexivity|]. split; [auto|].
  split; [|intros x Hx; inversion Hx].
  intros x Hx Hax. destruct H as [[_ Hno]|[(l1 & l2 & -> & Hadm & H1 & H2) Hlt]].
  - specialize (Hno x Hx). lia.
  - apply elem_of_app in Hx as [Hx|Hx]; [specialize (H1 x Hx Hax); lia|].
    apply elem_of_cons in Hx as [->|Hx]; [lia|].
    specialize (H2 x Hx Hax). lia.
Qed.

Lemma scan_bucket_correct Q : forall P bp best min_diff fuel,
  succ_chain (mem st) bp Q ->
  Forall (fun b => valid_word st (b - 8) = true /\ valid_word st (b + 8) = true) Q ->
  (length Q <= fuel)%nat ->
  scan_inv P best min_diff ->
  exists r, scan_bucket fuel st asize bp best min_diff = Done r /\
    match r with
    | Return b => first_best st asize (P ++ Q) b /\ block_size st b = asize
    | Continue best' min_diff' => scan_inv (P ++ Q) best' min_diff'
    end.
Proof.
  induction Q as [|b Q IH]; intros P bp best min_diff fuel Hch Hv Hf Hinv.
  - simpl in Hch. subst bp. destruct fuel; simpl; eexists; (split; [reflexivity|]);
      rewrite app_nil_r; exact Hinv.
  - destruct Hch as (-> & Hnz & Hch). inversion Hv as [|? ? [Hv1 Hv2] Hv']; subst.
    destruct fuel as [|fuel]; [simpl in Hf; lia|]. simpl in Hf.
    cbn [scan_bucket]. destruct (Z.eqb_spec b NULL) as [|_]; [contradiction|].
    rewrite GET_SIZE_valid by auto. rewrite bind_Done.
    unfold GET_SUCC, NEXT_FREE_BLKP, WSIZE. rewrite GET_valid by auto. rewrite !bind_Done.
    pose proof (block_size_range st b) as [Hr _].
    replace (P ++ b :: Q) with ((P ++ [b]) ++ Q) by (rewrite <- app_assoc; reflexivity).
    destruct (Z.geb_spec (block_size st b) asize) as [Hge|Hlt].
    + rewrite wrap_small by lia.
      destruct (Z.ltb_spec (block_size st b - asize) min_diff) as [Hlt|Hge'].
      * assert (first_best st asize (P ++ [b]) b) as Hfb.
        { apply (first_best_take P best); [|lia].
          destruct Hinv as [(-> & _ & Hno)|(_ & Hfb & -> & _)]; [left; auto|right; split; [auto|lia]]. }
        destruct (Z.eqb_spec (block_size st b - asize) 0) as [Hz|Hnz'].
        -- eexists. split; [reflexivity|]. split; [|lia].
           destruct Hfb as (l1 & l2 & Heq & Hadm & H1 & H2).
           exists l1, (l2 ++ Q). split; [rewrite Heq, <- app_assoc; reflexivity|].
           split; [auto|]. split; [auto|].
           intros x _ Hx. lia.
        -- apply (IH (P ++ [b])); auto; [lia|].
           right. split; [auto|]. split; [auto|]. lia.
      * apply (IH (P ++ [b])); auto; [lia|].
        destruct Hinv as [(-> & -> & Hno)|(Hb & Hfb & -> & Hpos)]; [unfold SIZE_MAX, SIZE_MOD in Hge'; lia|].
        right. split; [auto|]. split; [|auto].
        apply first_best_skip; auto. intros _. lia.
    + apply (IH (P ++ [b])); auto; [lia|].
      destruct Hinv as [(-> & -> & Hno)|(Hb & Hfb & -> & Hpos)].
      * left. split; [auto|]. split; [auto|].
        intros x Hx. apply elem_of_app in Hx as [Hx|Hx]; [auto|].
        apply list_elem_of_singleton in Hx as ->. lia.
      * right. split; [auto|]. split; [|auto].
        apply first_best_skip; auto. intros ?. lia.
Qed.

(** Whatever the lists look like, a block the search hands back is large
    enough: this is the guard [bsize >= asize] of the loop. *)
Lemma scan_bucket_fits fuel : forall bp best min_diff r,
  scan_bucket fuel st asize bp best min_diff = Done r ->
  (best = NULL \/ (valid_word st (best - 8) = true /\ asize <= block_size st best)) ->
  match r with
  | Return b => valid_word st (b - 8) = true /\ asize <= block_size st b
  | Continue b _ => b = NULL \/ (valid_word st (b - 8) = true /\ asize <= block_size st b)
  end.
Proof.
  induction fuel as [|fuel IH]; intros bp best min_diff r H Hb; simpl in H.
  - destruct (bp =? NULL); inversion H; subst. exact Hb.
  - destruct (bp =? NULL); [inversion H; subst; exact Hb|].
    apply bind_Done_inv in H as (bsize & Hs & H).
    apply GET_SIZE_Done_inv in Hs as [Hv ->].
    destruct (Z.geb_spec (block_size st bp) asize) as [Hge|Hlt].
    + destruct (wrap (block_size st bp - asize) <? min_diff).
      * destruct (wrap (block_size st bp - asize) =? 0).
        -- inversion H; subst. auto.
        -- apply bind_Done_inv in H as (succ & _ & H). eapply IH; eauto.
      * apply bind_Done_inv in H as (succ & _ & H). eapply IH; eauto.
    + apply bind_Done_inv in H as (succ & _ & H). eapply IH; eauto.
Qed.

Lemma scan_lists_fits fuel indices : forall best min_diff r,
  scan_lists fuel st asize indices best min_diff = Done r ->
  (best = NULL \/ (valid_word st (best - 8) = true /\ asize <= block_size st best)) ->
  r = NULL \/ (valid_word st (r - 8) = true /\ asize <= block_size st r).
Proof.
  induction indices as [|i rest IH]; intros best min_diff r H Hb; simpl in H.
  - inversion H. auto.
  - apply bind_Done_inv in H as (sr & Hsr & H).
    apply scan_bucket_fits in Hsr; [|exact Hb].
    destruct sr as [b|b md]; [inversion H; subst; auto|].
    destruct (b =? NULL); simpl in H; [eapply IH; eauto|].
    inversion H; subst. exact Hsr.
Qed.

End Scan.

Lemma find_fit_fits fuel st asize bp :
  find_fit fuel st asize = Done bp -> bp <> NULL ->
  GET_SIZE st (HDRP bp) = Done (block_size st bp) /\ asize <= block_size st bp.
Proof.
  unfold find_fit. intros H Hnz.
  apply scan_lists_fits in H; [|left; reflexivity].
  destruct H as [H|[Hv Hs]]; [contradiction|].
  split; [apply GET_SIZE_valid; auto|auto].
Qed.

Lemma succ_chain_nonnull m L : forall cur b,
  succ_chain m cur L -> b ∈ L -> b <> NULL.
Proof.
  induction L as [|x L IH]; intros cur b Hc Hb; [inversion Hb|].
  destruct Hc as (_ & Hx & Hc).
  apply elem_of_cons in Hb as [->|Hb]; eauto.
Qed.

Section FindFit.
Variables (st : state) (asize : Z) (fuel : nat) (Ls : nat -> list Z).
Hypothesis asize_nonneg : 0 <= asize.
Hypothesis Ls_buckets :
  forall i, (i < N_LISTS)%nat -> bucket_list st i (Ls i) /\ (length (Ls i) <= fuel)%nat.

Lemma scan_lists_correct n : forall i,
  (i + n = N_LISTS)%nat ->
  exists r, scan_lists fuel st asize (seq i n) NULL SIZE_MAX = Done r /\
    ((r = NULL /\ forall j b, (i <= j < N_LISTS)%nat -> b ∈ Ls j ->
                    block_size st b < asize) \/
     (r <> NULL /\ exists k, (i <= k < N_LISTS)%nat /\
        first_best st asize (Ls k) r /\
        forall j b, (i <= j < k)%nat -> b ∈ Ls j -> block_size st b < asize)).
Proof.
  induction n as [|n IH]; intros i Hlen.
  - simpl. eexists. split; [reflexivity|]. left. split; [reflexivity|].
    intros j b Hj. lia.
  - destruct (Ls_buckets i ltac:(lia)) as [[Hch Hv] Hf].
    destruct (scan_bucket_correct st asize asize_nonneg (Ls i) [] (seg_get st i) NULL SIZE_MAX
                fuel Hch Hv Hf) as (r & Hr & Hres).
    { left. split; [auto|]. split; [auto|]. intros b Hb. inversion Hb. }
    cbn [seq scan_lists]. rewrite Hr, bind_Done. simpl app in Hres.
    destruct r as [b|best md].
    + destruct Hres as [Hfb Hsz]. eexists. split; [reflexivity|]. right.
      split.
      { destruct Hfb as (l1 & l2 & Heq & _).
        apply (succ_chain_nonnull _ _ _ b Hch).
        rewrite Heq. apply elem_of_app. right. left. }
      exists i. split; [lia|]. split; [auto|].
      intros j x Hj. lia.
    + destruct Hres as [(-> & -> & Hno)|(Hb & Hfb & -> & Hpos)].
      * simpl. destruct (IH (S i) ltac:(lia)) as (r & Hr' & Hres').
        exists r. split; [exact Hr'|].
        destruct Hres' as [[-> Hno']|(Hnz & k & Hk & Hfb & Hno')].
        -- left. split; [auto|]. intros j x Hj Hx.
           destruct (decide (j = i)) as [->|Hne]; [auto|].
           apply (Hno' j x); auto. lia.
        -- right. split; [auto|]. exists k. split; [lia|]. split; [auto|].
           intros j x Hj Hx.
           destruct (decide (j = i)) as [->|Hne]; [auto|].
           apply (Hno' j x); auto. lia.
      * destruct (Z.eqb_spec best NULL) as [|_]; [contradiction|]. simpl.
        eexists. split; [reflexivity|]. right. split; [auto|].
        exists i. split; [lia|]. split; [auto|].
        intros j x Hj. lia.
Qed.

Lemma find_fit_correct :
  exists r, find_fit fuel st asize = Done r /\
    ((r = NULL /\
      forall j b, (get_list_index asize <= j < N_LISTS)%nat -> b ∈ Ls j ->
                  block_size st b < asize) \/
     (r <> NULL /\
      exists k, (get_list_index asize <= k < N_LISTS)%nat /\
        first_best st asize (Ls k) r /\
        forall j b, (get_list_index asize <= j < k)%nat -> b ∈ Ls j ->
                    block_size st b < asize)).
Proof.
  unfold find_fit. apply scan_lists_correct.
  pose proof (get_list_index_lt asize). lia.
Qed.

End FindFit.

(** C1: [find_fit] scans the buckets upward from [get_list_index asize];
    it answers from the first bucket that holds a block of size at least
    [asize], with the first block of least leftover there (so an exact match
    when there is one), and answers [NULL] when no bucket from the start
    index on holds such a block. *)
Theorem find_fit_first_admissible_bucket st asize fuel (Ls : nat -> list Z) :
  0 <= asize ->
  (forall i, (i < N_LISTS)%nat ->
     bucket_list st i (Ls i) /\ (length (Ls i) <= fuel)%nat) ->
  exists r, find_fit fuel st asize = Done r /\
    ((r = NULL /\
      forall j b, (get_list_index asize <= j < N_LISTS)%nat -> b ∈ Ls j ->
                  block_size st b < asize) \/
     (r <> NULL /\
      exists k, (get_list_index asize <= k < N_LISTS)%nat /\
        first_best st asize (Ls k) r /\
        forall j b, (get_list_index asize <= j < k)%nat -> b ∈ Ls j ->
                    block_size st b < asize)).
Proof. intros Ha HLs. apply find_fit_correct; auto. Qed.

(** * Doubly linked lists in memory *)

Lemma load64_store64_ne m p v q :
  p mod 8 = 0 -> q mod 8 = 0 -> p <> q -> load64 (store64 m p v) q = load64 m q.
Proof. intros Hp Hq Hne. apply load64_store64_disj. lia_mod. Qed.

Lemma load64_unchanged D m m' q :
  unchanged_outside D m m' -> (forall a, q <= a < q + 8 -> ~ D a) ->
  load64 m' q = load64 m q.
Proof. intros H HD. apply load64_ext. intros a Ha. apply H. auto. Qed.

Lemma unchanged_refl D m : unchanged_outside D m m.
Proof. intros a _. reflexivity. Qed.

Lemma unchanged_trans (D : Z -> Prop) m1 m2 m3 :
  unchanged_outside D m1 m2 -> unchanged_outside D m2 m3 -> unchanged_outside D m1 m3.
Proof. intros H1 H2 a Ha. rewrite H2, H1; auto. Qed.

Lemma unchanged_weaken (D D' : Z -> Prop) m m' :
  (forall a, D a -> D' a) -> unchanged_outside D m m' -> unchanged_outside D' m m'.
Proof. intros HD H a Ha. apply H. auto. Qed.

Lemma unchanged_store64 (D : Z -> Prop) m p v :
  (forall a, p <= a < p + 8 -> D a) -> unchanged_outside D m (store64 m p v).
Proof.
  intros HD a Ha. apply load_byte_store64.
  destruct (Z_lt_dec a p); [lia|]. destruct (Z_le_dec (p + 8) a); [lia|].
  exfalso. apply Ha, HD. lia.
Qed.

Lemma last_or_app d l x : last_or d (l ++ [x]) = x.
Proof. unfold last_or. rewrite last_snoc. reflexivity. Qed.

Lemma last_or_cons d x l : last_or d (x :: l) = last_or x l.
Proof.
  unfold last_or. destruct l as [|y l]; [reflexivity|].
  rewrite last_cons_cons. destruct (last (y :: l)) eqn:E; [reflexivity|].
  apply last_None in E. discriminate.
Qed.

Lemma last_or_elem d l : l <> [] -> last_or d l ∈ l.
Proof.
  intros H. destruct (exists_last H) as (l' & x & ->).
  rewrite last_or_app. apply elem_of_app. right. left.
Qed.

Lemma dllseg_app m l1 : forall l2 prev cur nxt,
  dllseg m prev cur (l1 ++ l2) nxt <->
  exists mid, dllseg m prev cur l1 mid /\ dllseg m (last_or prev l1) mid l2 nxt.
Proof.
  induction l1 as [|b l1 IH]; intros l2 prev cur nxt; simpl.
  - split.
    + intros H. exists cur. auto.
    + intros (mid & -> & H). exact H.
  - rewrite last_or_cons. split.
    + intros (Hc & Hb & Hp & H). apply IH in H as (mid & H1 & H2).
      exists mid. auto.
    + intros (mid & (Hc & Hb & Hp & H1) & H2). repeat split; auto.
      apply IH. eauto.
Qed.

Lemma dllseg_head m L prev cur nxt : dllseg m prev cur L nxt -> cur = head_or nxt L.
Proof. destruct L; simpl; [auto|]. intros (H & _). exact H. Qed.

Lemma dllseg_nonnull m L : forall prev cur nxt x,
  dllseg m prev cur L nxt -> x ∈ L -> x <> NULL.
Proof.
  induction L as [|b L IH]; intros prev cur nxt x H Hx; [inversion Hx|].
  destruct H as (_ & Hb & _ & H).
  apply elem_of_cons in Hx as [->|Hx]; eauto.
Qed.

Lemma dllseg_succ_chain m L : forall prev cur,
  dllseg m prev cur L NULL -> succ_chain m cur L.
Proof.
  induction L as [|b L IH]; intros prev cur H; simpl in *; [auto|].
  destruct H as (Hc & Hb & _ & H). eauto.
Qed.

Lemma dllseg_frame m m' L : forall prev cur nxt,
  (forall x, x ∈ L -> load64 m' x = load64 m x /\ load64 m' (x + 8) = load64 m (x + 8)) ->
  dllseg m prev cur L nxt -> dllseg m' prev cur L nxt.
Proof.
  induction L as [|b L IH]; intros prev cur nxt Hm H; simpl in *; [auto|].
  destruct H as (Hc & Hb & Hp & H).
  destruct (Hm b ltac:(left)) as [E1 E2].
  repeat split; auto; [congruence|].
  rewrite E2. apply IH; auto. intros x Hx. apply Hm. right. exact Hx.
Qed.

(** Redirecting the successor link of the last block of a segment. *)
Lemma dllseg_set_next m l : forall prev cur y nxt v,
  dllseg m prev cur (l ++ [y]) nxt ->
  NoDup (l ++ [y]) -> Forall (fun x => x mod 16 = 0) (l ++ [y]) ->
  0 <= v < 2 ^ 64 ->
  dllseg (store64 m (y + 8) v) prev cur (l ++ [y]) v.
Proof.
  induction l as [|b l IH]; intros prev cur y nxt v H Hnd Hal Hv; simpl in *.
  - destruct H as (Hc & Hy & Hp & _).
    apply Forall_cons in Hal as [Hy16 _].
    repeat split; auto.
    + rewrite load64_store64_ne by lia_mod. exact Hp.
    + rewrite load64_store64_eq. apply Z.mod_small. exact Hv.
  - destruct H as (Hc & Hb & Hp & H).
    apply NoDup_cons in Hnd as [Hnin Hnd]. apply Forall_cons in Hal as [Hb16 Hal].
    assert (y mod 16 = 0) as Hy16.
    { rewrite Forall_forall in Hal. apply Hal. apply elem_of_app. right. left. }
    assert (b <> y) as Hne.
    { intros ->. apply Hnin. apply elem_of_app. right. left. }
    repeat split; auto.
    + rewrite load64_store64_ne by lia_mod. exact Hp.
    + rewrite load64_store64_ne by lia_mod. eapply IH; eauto.
Qed.

(** Redirecting the predecessor link of the first block of a segment. *)
Lemma dllseg_set_prev m l prev y nxt v :
  dllseg m prev y (y :: l) nxt ->
  NoDup (y :: l) -> Forall (fun x => x mod 16 = 0) (y :: l) ->
  0 <= v < 2 ^ 64 ->
  dllseg (store64 m y v) v y (y :: l) nxt.
Proof.
  intros H Hnd Hal Hv. destruct H as (_ & Hy & _ & H).
  apply NoDup_cons in Hnd as [Hnin Hnd]. apply Forall_cons in Hal as [Hy16 Hal].
  simpl. repeat split; auto.
  - rewrite load64_store64_eq. apply Z.mod_small. exact Hv.
  - rewrite load64_store64_ne by lia_mod.
    eapply dllseg_frame; [|exact H].
    intros x Hx. assert (x <> y) by (intros ->; contradiction).
    rewrite Forall_forall in Hal. specialize (Hal x Hx).
    rewrite !load64_store64_ne by lia_mod. auto.
Qed.

(** A store to a link word of [y] leaves a list without [y] alone. *)
Lemma dllseg_store_other m L prev cur nxt y o v :
  dllseg m prev cur L nxt ->
  y ∉ L -> Forall (fun x => x mod 16 = 0) L -> y mod 16 = 0 ->
  o = 0 \/ o = 8 ->
  dllseg (store64 m (y + o) v) prev cur L nxt.
Proof.
  intros H Hnin Hal Hy Ho. eapply dllseg_frame; [|exact H].
  intros x Hx. assert (x <> y) by (intros ->; contradiction).
  rewrite Forall_forall in Hal. specialize (Hal x Hx).
  rewrite !load64_store64_ne by lia_mod. auto.
Qed.

Lemma dllseg_store_pred m L prev cur nxt y v :
  dllseg m prev cur L nxt ->
  y ∉ L -> Forall (fun x => x mod 16 = 0) L -> y mod 16 = 0 ->
  dllseg (store64 m y v) prev cur L nxt.
Proof.
  intros H Hnin Hal Hy. replace y with (y + 0) at 1 by lia.
  apply dllseg_store_other; auto.
Qed.

Lemma dllseg_store_succ m L prev cur nxt y v :
  dllseg m prev cur L nxt ->
  y ∉ L -> Forall (fun x => x mod 16 = 0) L -> y mod 16 = 0 ->
  dllseg (store64 m (y + 8) v) prev cur L nxt.
Proof. intros H Hnin Hal Hy. apply dllseg_store_other; auto. Qed.

(** * [remove_block] and [insert_block] on the table *)

Lemma PUT_valid st p v :
  valid_word st p = true -> PUT st p v = Done (set_mem st (store64 (mem st) p v)).
Proof. intros H. unfold PUT. rewrite H. reflexivity. Qed.

Lemma valid_word_iff st p :
  valid_word st p = true <-> mem_start_brk st <= p /\ p + 8 <= mem_brk st.
Proof. unfold valid_word. rewrite andb_true_iff, !Z.leb_le. tauto. Qed.

Lemma valid_word_same st st' p :
  same_region st st' -> valid_word st' p = valid_word st p.
Proof. intros (H1 & H2 & _). unfold valid_word. rewrite H1, H2. reflexivity. Qed.

Lemma same_region_refl st : same_region st st.
Proof. repeat split. Qed.

Lemma same_region_trans st1 st2 st3 :
  same_region st1 st2 -> same_region st2 st3 -> same_region st1 st3.
Proof. unfold same_region. intros (?&?&?&?) (?&?&?&?). repeat split; congruence. Qed.

Lemma seg_get_set_eq st i v :
  (i < length (seg_list st))%nat -> seg_get (seg_set st i v) i = v.
Proof. intros H. unfold seg_get, seg_set. simpl. apply list_lookup_total_insert_eq. exact H. Qed.

Lemma seg_get_set_ne st i j v : i <> j -> seg_get (seg_set st i v) j = seg_get st j.
Proof. intros H. unfold seg_get, seg_set. simpl. apply list_lookup_total_insert_ne. exact H. Qed.

Lemma seg_get_set_mem st m i : seg_get (set_mem st m) i = seg_get st i.
Proof. reflexivity. Qed.

Lemma links_intro (Ls : nat -> list Z) i x a : x ∈ Ls i -> x <= a < x + 16 -> links Ls a.
Proof. intros. exists i, x. auto. Qed.

Section TableUpdate.
Variables (st : state) (Ls : nat -> list Z).
Hypothesis Hok : lists_ok st Ls.

Lemma member_valid i x : x ∈ Ls i ->
  valid_word st x = true /\ valid_word st (x + 8) = true /\
  x mod 16 = 0 /\ 0 <= x < 2 ^ 64.
Proof.
  intros Hx. destruct (lo_member _ _ Hok i x Hx) as (H16 & Hlo & Hhi).
  pose proof (lo_brk _ _ Hok). pose proof (lo_start _ _ Hok).
  rewrite !valid_word_iff. repeat split; lia.
Qed.

Lemma bucket_aligned i : Forall (fun x => x mod 16 = 0) (Ls i).
Proof. apply Forall_forall. intros x Hx. apply (lo_member _ _ Hok i x Hx). Qed.

(** A state [st'] obtained by rewriting link words of the blocks [F],
    none of them in a bucket other than [idx], and the head of bucket
    [idx], still represents the other buckets. *)
Lemma other_buckets_frame st' idx (F : list Z) :
  (forall j, j <> idx -> seg_get st' j = seg_get st j) ->
  unchanged_outside (fun a => exists x, x ∈ F /\ x <= a < x + 16) (mem st) (mem st') ->
  (forall x, x ∈ F -> x mod 16 = 0) ->
  (forall x j, x ∈ F -> x ∈ Ls j -> j = idx) ->
  forall j, (j < N_LISTS)%nat -> j <> idx ->
    dllseg (mem st') NULL (seg_get st' j) (Ls j) NULL.
Proof.
  intros Hseg Hun HF16 HFu j Hj Hne. rewrite Hseg by auto.
  eapply dllseg_frame; [|apply (lo_dll _ _ Hok j Hj)].
  intros x Hx.
  destruct (lo_member _ _ Hok j x Hx) as (H16 & _).
  split; apply (load64_unchanged _ _ _ _ Hun); intros a Ha (y & Hy & Hya);
    assert (y <> x) by (intros ->; apply Hne; eauto);
    specialize (HF16 y Hy); lia_mod.
Qed.

End TableUpdate.

Lemma lists_ok_update st Ls st' idx L' :
  lists_ok st Ls ->
  same_region st st' ->
  length (seg_list st') = N_LISTS ->
  (forall j, j <> idx -> seg_get st' j = seg_get st j) ->
  unchanged_outside (fun a => exists x, x ∈ L' /\ x <= a < x + 16) (mem st) (mem st') ->
  dllseg (mem st') NULL (seg_get st' idx) L' NULL ->
  NoDup L' ->
  (forall x, x ∈ L' ->
     x mod 16 = 0 /\ mem_start_brk st + 8 <= x /\ x + 16 <= mem_brk st) ->
  (forall x j, x ∈ L' -> x ∈ Ls j -> j = idx) ->
  lists_ok st' (<[idx := L']> Ls).
Proof.
  intros Hok Hsame Hlen Hseg Hun Hdll Hnd Hmem Huniq.
  destruct Hsame as (Hs1 & Hs2 & Hs3 & Hs4).
  constructor.
  - exact Hlen.
  - intros i Hi. destruct (decide (i = idx)) as [->|Hne].
    + rewrite fn_lookup_insert. exact Hdll.
    + rewrite fn_lookup_insert_ne by auto.
      eapply (other_buckets_frame _ _ Hok st' idx L'); eauto.
      intros x Hx. apply (Hmem x Hx).
  - intros i. destruct (decide (i = idx)) as [->|Hne].
    + rewrite fn_lookup_insert. exact Hnd.
    + rewrite fn_lookup_insert_ne by auto. apply (lo_nodup _ _ Hok).
  - intros i j x.
    destruct (decide (i = idx)) as [->|Hi]; destruct (decide (j = idx)) as [->|Hj];
      rewrite ?fn_lookup_insert, ?fn_lookup_insert_ne by auto; intros H1 H2; auto.
    + symmetry. eauto.
    + eauto.
    + eapply (lo_unique _ _ Hok); eauto.
  - intros i x. rewrite Hs1, Hs2. destruct (decide (i = idx)) as [->|Hi];
      rewrite ?fn_lookup_insert, ?fn_lookup_insert_ne by auto; intros Hx; auto.
    eapply (lo_member _ _ Hok); eauto.
  - rewrite Hs2. apply (lo_brk _ _ Hok).
  - rewrite Hs1. apply (lo_start _ _ Hok).
Qed.

Lemma remove_block_lists st Ls b l1 l2 :
  lists_ok st Ls ->
  valid_word st (b - 8) = true ->
  Ls (get_list_index (block_size st b)) = l1 ++ b :: l2 ->
  exists st', remove_block st b = Done st' /\
    lists_ok st' (<[get_list_index (block_size st b) := l1 ++ l2]> Ls) /\
    same_region st st' /\
    unchanged_outside
      (fun a => exists x, x ∈ l1 ++ l2 /\ x <= a < x + 16) (mem st) (mem st').
Proof.
  intros Hok Hv HL. set (idx := get_list_index (block_size st b)) in *.
  assert (idx < N_LISTS)%nat as Hidx by apply get_list_index_lt.
  pose proof (lo_dll _ _ Hok idx Hidx) as Hdll. rewrite HL in Hdll.
  apply dllseg_app in Hdll as (mid & Hd1 & Hd2).
  destruct Hd2 as (-> & Hb & Hpred & Hd2).
  pose proof (lo_nodup _ _ Hok idx) as Hnd. rewrite HL in Hnd.
  pose proof (bucket_aligned _ _ Hok idx) as Hal. rewrite HL in Hal.
  assert (forall x, x ∈ l1 ++ b :: l2 -> x ∈ Ls idx) as Hin by (intros x; rewrite HL; auto).
  destruct (member_valid _ _ Hok idx b) as (Hvb & Hvb8 & Hb16 & Hbr);
    [apply Hin, elem_of_app; right; left|].
  apply NoDup_app in Hnd as (Hnd1 & Hnd12 & Hnd2).
  apply NoDup_cons in Hnd2 as [Hbl2 Hnd2].
  apply Forall_app in Hal as [Hal1 Hal2]. apply Forall_cons in Hal2 as [_ Hal2].
  assert (NoDup (l1 ++ l2)) as Hnd'.
  { apply NoDup_app. repeat split; auto. intros x Hx1 Hx2.
    apply (Hnd12 x Hx1). right. exact Hx2. }
  assert (forall x, x ∈ l1 ++ l2 -> x ∈ Ls idx) as Hsub.
  { intros x Hx. apply Hin. apply elem_of_app in Hx as [Hx|Hx];
      apply elem_of_app; [left|right; right]; auto. }
  unfold remove_block. rewrite GET_SIZE_valid by auto. rewrite bind_Done.
  fold idx. unfold GET_PRED, GET_SUCC, PREV_FREE_BLKP, NEXT_FREE_BLKP, WSIZE.
  rewrite !GET_valid by auto. rewrite !bind_Done. rewrite Hpred.
  set (succ := load64 (mem st) (b + 8)) in *.
  pose proof (load64_range (mem st) (b + 8)) as Hsr. fold succ in Hsr.
  (* first step: detach from the predecessor *)
  assert (exists st1,
    (if last_or NULL l1 =? NULL then Done (seg_set st idx succ)
     else SET_SUCC st (last_or NULL l1) succ) = Done st1 /\
    same_region st st1 /\ length (seg_list st1) = N_LISTS /\
    (forall j, j <> idx -> seg_get st1 j = seg_get st j) /\
    unchanged_outside (fun a => exists x, x ∈ l1 ++ l2 /\ x <= a < x + 16) (mem st) (mem st1) /\
    dllseg (mem st1) NULL (seg_get st1 idx) l1 succ /\
    dllseg (mem st1) b succ l2 NULL) as (st1 & -> & Hsame1 & Hlen1 & Hseg1 & Hun1 & Hd1' & Hd2').
  { destruct l1 as [|x l1' _] using rev_ind.
    - simpl in Hd1. unfold last_or. simpl. eexists. split; [reflexivity|].
      split; [repeat split|].
      split; [unfold seg_set; simpl; rewrite length_insert; apply (lo_seg_len _ _ Hok)|].
      split; [intros j Hj; apply seg_get_set_ne; auto|].
      split; [apply unchanged_refl|].
      split; [simpl; apply seg_get_set_eq; rewrite (lo_seg_len _ _ Hok); exact Hidx|].
      exact Hd2.
    - rewrite last_or_app in *.
      assert (x ∈ Ls idx) as Hx by (apply Hin; rewrite <- app_assoc; apply elem_of_app; right; left).
      destruct (member_valid _ _ Hok idx x Hx) as (Hvx & Hvx8 & Hx16 & Hxr).
      assert (x <> NULL) as Hxnz.
      { eapply dllseg_nonnull; [exact Hd1|]. apply elem_of_app. right. left. }
      destruct (Z.eqb_spec x NULL) as [|_]; [contradiction|].
      unfold SET_SUCC, NEXT_FREE_BLKP, WSIZE. rewrite PUT_valid by auto.
      eexists. split; [reflexivity|].
      split; [repeat split|].
      split; [apply (lo_seg_len _ _ Hok)|].
      split; [reflexivity|].
      split.
      { apply unchanged_store64. intros a Ha. exists x. split; [|lia].
        apply elem_of_app. left. apply elem_of_app. right. left. }
      split.
      { simpl. eapply dllseg_set_next; eauto. }
      simpl. apply dllseg_store_succ; auto.
      intros Hxl2. apply (Hnd12 x); [apply elem_of_app; right; left|right; exact Hxl2]. }
  rewrite bind_Done.
  (* second step: detach from the successor *)
  assert (exists st2,
    (if negb (succ =? NULL) then SET_PRED st1 succ (last_or NULL l1) else Done st1) = Done st2 /\
    same_region st st2 /\ length (seg_list st2) = N_LISTS /\
    (forall j, j <> idx -> seg_get st2 j = seg_get st j) /\
    unchanged_outside (fun a => exists x, x ∈ l1 ++ l2 /\ x <= a < x + 16) (mem st) (mem st2) /\
    dllseg (mem st2) NULL (seg_get st2 idx) l1 succ /\
    dllseg (mem st2) (last_or NULL l1) succ l2 NULL) as (st2 & -> & Hsame2 & Hlen2 & Hseg2 & Hun2 & Hd1'' & Hd2'').
  { assert (0 <= last_or NULL l1 < 2 ^ 64) as Hpr.
    { rewrite <- Hpred. apply load64_range. }
    destruct l2 as [|x l2'].
    - simpl in Hd2'. destruct (Z.eqb_spec succ NULL) as [_|E]; [|contradiction].
      simpl. eexists. split; [reflexivity|].
      repeat split; try apply Hsame1; auto.
    - destruct Hd2' as (Hsx & Hxnz & Hd2').
      destruct (Z.eqb_spec succ NULL) as [E|_]; [congruence|]. simpl negb. cbv iota.
      assert (x ∈ Ls idx) as Hx by (apply Hin, elem_of_app; right; right; left).
      destruct (member_valid _ _ Hok idx x Hx) as (Hvx & Hvx8 & Hx16 & Hxr).
      unfold SET_PRED, PREV_FREE_BLKP. rewrite Hsx.
      rewrite PUT_valid by (rewrite (valid_word_same st st1); auto).
      eexists. split; [reflexivity|].
      split; [exact Hsame1|]. split; [exact Hlen1|]. split; [exact Hseg1|].
      split.
      { eapply unchanged_trans; [exact Hun1|]. apply unchanged_store64.
        intros a Ha. exists x. split; [|lia]. apply elem_of_app. right. left. }
      split.
      { simpl. apply dllseg_store_pred; auto.
        + rewrite <- Hsx. exact Hd1'.
        + intros Hxl1. apply (Hnd12 x Hxl1). right. left. }
      simpl mem. apply (dllseg_set_prev _ l2' b x NULL); auto.
      simpl. repeat split; auto; apply Hd2'. }
  eexists. split; [reflexivity|]. split; [|split; [exact Hsame2|exact Hun2]].
  eapply lists_ok_update; eauto.
  - apply dllseg_app. eauto.
  - intros x Hx. apply (lo_member _ _ Hok idx x). auto.
  - intros x j Hx Hj. eapply (lo_unique _ _ Hok); eauto.
Qed.

Lemma head_or_cons d x l : head_or d (x :: l) = x.
Proof. reflexivity. Qed.

(** The [while] loop of [insert_block] stops between a prefix of smaller
    blocks and the rest of the bucket. *)
Lemma insert_scan_lists st size L : forall fuel prev cur,
  dllseg (mem st) prev cur L NULL ->
  (forall x, x ∈ L -> valid_word st (x - 8) = true /\ valid_word st (x + 8) = true) ->
  (length L <= fuel)%nat ->
  exists l1 l2, L = l1 ++ l2 /\
    insert_scan fuel st size cur prev = Done (head_or NULL l2, last_or prev l1) /\
    Forall (fun x => block_size st x < size) l1 /\
    (forall x, head l2 = Some x -> size <= block_size st x).
Proof.
  induction L as [|b L IH]; intros fuel prev cur Hd Hv Hf.
  - simpl in Hd. subst cur. exists [], []. split; [reflexivity|].
    split; [destruct fuel; reflexivity|]. split; [constructor|]. intros x Hx. discriminate.
  - destruct Hd as (-> & Hb & Hp & Hd).
    destruct (Hv b ltac:(left)) as [Hv1 Hv2].
    assert (insert_scan fuel st size b prev =
            (if block_size st b <? size
             then match fuel with
                  | O => OutOfFuel
                  | S fuel' => insert_scan fuel' st size (load64 (mem st) (b + 8)) b
                  end
             else Done (b, prev))) as Heq.
    { destruct fuel; simpl; destruct (Z.eqb_spec b NULL); try contradiction;
        rewrite GET_SIZE_valid by auto; rewrite bind_Done; auto.
      unfold GET_SUCC, NEXT_FREE_BLKP, WSIZE. rewrite GET_valid by auto. reflexivity. }
    rewrite Heq. destruct (Z.ltb_spec (block_size st b) size) as [Hlt|Hge].
    + destruct fuel as [|fuel]; [simpl in Hf; lia|].
      destruct (IH fuel b (load64 (mem st) (b + 8)) Hd) as (l1 & l2 & -> & Hr & Hsm & Hhd).
      { intros x Hx. apply Hv. right. exact Hx. }
      { simpl in Hf. lia. }
      exists (b :: l1), l2. split; [reflexivity|]. rewrite last_or_cons.
      split; [exact Hr|]. split; [constructor; auto|exact Hhd].
    + exists [], (b :: L). split; [reflexivity|]. split; [reflexivity|].
      split; [constructor|]. intros x Hx. injection Hx as <-. lia.
Qed.

Lemma insert_block_lists st Ls b fuel :
  lists_ok st Ls ->
  b mod 16 = 0 -> mem_start_brk st + 8 <= b -> b + 16 <= mem_brk st ->
  (forall i, b ∉ Ls i) ->
  (length (Ls (get_list_index (block_size st b))) <= fuel)%nat ->
  exists st' l1 l2, insert_block fuel st b = Done st' /\
    Ls (get_list_index (block_size st b)) = l1 ++ l2 /\
    lists_ok st' (<[get_list_index (block_size st b) := l1 ++ b :: l2]> Ls) /\
    same_region st st' /\
    unchanged_outside
      (fun a => exists x, x ∈ l1 ++ b :: l2 /\ x <= a < x + 16) (mem st) (mem st') /\
    Forall (fun x => block_size st x < block_size st b) l1 /\
    (forall x, head l2 = Some x -> block_size st b <= block_size st x).
Proof.
  intros Hok Hb16 Hblo Hbhi Hfresh Hfuel.
  set (idx := get_list_index (block_size st b)) in *.
  assert (idx < N_LISTS)%nat as Hidx by apply get_list_index_lt.
  pose proof (lo_brk _ _ Hok) as Hbrk. pose proof (lo_start _ _ Hok) as Hstart.
  assert (valid_word st (b - 8) = true /\ valid_word st b = true /\
          valid_word st (b + 8) = true) as (Hvh & Hvb & Hvb8)
    by (rewrite !valid_word_iff; lia).
  assert (b <> NULL) as Hbnz by (unfold NULL; lia).
  assert (0 <= b < 2 ^ 64) as Hbr by lia.
  pose proof (lo_dll _ _ Hok idx Hidx) as Hdll.
  destruct (insert_scan_lists st (block_size st b) (Ls idx) fuel NULL (seg_get st idx) Hdll)
    as (l1 & l2 & HL & Hscan & Hlt & Hge); [|exact Hfuel|].
  { intros x Hx. destruct (lo_member _ _ Hok idx x Hx) as (? & ? & ?).
    rewrite !valid_word_iff. lia. }
  rewrite HL in Hdll. apply dllseg_app in Hdll as (mid & Hd1 & Hd2).
  pose proof (dllseg_head _ _ _ _ _ Hd2) as Hmid. subst mid.
  set (curr := head_or NULL l2) in *. set (prev := last_or NULL l1) in *.
  pose proof (lo_nodup _ _ Hok idx) as Hnd. rewrite HL in Hnd.
  pose proof (bucket_aligned _ _ Hok idx) as Hal. rewrite HL in Hal.
  assert (forall x, x ∈ l1 ++ l2 -> x ∈ Ls idx) as Hin by (intros x; rewrite HL; auto).
  apply NoDup_app in Hnd as (Hnd1 & Hnd12 & Hnd2).
  apply Forall_app in Hal as [Hal1 Hal2].
  assert ((b ∉ l1) /\ (b ∉ l2)) as [Hbl1 Hbl2].
  { split; intros Hx; apply (Hfresh idx), Hin, elem_of_app; auto. }
  assert (0 <= prev < 2 ^ 64) as Hpr.
  { unfold prev. destruct l1 as [|x l1' _] using rev_ind; [unfold last_or, NULL; simpl; lia|].
    rewrite last_or_app.
    destruct (member_valid _ _ Hok idx x) as (_ & _ & _ & Hxr); [|exact Hxr].
    apply Hin. rewrite <- app_assoc. apply elem_of_app. right. left. }
  assert (0 <= curr < 2 ^ 64) as Hcr.
  { unfold curr. destruct l2 as [|x l2']; [unfold head_or, NULL; simpl; lia|].
    rewrite head_or_cons.
    destruct (member_valid _ _ Hok idx x) as (_ & _ & _ & Hxr); [|exact Hxr].
    apply Hin. apply elem_of_app. right. left. }
  unfold insert_block. rewrite GET_SIZE_valid by auto. rewrite bind_Done.
  fold idx. rewrite Hscan, bind_Done.
  unfold SET_SUCC, SET_PRED, NEXT_FREE_BLKP, PREV_FREE_BLKP, WSIZE.
  rewrite PUT_valid by auto. rewrite bind_Done.
  rewrite PUT_valid by auto. rewrite bind_Done.
  set (m2 := store64 (store64 (mem st) (b + 8) curr) b prev).
  set (st2 := set_mem (set_mem st (store64 (mem st) (b + 8) curr)) m2).
  match goal with |- context [PUT ?s curr b] => change s with st2 end.
  pose (D := fun a => exists x, x ∈ l1 ++ b :: l2 /\ x <= a < x + 16).
  assert (forall x, x ∈ l1 ++ b :: l2 ->
          forall m v, unchanged_outside D m (store64 m x v)) as Hst0.
  { intros x Hx m v. apply unchanged_store64. intros a Ha. exists x. split; [auto|lia]. }
  assert (forall x, x ∈ l1 ++ b :: l2 ->
          forall m v, unchanged_outside D m (store64 m (x + 8) v)) as Hst8.
  { intros x Hx m v. apply unchanged_store64. intros a Ha. exists x. split; [auto|lia]. }
  assert (b ∈ l1 ++ b :: l2) as Hbin by (apply elem_of_app; right; left).
  assert (unchanged_outside D (mem st) m2) as Hun2.
  { unfold m2. eapply unchanged_trans; [apply (Hst8 b); auto|]. apply (Hst0 b); auto. }
  assert (load64 m2 b = prev) as Hlb.
  { unfold m2. rewrite load64_store64_eq. apply Z.mod_small. exact Hpr. }
  assert (load64 m2 (b + 8) = curr) as Hlb8.
  { unfold m2. rewrite load64_store64_ne by lia_mod.
    rewrite load64_store64_eq. apply Z.mod_small. exact Hcr. }
  assert (dllseg m2 NULL (seg_get st idx) l1 curr) as Hd1_2.
  { unfold m2. apply dllseg_store_pred; auto. apply dllseg_store_succ; auto. }
  assert (dllseg m2 prev curr l2 NULL) as Hd2_2.
  { unfold m2. apply dllseg_store_pred; auto. apply dllseg_store_succ; auto. }
  (* third step: the successor points back to [b] *)
  assert (exists st3,
    (if negb (curr =? NULL) then PUT st2 curr b else Done st2) = Done st3 /\
    same_region st st3 /\ seg_list st3 = seg_list st /\
    unchanged_outside D (mem st) (mem st3) /\
    load64 (mem st3) b = prev /\ load64 (mem st3) (b + 8) = curr /\
    dllseg (mem st3) NULL (seg_get st idx) l1 curr /\
    dllseg (mem st3) b curr l2 NULL)
    as (st3 & -> & Hsame3 & Hseg3 & Hun3 & Hlb3 & Hlb83 & Hd1_3 & Hd2_3).
  { destruct l2 as [|x l2'].
    - unfold curr, head_or. simpl. eexists. split; [reflexivity|].
      repeat split; auto.
    - unfold curr in *. rewrite head_or_cons in *.
      assert (x ∈ Ls idx) as Hx by (apply Hin, elem_of_app; right; left).
      destruct (member_valid _ _ Hok idx x Hx) as (Hvx & Hvx8 & Hx16 & Hxr).
      assert (x <> NULL) as Hxnz by (apply Hd2_2).
      assert (x <> b) as Hxb by (intros ->; apply Hbl2; left).
      destruct (Z.eqb_spec x NULL) as [|_]; [contradiction|]. simpl negb. cbv iota.
      rewrite PUT_valid by auto.
      eexists. split; [reflexivity|].
      split; [repeat split|]. split; [reflexivity|].
      split.
      { eapply unchanged_trans; [exact Hun2|].
        apply (Hst0 x); auto. apply elem_of_app. right. right. left. }
      simpl mem. rewrite !load64_store64_ne by lia_mod.
      split; [exact Hlb|]. split; [exact Hlb8|].
      split.
      { apply dllseg_store_pred; auto.
        intros Hxl1. apply (Hnd12 x Hxl1). left. }
      apply (dllseg_set_prev _ l2' prev x NULL); auto. }
  rewrite bind_Done.
  (* fourth step: the predecessor, or the bucket head, points to [b] *)
  assert (exists st4,
    (if negb (prev =? NULL) then PUT st3 (prev + 8) b else Done (seg_set st3 idx b)) = Done st4 /\
    same_region st st4 /\ length (seg_list st4) = N_LISTS /\
    (forall j, j <> idx -> seg_get st4 j = seg_get st j) /\
    unchanged_outside D (mem st) (mem st4) /\
    load64 (mem st4) b = prev /\ load64 (mem st4) (b + 8) = curr /\
    dllseg (mem st4) NULL (seg_get st4 idx) l1 b /\
    dllseg (mem st4) b curr l2 NULL)
    as (st4 & -> & Hsame4 & Hlen4 & Hseg4 & Hun4 & Hlb4 & Hlb84 & Hd1_4 & Hd2_4).
  { destruct l1 as [|x l1' _] using rev_ind.
    - unfold prev, last_or. simpl. eexists. split; [reflexivity|].
      split; [destruct Hsame3 as (?&?&?&?); repeat split; auto|].
      split; [unfold seg_set; simpl; rewrite length_insert, Hseg3; apply (lo_seg_len _ _ Hok)|].
      split.
      { intros j Hj. rewrite seg_get_set_ne by auto. unfold seg_get. rewrite Hseg3. reflexivity. }
      split; [exact Hun3|]. split; [exact Hlb3|]. split; [exact Hlb83|].
      split; [|exact Hd2_3].
      simpl. apply seg_get_set_eq. rewrite Hseg3, (lo_seg_len _ _ Hok). exact Hidx.
    - unfold prev in *. rewrite last_or_app in *.
      assert (x ∈ Ls idx) as Hx by (apply Hin; rewrite <- app_assoc; apply elem_of_app; right; left).
      destruct (member_valid _ _ Hok idx x Hx) as (Hvx & Hvx8 & Hx16 & Hxr).
      assert (x <> NULL) as Hxnz.
      { eapply dllseg_nonnull; [exact Hd1|]. apply elem_of_app. right. left. }
      assert (x <> b) as Hxb by (intros ->; apply Hbl1, elem_of_app; right; left).
      destruct (Z.eqb_spec x NULL) as [|_]; [contradiction|]. simpl negb. cbv iota.
      rewrite PUT_valid by (rewrite (valid_word_same st st3); auto).
      eexists. split; [reflexivity|].
      split; [exact Hsame3|].
      split; [simpl; rewrite Hseg3; apply (lo_seg_len _ _ Hok)|].
      split; [intros j Hj; unfold seg_get; simpl; rewrite Hseg3; reflexivity|].
      split.
      { eapply unchanged_trans; [exact Hun3|]. apply (Hst8 x); auto.
        rewrite <- app_assoc. apply elem_of_app. right. left. }
      simpl mem. rewrite !load64_store64_ne by lia_mod.
      split; [exact Hlb3|]. split; [exact Hlb83|].
      split.
      { unfold seg_get. simpl seg_list. rewrite Hseg3.
        eapply dllseg_set_next; eauto. }
      apply dllseg_store_succ; auto.
      intros Hxl2. apply (Hnd12 x); [apply elem_of_app; right; left|exact Hxl2]. }
  exists st4, l1, l2. split; [reflexivity|]. split; [exact HL|].
  split; [|split; [exact Hsame4|]; split; [exact Hun4|]; split; [exact Hlt|exact Hge]].
  eapply lists_ok_update; eauto.
  - apply dllseg_app. exists b. split; [exact Hd1_4|].
    simpl. fold prev. rewrite Hlb84. auto.
  - apply NoDup_app. repeat split; auto.
    + intros x Hx1 Hx2. apply elem_of_cons in Hx2 as [->|Hx2]; [contradiction|].
      apply (Hnd12 x); auto.
    + apply NoDup_cons. auto.
  - intros x Hx. apply elem_of_app in Hx as [Hx|Hx];
      [|apply elem_of_cons in Hx as [->|Hx]]; auto;
      apply (lo_member _ _ Hok idx x), Hin, elem_of_app; auto.
  - intros x j Hx Hj. apply elem_of_app in Hx as [Hx|Hx];
      [|apply elem_of_cons in Hx as [->|Hx]].
    + eapply (lo_unique _ _ Hok); eauto. apply Hin, elem_of_app. auto.
    + exfalso. apply (Hfresh j Hj).
    + eapply (lo_unique _ _ Hok); eauto. apply Hin, elem_of_app. auto.
Qed.

(** * The block sequence *)

Arguments total : simpl never.

Lemma total_nil : total [] = 0.
Proof. reflexivity. Qed.

Lemma total_app l1 l2 : total (l1 ++ l2) = total l1 + total l2.
Proof. induction l1 as [|b l1 IH]; simpl; [reflexivity|]. unfold total in *. simpl in *. lia. Qed.

Lemma total_cons b l : total (b :: l) = fst b + total l.
Proof. reflexivity. Qed.

Lemma total_nonneg bl : sizes_ok bl -> 0 <= total bl.
Proof.
  induction 1 as [|b bl [Hb _] _ IH]; [unfold total; simpl; lia|].
  rewrite total_cons. lia.
Qed.

Lemma sizes_ok_app l1 l2 : sizes_ok (l1 ++ l2) <-> sizes_ok l1 /\ sizes_ok l2.
Proof. apply Forall_app. Qed.

Lemma sizes_ok_cons b l :
  sizes_ok (b :: l) <-> (32 <= fst b /\ fst b mod 16 = 0) /\ sizes_ok l.
Proof. unfold sizes_ok. rewrite Forall_cons. reflexivity. Qed.

Lemma total_mod16 bl : sizes_ok bl -> total bl mod 16 = 0.
Proof.
  induction 1 as [|b bl [_ Hb] _ IH]; [reflexivity|].
  rewrite total_cons. lia_mod.
Qed.

Lemma layout_app l1 : forall p l2,
  layout p (l1 ++ l2) = layout p l1 ++ layout (p + total l1) l2.
Proof.
  induction l1 as [|b l1 IH]; intros p l2; simpl.
  - f_equal. unfold total; simpl; lia.
  - rewrite IH. rewrite total_cons. do 3 f_equal. lia.
Qed.

Lemma length_layout bl : forall p, length (layout p bl) = length bl.
Proof. induction bl; simpl; intros; auto. Qed.

Lemma layout_elem bl : forall p x b,
  (x, b) ∈ layout p bl <-> exists l1 l2, bl = l1 ++ b :: l2 /\ x = p + total l1.
Proof.
  induction bl as [|c bl IH]; intros p x b; simpl.
  - split; [intros H; inversion H|]. intros (l1 & l2 & H & _). destruct l1; discriminate.
  - rewrite elem_of_cons, IH. split.
    + intros [H|(l1 & l2 & -> & ->)].
      * injection H as -> ->. exists [], bl. split; [reflexivity|]. unfold total; simpl; lia.
      * exists (c :: l1), l2. split; [reflexivity|]. rewrite total_cons. lia.
    + intros (l1 & l2 & H & ->). destruct l1 as [|c' l1]; simpl in H.
      * injection H as -> ->. left. f_equal. unfold total; simpl; lia.
      * injection H as -> ->. right. exists l1, l2. split; [reflexivity|].
        rewrite total_cons. lia.
Qed.

Lemma layout_mid p l1 b l2 : (p + total l1, b) ∈ layout p (l1 ++ b :: l2).
Proof. apply layout_elem. eauto. Qed.

Lemma layout_bounds bl : forall p x b,
  sizes_ok bl -> (x, b) ∈ layout p bl -> p <= x /\ x + fst b <= p + total bl.
Proof.
  intros p x b Hs Hx. apply layout_elem in Hx as (l1 & l2 & -> & ->).
  apply sizes_ok_app in Hs as [H1 H2]. apply sizes_ok_cons in H2 as [Hb H2].
  rewrite total_app, total_cons.
  pose proof (total_nonneg _ H1). pose proof (total_nonneg _ H2). lia.
Qed.

Lemma layout_sizes bl p x b :
  sizes_ok bl -> (x, b) ∈ layout p bl -> 32 <= fst b /\ fst b mod 16 = 0.
Proof.
  intros Hs Hx. apply layout_elem in Hx as (l1 & l2 & -> & ->).
  apply sizes_ok_app in Hs as [_ H2]. apply sizes_ok_cons in H2 as [Hb _]. exact Hb.
Qed.

Lemma layout_aligned bl p x b :
  sizes_ok bl -> p mod 16 = 0 -> (x, b) ∈ layout p bl -> x mod 16 = 0.
Proof.
  intros Hs Hp Hx. apply layout_elem in Hx as (l1 & l2 & -> & ->).
  apply sizes_ok_app in Hs as [H1 _]. pose proof (total_mod16 _ H1). lia_mod.
Qed.

(** Two blocks of the layout are the same block or do not overlap. *)
Lemma layout_sep bl : forall p x b y c,
  sizes_ok bl -> (x, b) ∈ layout p bl -> (y, c) ∈ layout p bl ->
  (x = y /\ b = c) \/ x + fst b <= y \/ y + fst c <= x.
Proof.
  induction bl as [|d bl IH]; intros p x b y c Hs Hx Hy; simpl in *; [inversion Hx|].
  apply sizes_ok_cons in Hs as [Hd Hs].
  apply elem_of_cons in Hx as [Hx|Hx]; apply elem_of_cons in Hy as [Hy|Hy].
  - injection Hx as -> ->. injection Hy as -> ->. auto.
  - injection Hx as -> ->. apply layout_bounds in Hy; auto. lia.
  - injection Hy as -> ->. apply layout_bounds in Hx; auto. lia.
  - eauto.
Qed.

Lemma layout_unique bl p x b c :
  sizes_ok bl -> (x, b) ∈ layout p bl -> (x, c) ∈ layout p bl -> b = c.
Proof.
  intros Hs Hb Hc. destruct (layout_sep bl p x b x c Hs Hb Hc) as [[_ H]|H]; [exact H|].
  apply (layout_sizes _ _ _ _ Hs) in Hb, Hc. lia.
Qed.

Lemma blocks_at_app m l1 : forall p l2,
  blocks_at m p (l1 ++ l2) <-> blocks_at m p l1 /\ blocks_at m (p + total l1) l2.
Proof.
  induction l1 as [|b l1 IH]; intros p l2; simpl.
  - replace (p + total []) with p by (unfold total; simpl; lia). tauto.
  - rewrite IH, total_cons. replace (p + fst b + total l1) with (p + (fst b + total l1)) by lia.
    tauto.
Qed.

Lemma blocks_at_elem m bl : forall p x b,
  blocks_at m p bl -> (x, b) ∈ layout p bl ->
  load64 m (x - 8) = tag b /\ load64 m (x + fst b - 16) = tag b.
Proof.
  intros p x b H Hx. apply layout_elem in Hx as (l1 & l2 & -> & ->).
  apply blocks_at_app in H as [_ H]. simpl in H. tauto.
Qed.

Lemma blocks_at_intro m bl : forall p,
  (forall x b, (x, b) ∈ layout p bl ->
     load64 m (x - 8) = tag b /\ load64 m (x + fst b - 16) = tag b) ->
  blocks_at m p bl.
Proof.
  induction bl as [|b bl IH]; intros p H; simpl; [auto|].
  destruct (H p b) as [H1 H2]; [left|].
  repeat split; auto. apply IH. intros x c Hx. apply H. right. exact Hx.
Qed.

(** A change of memory away from all tag words keeps the block sequence. *)
Lemma blocks_at_unchanged D m m' bl p :
  unchanged_outside D m m' ->
  (forall x b a, (x, b) ∈ layout p bl ->
     x - 8 <= a < x \/ x + fst b - 16 <= a < x + fst b - 8 -> ~ D a) ->
  blocks_at m p bl -> blocks_at m' p bl.
Proof.
  intros Hun HD H. apply blocks_at_intro. intros x b Hx.
  destruct (blocks_at_elem _ _ _ _ _ H Hx) as [H1 H2].
  split; [rewrite <- H1|rewrite <- H2];
    apply (load64_unchanged _ _ _ _ Hun); intros a Ha; apply (HD x b a Hx); lia.
Qed.

(** ** Tags *)

Lemma tag_add b : fst b mod 16 = 0 -> tag b = fst b + (if snd b then 1 else 0).
Proof. intros H. unfold tag. apply PACK_add; auto. destruct (snd b); lia. Qed.

Lemma tag_size_of b :
  0 <= fst b -> fst b mod 16 = 0 -> fst b < 2 ^ 64 -> Z.land (tag b) MASK_F = fst b.
Proof.
  intros H0 H16 Hlt. rewrite tag_add by auto.
  apply tag_size; auto; destruct (snd b); lia_mod.
Qed.

Lemma tag_alloc_of b :
  fst b mod 16 = 0 -> Z.land (tag b) 1 = if snd b then 1 else 0.
Proof.
  intros H16. rewrite tag_add by auto. apply tag_alloc; auto. destruct (snd b); lia.
Qed.

Lemma tag_range b :
  0 <= fst b -> fst b mod 16 = 0 -> fst b < 2 ^ 64 -> 0 <= tag b < 2 ^ 64.
Proof. intros. rewrite tag_add by auto. destruct (snd b); lia_mod. Qed.

(** ** Where the words of the heap lie *)

Section Layout.
Variables (p0 : Z) (bl : list block).
Hypothesis Hs : sizes_ok bl.

Lemma tag_not_free_link x b a :
  (x, b) ∈ layout p0 bl ->
  x - 8 <= a < x \/ x + fst b - 16 <= a < x + fst b - 8 ->
  ~ free_links p0 bl a.
Proof.
  intros Hx Ha (y & s & Hy & Hya).
  pose proof (layout_sizes _ _ _ _ Hs Hx). pose proof (layout_sizes _ _ _ _ Hs Hy).
  destruct (layout_sep _ _ _ _ _ _ Hs Hx Hy) as [[-> ->]|H']; simpl in *; lia.
Qed.

Lemma alloc_payload_not_free_link a :
  alloc_payload p0 bl a -> ~ free_links p0 bl a.
Proof.
  intros (x & s & Hx & Hxa) (y & s' & Hy & Hya).
  pose proof (layout_sizes _ _ _ _ Hs Hx). pose proof (layout_sizes _ _ _ _ Hs Hy).
  destruct (layout_sep _ _ _ _ _ _ Hs Hx Hy) as [[_ H']|H']; [discriminate|].
  simpl in *. lia.
Qed.

End Layout.

(** * The table and the block sequence together *)

Lemma first_block_same st st' : same_region st st' -> first_block st' = first_block st.
Proof. intros (H & _). unfold first_block. rewrite H. reflexivity. Qed.

Section BlockFacts.
Variables (st : state) (bl : list block).
Hypothesis Hok : heap_ok st bl.

Lemma first_block_aligned : first_block st mod 16 = 0.
Proof. pose proof (ok_base_aligned _ _ Hok). unfold first_block. lia_mod. Qed.

Lemma heap_brk_bound : first_block st <= mem_brk st /\ mem_brk st < 2 ^ 64.
Proof.
  pose proof (ok_brk _ _ Hok). pose proof (total_nonneg _ (ok_sizes _ _ Hok)).
  pose proof (ok_max _ _ Hok). unfold SIZE_MAX, SIZE_MOD in *. lia.
Qed.

Lemma block_facts x b :
  (x, b) ∈ layout (first_block st) bl ->
  first_block st <= x /\ x + fst b <= mem_brk st /\ x mod 16 = 0 /\
  32 <= fst b /\ fst b mod 16 = 0 /\
  load64 (mem st) (x - 8) = tag b /\ load64 (mem st) (x + fst b - 16) = tag b /\
  block_size st x = fst b.
Proof.
  intros Hx. pose proof (ok_sizes _ _ Hok) as Hs.
  destruct (layout_bounds _ _ _ _ Hs Hx) as [Hlo Hhi].
  destruct (layout_sizes _ _ _ _ Hs Hx) as [H32 H16].
  destruct (blocks_at_elem _ _ _ _ _ (ok_blocks _ _ Hok) Hx) as [Hh Hf].
  pose proof heap_brk_bound as [_ Hb]. rewrite <- (ok_brk _ _ Hok) in Hhi.
  repeat split; auto.
  - apply (layout_aligned bl (first_block st) x b Hs first_block_aligned Hx).
  - unfold block_size. rewrite Hh. pose proof (ok_base_pos _ _ Hok).
    apply tag_size_of; auto; unfold first_block in *; lia.
Qed.

Lemma block_valid x b o :
  (x, b) ∈ layout (first_block st) bl -> -8 <= o -> o + 8 <= fst b ->
  valid_word st (x + o) = true.
Proof.
  intros Hx Ho1 Ho2. destruct (block_facts x b Hx) as (H1 & H2 & _).
  apply valid_word_iff. unfold first_block in *. pose proof (ok_base_pos _ _ Hok). lia.
Qed.

Lemma free_links_in_heap a :
  free_links (first_block st) bl a -> first_block st <= a < mem_brk st - 16.
Proof.
  intros (x & s & Hx & Ha). destruct (block_facts _ _ Hx) as (H1 & H2 & _ & H3 & _).
  simpl in *. lia.
Qed.

(** Rewriting link words of free blocks keeps the block sequence. *)
Lemma heap_ok_unchanged st' (D : Z -> Prop) :
  same_region st st' ->
  unchanged_outside D (mem st) (mem st') ->
  (forall a, D a -> free_links (first_block st) bl a) ->
  heap_ok st' bl.
Proof.
  intros Hsame Hun HD. pose proof (first_block_same _ _ Hsame) as Hfb.
  destruct Hsame as (Hs1 & Hs2 & Hs3 & Hs4).
  assert (forall q, q + 8 <= first_block st \/ mem_brk st - 16 <= q ->
          load64 (mem st') q = load64 (mem st) q) as Hout.
  { intros q Hq. apply (load64_unchanged _ _ _ _ Hun). intros a Ha HDa.
    apply HD, free_links_in_heap in HDa. lia. }
  destruct Hok. constructor; rewrite ?Hs1, ?Hs2, ?Hs3, ?Hs4, ?Hfb; auto.
  - rewrite Hout; auto. unfold first_block. lia.
  - rewrite Hout; auto. unfold first_block. lia.
  - eapply blocks_at_unchanged; [exact Hun| |eauto].
    intros x b a Hx Ha HDa. apply HD in HDa.
    eapply tag_not_free_link; eauto.
  - rewrite Hout; auto. lia.
Qed.

End BlockFacts.

Section TableFacts.
Variables (st : state) (bl : list block) (Ls : nat -> list Z) (X : Z -> Prop).
Hypothesis Hok : heap_ok st bl.
Hypothesis Hlists : lists_ok st Ls.
Hypothesis Htm : table_matches st bl Ls X.

Lemma member_free i x :
  x ∈ Ls i -> exists s, (x, (s, false)) ∈ layout (first_block st) bl /\
                        get_list_index s = i /\ ~ X x.
Proof. intros Hx. destruct (tm_sound _ _ _ _ Htm i x Hx) as (HX & s & Hs & Hi). eauto. Qed.

Lemma member_links i x a : x ∈ Ls i -> x <= a < x + 16 -> free_links (first_block st) bl a.
Proof. intros Hx Ha. destruct (member_free i x Hx) as (s & Hs & _). exists x, s. auto. Qed.

(** A bucket is no longer than the block sequence. *)
Lemma bucket_length i : (length (Ls i) <= length bl)%nat.
Proof.
  rewrite <- (length_layout bl (first_block st)).
  rewrite <- (length_fmap fst (layout (first_block st) bl)).
  apply submseteq_length, NoDup_submseteq; [apply (lo_nodup _ _ Hlists)|].
  intros x Hx. destruct (member_free i x Hx) as (s & Hs & _).
  apply list_elem_of_fmap. exists (x, (s, false)). auto.
Qed.

(** ... and shorter when a free block is out of the table. *)
Lemma bucket_length_lt i x s :
  (x, (s, false)) ∈ layout (first_block st) bl -> X x ->
  (length (Ls i) < length bl)%nat.
Proof.
  intros Hx HX.
  rewrite <- (length_layout bl (first_block st)).
  rewrite <- (length_fmap fst (layout (first_block st) bl)).
  enough (length (x :: Ls i) <= length (layout (first_block st) bl).*1)%nat
    by (simpl in *; lia).
  apply submseteq_length, NoDup_submseteq.
  - apply NoDup_cons. split; [|apply (lo_nodup _ _ Hlists)].
    intros Hxi. destruct (member_free i x Hxi) as (_ & _ & _ & HnX). contradiction.
  - intros y Hy. apply elem_of_cons in Hy as [->|Hy].
    + apply list_elem_of_fmap. exists (x, (s, false)). auto.
    + destruct (member_free i y Hy) as (s' & Hs & _).
      apply list_elem_of_fmap. exists (y, (s', false)). auto.
Qed.

Lemma table_matches_ext (X' : Z -> Prop) :
  (forall x, X x <-> X' x) -> table_matches st bl Ls X'.
Proof.
  intros HXX. destruct Htm as [Hsound Hcomplete]. constructor.
  - intros i x Hx. destruct (Hsound i x Hx) as [HnX Hfree]. rewrite <- HXX. auto.
  - intros x s Hx HnX. apply (Hcomplete x s Hx). rewrite HXX. exact HnX.
Qed.

End TableFacts.

Lemma remove_block_heap st bl Ls X x s :
  heap_ok st bl -> lists_ok st Ls -> table_matches st bl Ls X ->
  (x, (s, false)) ∈ layout (first_block st) bl -> ~ X x ->
  exists st' la lb, remove_block st x = Done st' /\
    Ls (get_list_index s) = la ++ x :: lb /\
    heap_ok st' bl /\ lists_ok st' (<[get_list_index s := la ++ lb]> Ls) /\
    table_matches st' bl (<[get_list_index s := la ++ lb]> Ls) (fun y => y = x \/ X y) /\
    same_region st st' /\
    unchanged_outside (free_links (first_block st) bl) (mem st) (mem st').
Proof.
  intros Hok Hlists Htm Hx HX.
  destruct (block_facts _ _ Hok _ _ Hx) as (Hlo & Hhi & Hx16 & Hs32 & Hs16 & Hh & Hf & Hbs).
  simpl in *.
  pose proof (tm_complete _ _ _ _ Htm x s Hx HX) as Hin.
  destruct (list_elem_of_split _ _ Hin) as (l1 & l2 & HL).
  rewrite <- Hbs in HL.
  destruct (remove_block_lists st Ls x l1 l2 Hlists) as (st' & Hrun & Hlists' & Hsame & Hun); auto.
  { replace (x - 8) with (x + -8) by lia. eapply block_valid; eauto; simpl; lia. }
  rewrite Hbs in *. set (idx := get_list_index s) in *.
  assert (unchanged_outside (free_links (first_block st) bl) (mem st) (mem st')) as Hun'.
  { eapply unchanged_weaken; [|exact Hun]. intros a (y & Hy & Ha).
    eapply (member_links st bl Ls X Htm idx y); auto.
    rewrite HL. apply elem_of_app in Hy as [Hy|Hy]; apply elem_of_app; [left|right; right]; auto. }
  exists st', l1, l2. split; [exact Hrun|]. split; [exact HL|].
  split; [eapply heap_ok_unchanged; eauto|].
  split; [exact Hlists'|]. split; [|split; [exact Hsame|exact Hun']].
  pose proof (lo_nodup _ _ Hlists idx) as Hnd. rewrite HL in Hnd.
  apply NoDup_app in Hnd as (_ & Hnd12 & Hnd2). apply NoDup_cons in Hnd2 as [Hxl2 _].
  constructor; rewrite (first_block_same _ _ Hsame).
  - intros i y Hy.
    assert (y ∈ Ls i /\ y <> x) as [Hy' Hne].
    { destruct (decide (i = idx)) as [->|Hi].
      - rewrite fn_lookup_insert in Hy. split.
        + rewrite HL. apply elem_of_app in Hy as [Hy|Hy]; apply elem_of_app; [left|right; right]; auto.
        + intros ->. apply elem_of_app in Hy as [Hy|Hy]; [apply (Hnd12 x Hy); left|contradiction].
      - rewrite fn_lookup_insert_ne in Hy by auto. split; [exact Hy|].
        intros ->. apply Hi. eapply (lo_unique _ _ Hlists); eauto. }
    destruct (tm_sound _ _ _ _ Htm i y Hy') as (HXy & Hfree). split; [tauto|exact Hfree].
  - intros y s' Hy HXy.
    assert (y ∈ Ls (get_list_index s')) as Hy' by (eapply (tm_complete _ _ _ _ Htm); eauto).
    destruct (decide (get_list_index s' = idx)) as [E|Hi].
    + rewrite E in *. rewrite fn_lookup_insert. rewrite HL in Hy'.
      apply elem_of_app in Hy' as [Hy'|Hy']; [apply elem_of_app; left; exact Hy'|].
      apply elem_of_cons in Hy' as [->|Hy']; [tauto|]. apply elem_of_app. right. exact Hy'.
    + rewrite fn_lookup_insert_ne by auto. exact Hy'.
Qed.

Lemma insert_block_heap st bl Ls (X : Z -> Prop) x s fuel :
  heap_ok st bl -> lists_ok st Ls -> table_matches st bl Ls X ->
  (x, (s, false)) ∈ layout (first_block st) bl -> X x ->
  (length bl <= S fuel)%nat ->
  exists st' la lb, insert_block fuel st x = Done st' /\
    Ls (get_list_index s) = la ++ lb /\
    heap_ok st' bl /\ lists_ok st' (<[get_list_index s := la ++ x :: lb]> Ls) /\
    table_matches st' bl (<[get_list_index s := la ++ x :: lb]> Ls) (fun y => X y /\ y <> x) /\
    same_region st st' /\
    unchanged_outside (free_links (first_block st) bl) (mem st) (mem st') /\
    Forall (fun y => block_size st y < s) la /\
    (forall y, head lb = Some y -> s <= block_size st y).
Proof.
  intros Hok Hlists Htm Hx HX Hfuel.
  destruct (block_facts _ _ Hok _ _ Hx) as (Hlo & Hhi & Hx16 & Hs32 & Hs16 & Hh & Hf & Hbs).
  simpl in *. unfold first_block in Hlo.
  assert (forall i, x ∉ Ls i) as Hfresh.
  { intros i Hxi. destruct (tm_sound _ _ _ _ Htm i x Hxi) as [HnX _]. contradiction. }
  destruct (insert_block_lists st Ls x fuel Hlists)
    as (st' & l1 & l2 & Hrun & HL & Hlists' & Hsame & Hun & Hlt & Hge);
    auto; try lia.
  { pose proof (bucket_length_lt st bl Ls X Hlists Htm (get_list_index (block_size st x)) x s Hx HX).
    lia. }
  rewrite Hbs in *. set (idx := get_list_index s) in *.
  assert (forall y, y ∈ l1 ++ x :: l2 -> y = x \/ y ∈ Ls idx) as Hmem.
  { intros y Hy. rewrite HL. apply elem_of_app in Hy as [Hy|Hy];
      [|apply elem_of_cons in Hy as [->|Hy]]; auto; right; apply elem_of_app; auto. }
  assert (unchanged_outside (free_links (first_block st) bl) (mem st) (mem st')) as Hun'.
  { eapply unchanged_weaken; [|exact Hun]. intros a (y & Hy & Ha).
    destruct (Hmem y Hy) as [->|Hy']; [exists x, s; auto|].
    eapply (member_links st bl Ls X Htm idx y); auto. }
  exists st', l1, l2. split; [exact Hrun|]. split; [exact HL|].
  split; [eapply heap_ok_unchanged; eauto|].
  split; [exact Hlists'|].
  split; [|split; [exact Hsame|]; split; [exact Hun'|]; split; [exact Hlt|exact Hge]].
  constructor; rewrite (first_block_same _ _ Hsame).
  - intros i y Hy.
    destruct (decide (i = idx)) as [->|Hi].
    + rewrite fn_lookup_insert in Hy. destruct (Hmem y Hy) as [->|Hy'].
      * split; [tauto|]. exists s. auto.
      * destruct (tm_sound _ _ _ _ Htm idx y Hy') as (HXy & Hfree). split; [tauto|exact Hfree].
    + rewrite fn_lookup_insert_ne in Hy by auto.
      destruct (tm_sound _ _ _ _ Htm i y Hy) as (HXy & Hfree). split; [tauto|exact Hfree].
  - intros y s' Hy HXy.
    destruct (decide (y = x)) as [->|Hne].
    + pose proof (layout_unique _ _ _ _ _ (ok_sizes _ _ Hok) Hx Hy) as E.
      injection E as <-. fold idx. rewrite fn_lookup_insert.
      apply elem_of_app. right. left.
    + assert (y ∈ Ls (get_list_index s')) as Hy'.
      { eapply (tm_complete _ _ _ _ Htm); [exact Hy|tauto]. }
      destruct (decide (get_list_index s' = idx)) as [E|Hi].
      * rewrite E in *. rewrite fn_lookup_insert. rewrite HL in Hy'.
        apply elem_of_app in Hy' as [Hy'|Hy']; apply elem_of_app; [left|right; right]; auto.
      * rewrite fn_lookup_insert_ne by auto. exact Hy'.
Qed.

(** * Rewriting the tags of a run of blocks *)

Lemma layout_app3 p l1 mid l2 x b :
  (x, b) ∈ layout p (l1 ++ mid ++ l2) <->
  (x, b) ∈ layout p l1 \/ (x, b) ∈ layout (p + total l1) mid \/
  (x, b) ∈ layout (p + total l1 + total mid) l2.
Proof. rewrite !layout_app, !elem_of_app. tauto. Qed.

Lemma lists_ok_grow st st' Ls (D : Z -> Prop) :
  lists_ok st Ls ->
  mem_start_brk st' = mem_start_brk st -> mem_brk st <= mem_brk st' < 2 ^ 64 ->
  seg_list st' = seg_list st ->
  unchanged_outside D (mem st) (mem st') ->
  (forall i y a, y ∈ Ls i -> y <= a < y + 16 -> ~ D a) ->
  lists_ok st' Ls.
Proof.
  intros Hok Hs1 Hs2 Hseg Hun HD.
  pose proof (lo_dll _ _ Hok) as Hdll. pose proof (lo_member _ _ Hok) as Hmem.
  destruct Hok. constructor; rewrite ?Hs1, ?Hseg; auto; try lia.
  - intros i Hi. unfold seg_get. rewrite Hseg.
    eapply dllseg_frame; [|apply (Hdll i Hi)].
    intros y Hy. split; apply (load64_unchanged _ _ _ _ Hun);
      intros a Ha; apply (HD i y a Hy); lia.
  - intros i x Hx. specialize (Hmem i x Hx). lia.
Qed.

Lemma lists_ok_unchanged st st' Ls (D : Z -> Prop) :
  lists_ok st Ls ->
  same_region st st' -> seg_list st' = seg_list st ->
  unchanged_outside D (mem st) (mem st') ->
  (forall i y a, y ∈ Ls i -> y <= a < y + 16 -> ~ D a) ->
  lists_ok st' Ls.
Proof.
  intros Hok (Hs1 & Hs2 & Hs3 & Hs4) Hseg Hun HD.
  eapply lists_ok_grow; eauto. pose proof (lo_brk _ _ Hok). lia.
Qed.

(** The blocks [mid] between [l1] and [l2], none of them in a list, are
    re-tagged as [mid'] over the same bytes. *)
Lemma heap_retag st st' l1 mid mid' l2 Ls (X X' : Z -> Prop) :
  heap_ok st (l1 ++ mid ++ l2) -> lists_ok st Ls ->
  table_matches st (l1 ++ mid ++ l2) Ls X ->
  same_region st st' -> seg_list st' = seg_list st ->
  unchanged_outside
    (fun a => first_block st + total l1 - 8 <= a < first_block st + total l1 + total mid - 8)
    (mem st) (mem st') ->
  sizes_ok mid' -> total mid' = total mid ->
  blocks_at (mem st') (first_block st + total l1) mid' ->
  (forall x s, (x, (s, false)) ∈ layout (first_block st + total l1) mid -> X x) ->
  (forall x, X x -> first_block st + total l1 <= x < first_block st + total l1 + total mid) ->
  (forall x s, (x, (s, false)) ∈ layout (first_block st + total l1) mid' -> X' x) ->
  (forall x, X' x -> first_block st + total l1 <= x < first_block st + total l1 + total mid) ->
  heap_ok st' (l1 ++ mid' ++ l2) /\ lists_ok st' Ls /\
  table_matches st' (l1 ++ mid' ++ l2) Ls X'.
Proof.
  intros Hok Hlists Htm Hsame Hseg Hun Hsz' Htot Hblk HmidX HX HmidX' HX'.
  pose proof (ok_sizes _ _ Hok) as Hsz.
  apply sizes_ok_app in Hsz as [Hsz1 Hsz23]. apply sizes_ok_app in Hsz23 as [Hsz2 Hsz3].
  pose proof (total_nonneg _ Hsz1) as Ht1. pose proof (total_nonneg _ Hsz2) as Ht2.
  pose proof (total_nonneg _ Hsz3) as Ht3.
  pose proof (ok_brk _ _ Hok) as Hbrk. rewrite !total_app in Hbrk.
  pose proof (first_block_same _ _ Hsame) as Hfb.
  pose proof (ok_blocks _ _ Hok) as Hb.
  apply blocks_at_app in Hb as [Hb1 Hb23]. apply blocks_at_app in Hb23 as [Hb2 Hb3].
  assert (sizes_ok (l1 ++ mid' ++ l2)) as Hsznew.
  { apply sizes_ok_app. split; [auto|]. apply sizes_ok_app. auto. }
  (* members of the table lie outside the run *)
  assert (forall i y, y ∈ Ls i -> exists s, 32 <= s /\
           ((y, (s, false)) ∈ layout (first_block st) l1 \/ (y, (s, false)) ∈ layout ((first_block st + total l1) + total mid) l2) /\
           (y + s <= (first_block st + total l1) \/ (first_block st + total l1) + total mid <= y) /\ get_list_index s = i /\ ~ X y) as Hmem.
  { intros i y Hy. destruct (member_free _ _ _ _ Htm i y Hy) as (s & Hs & Hi & HXy).
    exists s. pose proof (layout_sizes _ _ _ _ (ok_sizes _ _ Hok) Hs) as [H32 _]. simpl in H32.
    split; [exact H32|].
    apply layout_app3 in Hs as [Hs|[Hs|Hs]].
    - pose proof (layout_bounds _ _ _ _ Hsz1 Hs). simpl in *. repeat split; auto; cbv beta in *; lia.
    - exfalso. apply HXy. eapply HmidX; eauto.
    - pose proof (layout_bounds _ _ _ _ Hsz3 Hs). simpl in *. repeat split; auto; cbv beta in *; lia. }
  destruct Hsame as (Hs1 & Hs2 & Hs3 & Hs4).
  split; [|split].
  - pose proof (ok_prologue_hdr _ _ Hok) as Hph. pose proof (ok_prologue_ftr _ _ Hok) as Hpf.
    pose proof (ok_epilogue _ _ Hok) as Hep.
    destruct Hok. constructor; rewrite ?Hs1, ?Hs2, ?Hs3, ?Hs4, ?Hfb; auto.
    + rewrite <- Hph. apply (load64_unchanged _ _ _ _ Hun).
      intros a Ha. unfold first_block in *. cbv beta in *; lia.
    + rewrite <- Hpf. apply (load64_unchanged _ _ _ _ Hun).
      intros a Ha. unfold first_block in *. cbv beta in *; lia.
    + apply blocks_at_app. split; [|apply blocks_at_app; split].
      * eapply blocks_at_unchanged; [exact Hun| |exact Hb1].
        intros x b a Hx Ha. pose proof (layout_bounds _ _ _ _ Hsz1 Hx).
        pose proof (layout_sizes _ _ _ _ Hsz1 Hx). cbv beta in *; lia.
      * exact Hblk.
      * rewrite Htot.
        eapply blocks_at_unchanged; [exact Hun| |exact Hb3].
        intros x b a Hx Ha. pose proof (layout_bounds _ _ _ _ Hsz3 Hx).
        pose proof (layout_sizes _ _ _ _ Hsz3 Hx). cbv beta in *; lia.
    + rewrite !total_app, Htot. exact Hbrk.
    + rewrite <- Hep. apply (load64_unchanged _ _ _ _ Hun).
      intros a Ha. cbv beta in *; lia.
  - eapply lists_ok_unchanged; eauto; [repeat split; auto|].
    intros i y a Hy Ha. destruct (Hmem i y Hy) as (s & H32 & _ & Hpos & _).
    cbv beta in *; lia.
  - constructor; rewrite Hfb.
    + intros i y Hy. destruct (Hmem i y Hy) as (s & H32 & Hin & Hpos & Hi & HXy).
      split; [intros HX'y; apply HX' in HX'y; lia|].
      exists s. split; [|exact Hi]. apply layout_app3. rewrite Htot. tauto.
    + intros y s Hy HX'y. apply layout_app3 in Hy as [Hy|[Hy|Hy]].
      * eapply (tm_complete _ _ _ _ Htm); [apply layout_app3; left; exact Hy|].
        intros HXy. apply HX in HXy.
        pose proof (layout_bounds _ _ _ _ Hsz1 Hy). pose proof (layout_sizes _ _ _ _ Hsz1 Hy).
        simpl in *. cbv beta in *; lia.
      * exfalso. apply HX'y. eapply HmidX'; eauto.
      * rewrite Htot in Hy.
        eapply (tm_complete _ _ _ _ Htm); [apply layout_app3; right; right; exact Hy|].
        intros HXy. apply HX in HXy.
        pose proof (layout_bounds _ _ _ _ Hsz3 Hy). simpl in *. cbv beta in *; lia.
Qed.

(** * Reading and writing tags *)

Lemma GET_SIZE_tag st p b :
  valid_word st p = true -> load64 (mem st) p = tag b ->
  0 <= fst b < 2 ^ 64 -> fst b mod 16 = 0 ->
  GET_SIZE st p = Done (fst b).
Proof.
  intros Hv Hl Hr H16. unfold GET_SIZE. rewrite GET_valid by auto.
  rewrite bind_Done, Hl, tag_size_of by lia. reflexivity.
Qed.

Lemma GET_ALLOC_tag st p b :
  valid_word st p = true -> load64 (mem st) p = tag b -> fst b mod 16 = 0 ->
  GET_ALLOC st p = Done (if snd b then 1 else 0).
Proof.
  intros Hv Hl H16. unfold GET_ALLOC. rewrite GET_valid by auto.
  rewrite bind_Done, Hl, tag_alloc_of by lia. reflexivity.
Qed.

Lemma load64_store_tag m p b :
  0 <= fst b < 2 ^ 64 -> fst b mod 16 = 0 -> load64 (store64 m p (tag b)) p = tag b.
Proof.
  intros Hr H16. rewrite load64_store64_eq. apply Z.mod_small. apply tag_range; lia.
Qed.

Lemma FTRP_tag st bp b :
  valid_word st (bp - 8) = true -> load64 (mem st) (bp - 8) = tag b ->
  0 <= fst b < 2 ^ 64 -> fst b mod 16 = 0 ->
  FTRP st bp = Done (bp + fst b - 16).
Proof.
  intros Hv Hl Hr H16. unfold FTRP, HDRP, WSIZE.
  rewrite (GET_SIZE_tag st (bp - 8) b) by auto. reflexivity.
Qed.

Lemma NEXT_BLKP_tag st bp b :
  valid_word st (bp - 8) = true -> load64 (mem st) (bp - 8) = tag b ->
  0 <= fst b < 2 ^ 64 -> fst b mod 16 = 0 ->
  NEXT_BLKP st bp = Done (bp + fst b).
Proof.
  intros Hv Hl Hr H16. unfold NEXT_BLKP, WSIZE.
  rewrite (GET_SIZE_tag st (bp - 8) b) by auto. reflexivity.
Qed.

Lemma PREV_BLKP_tag st bp b :
  valid_word st (bp - 16) = true -> load64 (mem st) (bp - 16) = tag b ->
  0 <= fst b < 2 ^ 64 -> fst b mod 16 = 0 ->
  PREV_BLKP st bp = Done (bp - fst b).
Proof.
  intros Hv Hl Hr H16. unfold PREV_BLKP, DSIZE.
  rewrite (GET_SIZE_tag st (bp - 16) b) by auto. reflexivity.
Qed.

Lemma load64_store_tag_eq m p q b :
  p = q -> 0 <= fst b < 2 ^ 64 -> fst b mod 16 = 0 ->
  load64 (store64 m p (tag b)) q = tag b.
Proof. intros <-. apply load64_store_tag. Qed.

(** Side conditions of a run of tag accesses. *)
Ltac valid_tac := apply valid_word_iff; simpl; lia.
Ltac load_tac :=
  simpl mem; repeat (rewrite load64_store64_disj by lia);
  first [assumption
        | apply load64_store_tag_eq;
          [lia | simpl; lia | simpl; first [assumption | lia_mod]]].

(** * Neighbours in the block sequence *)

Lemma prev_block_snoc l b : prev_block (l ++ [b]) = b.
Proof. unfold prev_block. rewrite last_snoc. reflexivity. Qed.

Lemma prev_block_cons_cons a b l : prev_block (a :: b :: l) = prev_block (b :: l).
Proof. unfold prev_block. rewrite last_cons_cons. reflexivity. Qed.

Lemma no_adj_free_cons b l :
  no_adj_free (b :: l) <->
  (snd b = true \/ snd (next_block l) = true) /\ no_adj_free l.
Proof.
  destruct l as [|c l]; simpl; [|reflexivity].
  unfold next_block. simpl. tauto.
Qed.

Lemma no_adj_free_app l1 : forall l2,
  no_adj_free (l1 ++ l2) <->
  no_adj_free l1 /\ no_adj_free l2 /\
  (snd (prev_block l1) = true \/ snd (next_block l2) = true).
Proof.
  induction l1 as [|b l1 IH]; intros l2.
  - simpl. unfold prev_block. simpl. tauto.
  - change ((b :: l1) ++ l2) with (b :: (l1 ++ l2)).
    rewrite !no_adj_free_cons, IH.
    destruct l1 as [|c l1].
    + simpl. unfold prev_block, next_block. simpl. tauto.
    + rewrite prev_block_cons_cons. simpl app.
      change (next_block (c :: l1 ++ l2)) with c. change (next_block (c :: l1)) with c.
      tauto.
Qed.

Lemma no_adj_free_mid l1 b l2 :
  no_adj_free (l1 ++ b :: l2) <->
  no_adj_free l1 /\ no_adj_free l2 /\
  (snd (prev_block l1) = true \/ snd b = true) /\
  (snd b = true \/ snd (next_block l2) = true).
Proof.
  rewrite no_adj_free_app, no_adj_free_cons.
  change (next_block (b :: l2)) with b. tauto.
Qed.

(** * Footprints *)

Lemma free_links_span p0 bl a : sizes_ok bl -> free_links p0 bl a -> free_span p0 bl a.
Proof.
  intros Hs (x & s & Hx & Ha). pose proof (layout_sizes _ _ _ _ Hs Hx). simpl in *.
  exists x, s. split; [auto|lia].
Qed.

Lemma alloc_payload_not_free_span p0 bl a :
  sizes_ok bl -> alloc_payload p0 bl a -> ~ free_span p0 bl a.
Proof.
  intros Hs (x & s & Hx & Hxa) (y & s' & Hy & Hya).
  pose proof (layout_sizes _ _ _ _ Hs Hx). pose proof (layout_sizes _ _ _ _ Hs Hy).
  destruct (layout_sep _ _ _ _ _ _ Hs Hx Hy) as [[_ H']|H']; [discriminate|].
  simpl in *. lia.
Qed.

(** After a run of blocks is re-tagged, the free space is within the old
    free space and the run. *)
Lemma free_span_retag p0 l1 mid mid' l2 a :
  total mid' = total mid -> sizes_ok mid' ->
  free_span p0 (l1 ++ mid' ++ l2) a ->
  free_span p0 (l1 ++ mid ++ l2) a \/
  p0 + total l1 - 8 <= a < p0 + total l1 + total mid - 8.
Proof.
  intros Htot Hs (x & s & Hx & Ha).
  apply layout_app3 in Hx as [Hx|[Hx|Hx]].
  - left. exists x, s. split; [apply layout_app3; auto|auto].
  - right. pose proof (layout_bounds _ _ _ _ Hs Hx). simpl in *. lia.
  - left. exists x, s. split; [apply layout_app3; rewrite <- Htot; auto|auto].
Qed.

(** * [place] *)

Lemma place_spec st l1 csize l2 Ls asize fuel :
  let bl := l1 ++ (csize, false) :: l2 in
  let bp := first_block st + total l1 in
  heap_ok st bl -> lists_ok st Ls -> table_matches st bl Ls (fun _ => False) ->
  32 <= asize <= csize -> asize mod 16 = 0 ->
  (length bl <= fuel)%nat ->
  exists st' la lb,
    place fuel st bp asize = Done st' /\
    Ls (get_list_index csize) = la ++ bp :: lb /\
    same_region st st' /\
    unchanged_outside (free_span (first_block st) bl) (mem st) (mem st') /\
    let Ls1 := <[get_list_index csize := la ++ lb]> Ls in
    if decide (32 <= csize - asize) then
      exists lc ld,
        Ls1 (get_list_index (csize - asize)) = lc ++ ld /\
        let bl' := l1 ++ (asize, true) :: (csize - asize, false) :: l2 in
        let Ls' := <[get_list_index (csize - asize) := lc ++ (bp + asize) :: ld]> Ls1 in
        heap_ok st' bl' /\ lists_ok st' Ls' /\ table_matches st' bl' Ls' (fun _ => False)
    else
      let bl' := l1 ++ (csize, true) :: l2 in
      heap_ok st' bl' /\ lists_ok st' Ls1 /\ table_matches st' bl' Ls1 (fun _ => False).
Proof.
  intros bl bp Hok Hlists Htm Hasize H16 Hfuel.
  assert ((bp, (csize, false)) ∈ layout (first_block st) bl) as Hbp by apply layout_mid.
  destruct (block_facts _ _ Hok _ _ Hbp) as (Hlo & Hhi & Hbp16 & Hs32 & Hs16 & Hh & Hf & Hbs).
  simpl in Hhi, Hs32, Hs16, Hh, Hf, Hbs.
  pose proof (heap_brk_bound _ _ Hok) as [_ Hbrk].
  pose proof (ok_base_pos _ _ Hok) as Hbase.
  pose proof (ok_sizes _ _ Hok) as Hsz.
  assert (forall o, -8 <= o -> o + 8 <= csize -> valid_word st (bp + o) = true) as Hvalid.
  { intros o Ho1 Ho2. eapply block_valid; eauto. }
  destruct (remove_block_heap st bl Ls _ bp csize Hok Hlists Htm Hbp)
    as (st1 & la & lb & Hrm & HL & Hok1 & Hlists1 & Htm1 & Hsame1 & Hun1); [tauto|].
  assert (forall o, -8 <= o -> o + 8 <= csize -> valid_word st1 (bp + o) = true) as Hvalid1.
  { intros o Ho1 Ho2. rewrite (valid_word_same st st1) by auto. auto. }
  pose proof (first_block_same _ _ Hsame1) as Hfb1.
  assert (unchanged_outside (free_span (first_block st) bl) (mem st) (mem st1)) as Hun1'.
  { eapply unchanged_weaken; [|exact Hun1]. intros a. apply free_links_span. auto. }
  assert (forall a, bp - 8 <= a < bp + csize - 8 -> free_span (first_block st) bl a) as Hspan.
  { intros a Ha. exists bp, csize. auto. }
  pose proof Hsame1 as (Hs1 & Hs2 & Hs3 & Hs4).
  unfold first_block in Hlo.
  assert (heap_ok st1 (l1 ++ [(csize, false)] ++ l2)) as Hok1' by exact Hok1.
  assert (table_matches st1 (l1 ++ [(csize, false)] ++ l2)
            (<[get_list_index csize := la ++ lb]> Ls) (fun y => y = bp \/ False)) as Htm1'
    by exact Htm1.
  assert (total [(csize, false)] = csize) as Htot1 by (unfold total; simpl; lia).
  assert (forall x s, (x, (s, false)) ∈ layout (first_block st1 + total l1) [(csize, false)] ->
          x = bp \/ False) as HmidX.
  { intros x s Hx. simpl in Hx. apply list_elem_of_singleton in Hx. injection Hx as -> _.
    left. rewrite Hfb1. reflexivity. }
  assert (forall x, x = bp \/ False ->
          first_block st1 + total l1 <= x < first_block st1 + total l1 + total [(csize, false)])
    as HXin.
  { intros x [->|[]]. rewrite Hfb1, Htot1. fold bp. lia. }
  unfold place. unfold HDRP, WSIZE. fold bp.
  rewrite (GET_SIZE_tag st (bp - 8) (csize, false)); [|valid_tac|exact Hh|simpl; lia|exact Hs16].
  rewrite bind_Done. simpl fst. rewrite Hrm, bind_Done. cbv zeta.
  rewrite (wrap_small (csize - asize)) by lia. change (2 * DSIZE) with 32.
  destruct (decide (32 <= csize - asize)) as [Hsplit|Hnosplit].
  - (* the block is split *)
    destruct (Z.geb_spec (csize - asize) 32) as [_|]; [|lia].
    change (PACK asize 1) with (tag (asize, true)).
    change (PACK (csize - asize) 0) with (tag (csize - asize, false)).
    rewrite PUT_valid by valid_tac. rewrite bind_Done.
    rewrite (FTRP_tag _ bp (asize, true)); [|valid_tac|load_tac|simpl; lia|exact H16].
    rewrite bind_Done. simpl fst.
    rewrite PUT_valid by valid_tac. rewrite bind_Done.
    rewrite (NEXT_BLKP_tag _ bp (asize, true)); [|valid_tac|load_tac|simpl; lia|exact H16].
    rewrite bind_Done. simpl fst.
    rewrite PUT_valid by valid_tac. rewrite bind_Done.
    assert ((csize - asize) mod 16 = 0) as Hr16 by lia_mod.
    rewrite (FTRP_tag _ (bp + asize) (csize - asize, false));
      [|valid_tac|load_tac|simpl; lia|exact Hr16].
    rewrite bind_Done. simpl fst.
    rewrite PUT_valid by valid_tac. rewrite bind_Done.
    match goal with |- context [insert_block fuel ?s _] => set (std := s) end.
    destruct (heap_retag st1 std l1 [(csize, false)] [(asize, true); (csize - asize, false)] l2
                _ _ (fun y => y = bp + asize) Hok1' Hlists1 Htm1')
      as (Hokd & Hlistsd & Htmd); auto.
    { repeat split; auto. }
    { rewrite Hfb1, Htot1. fold bp. unfold std. simpl mem.
      repeat (eapply unchanged_trans; [|apply unchanged_store64; intros a Ha; cbv beta; lia]).
      apply unchanged_refl. }
    { repeat constructor; simpl; auto; lia. }
    { unfold total. simpl. lia. }
    { rewrite Hfb1. fold bp. simpl. unfold std.
      repeat split; load_tac. }
    { intros x s Hx. rewrite Hfb1 in Hx. fold bp in Hx. simpl in Hx.
      apply elem_of_cons in Hx as [Hx|Hx]; [discriminate|].
      apply list_elem_of_singleton in Hx. injection Hx as -> _. reflexivity. }
    { intros x ->. rewrite Hfb1, Htot1. fold bp. lia. }
    assert ((bp + asize, (csize - asize, false)) ∈
              layout (first_block std) (l1 ++ (asize, true) :: (csize - asize, false) :: l2)) as Hrem.
    { apply layout_elem. exists (l1 ++ [(asize, true)]), l2.
      split; [rewrite <- app_assoc; reflexivity|].
      rewrite total_app. unfold total at 2. simpl.
      change (first_block std) with (first_block st1). rewrite Hfb1. unfold bp. lia. }
    destruct (insert_block_heap std _ _ _ (bp + asize) (csize - asize) fuel Hokd Hlistsd Htmd Hrem)
      as (st' & lc & ld & Hins & HL1 & Hok' & Hlists' & Htm' & Hsame' & Hun' & _); auto.
    { unfold bl in Hfuel. rewrite length_app in Hfuel. simpl in Hfuel.
      rewrite length_app. simpl. lia. }
    exists st', la, lb. split; [exact Hins|]. split; [exact HL|].
    split; [eapply same_region_trans; [exact Hsame1|exact Hsame']|].
    split.
    { eapply unchanged_trans; [exact Hun1'|]. apply (unchanged_trans _ _ (mem std)).
      - unfold std. simpl mem.
        repeat (eapply unchanged_trans;
                [|apply unchanged_store64; intros a Ha; apply Hspan; lia]).
        apply unchanged_refl.
      - eapply unchanged_weaken; [|exact Hun']. intros a Ha.
        apply free_links_span in Ha; [|apply (ok_sizes _ _ Hokd)].
        change (first_block std) with (first_block st1) in Ha. rewrite Hfb1 in Ha.
        apply (free_span_retag _ l1 [(csize, false)] [(asize, true); (csize - asize, false)] l2)
          in Ha as [Ha|Ha].
        + exact Ha.
        + apply Hspan. rewrite Htot1 in Ha. fold bp in Ha. lia.
        + unfold total. simpl. lia.
        + repeat constructor; simpl; auto; lia. }
    cbv zeta. exists lc, ld. split; [exact HL1|].
    split; [exact Hok'|]. split; [exact Hlists'|].
    eapply table_matches_ext; [exact Htm'|]. intros x. simpl. lia.
  - (* the whole block is taken *)
    destruct (Z.geb_spec (csize - asize) 32) as [|_]; [lia|].
    change (PACK csize 1) with (tag (csize, true)).
    rewrite PUT_valid by valid_tac. rewrite bind_Done.
    rewrite (FTRP_tag _ bp (csize, true)); [|valid_tac|load_tac|simpl; lia|exact Hs16].
    rewrite bind_Done. simpl fst.
    rewrite PUT_valid by valid_tac.
    match goal with |- context [Done ?s = _] => set (std := s) end.
    destruct (heap_retag st1 std l1 [(csize, false)] [(csize, true)] l2
                _ _ (fun y => False) Hok1' Hlists1 Htm1')
      as (Hokd & Hlistsd & Htmd); auto.
    { repeat split; auto. }
    { rewrite Hfb1, Htot1. fold bp. unfold std. simpl mem.
      repeat (eapply unchanged_trans; [|apply unchanged_store64; intros a Ha; cbv beta; lia]).
      apply unchanged_refl. }
    { repeat constructor; simpl; auto; lia. }
    { rewrite Hfb1. fold bp. simpl. unfold std. repeat split; load_tac. }
    { intros x s Hx. rewrite Hfb1 in Hx. simpl in Hx.
      apply list_elem_of_singleton in Hx. discriminate. }
    exists std, la, lb. split; [reflexivity|]. split; [exact HL|].
    split; [repeat split; auto|].
    split.
    { eapply unchanged_trans; [exact Hun1'|]. unfold std. simpl mem.
      repeat (eapply unchanged_trans;
              [|apply unchanged_store64; intros a Ha; apply Hspan; lia]).
      apply unchanged_refl. }
    cbv zeta. auto.
Qed.

(** * Coalescing *)

Lemma prev_block_cases l1 :
  (l1 = [] /\ prev_block l1 = (DSIZE, true)) \/
  (exists l1', l1 = l1' ++ [prev_block l1]).
Proof.
  destruct l1 as [|b l1 _] using rev_ind; [left; auto|].
  right. exists l1. rewrite prev_block_snoc. reflexivity.
Qed.

Lemma next_block_cases l2 :
  (l2 = [] /\ next_block l2 = (0, true)) \/
  (exists l2', l2 = next_block l2 :: l2').
Proof. destruct l2 as [|b l2]; [left; auto|]. right. exists l2. reflexivity. Qed.

Section Neighbours.
Variables (st : state) (l1 : list block) (b : block) (l2 : list block).
Hypothesis Hok : heap_ok st (l1 ++ b :: l2).
Let bp := first_block st + total l1.

(** The footer before a block and the header it belongs to hold the tag
    of the previous block, or of the prologue. *)
Lemma prev_block_tags :
  load64 (mem st) (bp - 16) = tag (prev_block l1) /\
  load64 (mem st) (bp - fst (prev_block l1) - 8) = tag (prev_block l1) /\
  16 <= fst (prev_block l1) /\ fst (prev_block l1) mod 16 = 0 /\
  mem_start_brk st + 16 <= bp - fst (prev_block l1).
Proof.
  destruct (prev_block_cases l1) as [[-> ->]|(l1' & Hl1)].
  - unfold bp, first_block. simpl. unfold total. simpl.
    replace (mem_start_brk st + 32 + 0 - 16) with (mem_start_brk st + 16) by lia.
    replace (mem_start_brk st + 32 + 0 - DSIZE - 8) with (mem_start_brk st + 8)
      by (unfold DSIZE; lia).
    split; [apply (ok_prologue_ftr _ _ Hok)|]. split; [apply (ok_prologue_hdr _ _ Hok)|].
    unfold DSIZE. repeat split; lia.
  - set (pb := prev_block l1) in *.
    assert ((first_block st + total l1', pb) ∈ layout (first_block st) (l1 ++ b :: l2)) as Hpb.
    { apply layout_elem. exists l1', (b :: l2). split; [|reflexivity].
      rewrite Hl1 at 1. rewrite <- app_assoc. reflexivity. }
    destruct (block_facts _ _ Hok _ _ Hpb) as (Hlo & Hhi & _ & H32 & H16 & Hh & Hf & _).
    assert (bp = first_block st + total l1' + fst pb) as Ebp.
    { unfold bp. rewrite Hl1 at 1. rewrite total_app. unfold total at 2. simpl. lia. }
    rewrite Ebp.
    replace (first_block st + total l1' + pb.1 - 16)
      with (first_block st + total l1' + pb.1 - 16) by lia.
    replace (first_block st + total l1' + pb.1 - pb.1 - 8)
      with (first_block st + total l1' - 8) by lia.
    unfold first_block in *. repeat split; auto; lia.
Qed.

(** The word after a block holds the tag of the next block, or of the
    epilogue. *)
Lemma next_block_tag :
  load64 (mem st) (bp + fst b - 8) = tag (next_block l2) /\
  0 <= fst (next_block l2) /\ fst (next_block l2) mod 16 = 0 /\
  bp + fst b + fst (next_block l2) <= mem_brk st.
Proof.
  pose proof (ok_sizes _ _ Hok) as Hsz.
  apply sizes_ok_app in Hsz as [Hsz1 Hsz2]. apply sizes_ok_cons in Hsz2 as [Hb Hsz2].
  pose proof (ok_brk _ _ Hok) as Hbrk. rewrite total_app, total_cons in Hbrk.
  destruct (next_block_cases l2) as [[-> ->]|(l2' & Hl2)].
  - unfold total in Hbrk at 2. simpl in Hbrk.
    replace (bp + fst b - 8) with (mem_brk st - 8) by (unfold bp; lia).
    split; [apply (ok_epilogue _ _ Hok)|]. simpl. unfold bp. repeat split; lia.
  - set (nb := next_block l2) in *.
    assert ((bp + fst b, nb) ∈ layout (first_block st) (l1 ++ b :: l2)) as Hnb.
    { apply layout_elem. exists (l1 ++ [b]), l2'. split.
      - rewrite <- app_assoc. simpl. rewrite Hl2 at 1. reflexivity.
      - rewrite total_app. unfold total at 2. simpl. unfold bp. lia. }
    destruct (block_facts _ _ Hok _ _ Hnb) as (Hlo & Hhi & _ & H32 & H16 & Hh & Hf & _).
    repeat split; auto; lia.
Qed.

End Neighbours.

Lemma total_pos mid : sizes_ok mid -> mid <> [] -> 32 <= total mid.
Proof.
  intros Hs Hne. destruct mid as [|b mid]; [contradiction|].
  apply sizes_ok_cons in Hs as [[Hb _] Hs]. pose proof (total_nonneg _ Hs).
  rewrite total_cons. lia.
Qed.

(** The run [mid] of blocks, all out of the table, has been given one
    free tag over its whole extent; it is then inserted as one block. *)
Lemma merge_insert st1 std l1 mid l2 Ls1 (X : Z -> Prop) fuel :
  heap_ok st1 (l1 ++ mid ++ l2) -> lists_ok st1 Ls1 ->
  table_matches st1 (l1 ++ mid ++ l2) Ls1 X ->
  same_region st1 std -> seg_list std = seg_list st1 ->
  unchanged_outside
    (fun a => first_block st1 + total l1 - 8 <= a < first_block st1 + total l1 + total mid - 8)
    (mem st1) (mem std) ->
  load64 (mem std) (first_block st1 + total l1 - 8) = tag (total mid, false) ->
  load64 (mem std) (first_block st1 + total l1 + total mid - 16) = tag (total mid, false) ->
  mid <> [] ->
  (forall x s, (x, (s, false)) ∈ layout (first_block st1 + total l1) mid -> X x) ->
  (forall x, X x -> first_block st1 + total l1 <= x < first_block st1 + total l1 + total mid) ->
  (length (l1 ++ mid ++ l2) <= S fuel)%nat ->
  exists st' la lb,
    insert_block fuel std (first_block st1 + total l1) = Done st' /\
    Ls1 (get_list_index (total mid)) = la ++ lb /\
    heap_ok st' (l1 ++ (total mid, false) :: l2) /\
    lists_ok st' (<[get_list_index (total mid) := la ++ (first_block st1 + total l1) :: lb]> Ls1) /\
    table_matches st' (l1 ++ (total mid, false) :: l2)
      (<[get_list_index (total mid) := la ++ (first_block st1 + total l1) :: lb]> Ls1)
      (fun _ => False) /\
    same_region st1 st' /\
    unchanged_outside
      (fun a => free_span (first_block st1) (l1 ++ mid ++ l2) a \/
                first_block st1 + total l1 - 8 <= a < first_block st1 + total l1 + total mid - 8)
      (mem st1) (mem st').
Proof.
  intros Hok Hlists Htm Hsame Hseg Hun Hhdr Hftr Hne HmidX HX Hfuel.
  pose proof (ok_sizes _ _ Hok) as Hsz.
  apply sizes_ok_app in Hsz as [Hsz1 Hsz23]. apply sizes_ok_app in Hsz23 as [Hsz2 Hsz3].
  pose proof (total_pos _ Hsz2 Hne) as HT. pose proof (total_mod16 _ Hsz2) as HT16.
  pose proof (first_block_same _ _ Hsame) as Hfb.
  assert (sizes_ok [(total mid, false)]) as Hsz' by (repeat constructor; simpl; auto).
  assert (total [(total mid, false)] = total mid) as Htot by (unfold total at 1; simpl; lia).
  destruct (heap_retag st1 std l1 mid [(total mid, false)] l2 Ls1 X
              (fun y => y = first_block st1 + total l1) Hok Hlists Htm Hsame Hseg Hun Hsz' Htot)
    as (Hokd & Hlistsd & Htmd); auto.
  { simpl. repeat split; auto. }
  { intros x s Hx. simpl in Hx. apply list_elem_of_singleton in Hx. injection Hx as -> _.
    reflexivity. }
  { intros x ->. lia. }
  assert ((first_block st1 + total l1, (total mid, false)) ∈
            layout (first_block std) (l1 ++ [(total mid, false)] ++ l2)) as Hx.
  { rewrite Hfb. apply layout_mid. }
  destruct (insert_block_heap std _ _ _ _ _ fuel Hokd Hlistsd Htmd Hx)
    as (st' & la & lb & Hins & HL & Hok' & Hlists' & Htm' & Hsame' & Hun' & _); auto.
  { destruct mid; [contradiction|]. rewrite !length_app in *. simpl in *.
    lia. }
  exists st', la, lb. split; [exact Hins|]. split; [exact HL|].
  split; [exact Hok'|]. split; [exact Hlists'|].
  split; [eapply table_matches_ext; [exact Htm'|]; intros x; simpl; lia|].
  split; [eapply same_region_trans; eauto|].
  apply (unchanged_trans _ _ (mem std)).
  - eapply unchanged_weaken; [|exact Hun]. intros a Ha. right. exact Ha.
  - eapply unchanged_weaken; [|exact Hun']. intros a Ha.
    apply free_links_span in Ha; [|apply (ok_sizes _ _ Hokd)]. rewrite Hfb in Ha.
    apply (free_span_retag _ l1 mid [(total mid, false)] l2) in Ha; auto.
Qed.

Lemma coalesce_spec st l1 s l2 Ls fuel :
  heap_ok st (l1 ++ (s, false) :: l2) -> lists_ok st Ls ->
  table_matches st (l1 ++ (s, false) :: l2) Ls (fun y => y = first_block st + total l1) ->
  (length (l1 ++ (s, false) :: l2) <= S fuel)%nat ->
  exists st' Ls',
    coalesce fuel st (first_block st + total l1) =
      Done (st', first_block st + total l1 - prev_free_size l1) /\
    heap_ok st' (coalesced l1 s l2) /\ lists_ok st' Ls' /\
    table_matches st' (coalesced l1 s l2) Ls' (fun _ => False) /\
    same_region st st' /\
    unchanged_outside (free_span (first_block st) (l1 ++ (s, false) :: l2)) (mem st) (mem st').
Proof.
  intros Hok Hlists Htm Hfuel.
  set (bp := first_block st + total l1) in *.
  set (bl := l1 ++ (s, false) :: l2) in *.
  assert ((bp, (s, false)) ∈ layout (first_block st) bl) as Hbp by apply layout_mid.
  destruct (block_facts _ _ Hok _ _ Hbp) as (Hlo & Hhi & Hbp16 & Hs32 & Hs16 & Hh & Hf & Hbs).
  simpl in Hhi, Hs32, Hs16, Hh, Hf, Hbs.
  pose proof (heap_brk_bound _ _ Hok) as [_ Hbrk].
  pose proof (ok_base_pos _ _ Hok) as Hbase.
  pose proof (ok_sizes _ _ Hok) as Hsz.
  destruct (prev_block_tags st l1 (s, false) l2 Hok) as (Hpf & Hph & Hp16' & Hp16 & Hplo).
  destruct (next_block_tag st l1 (s, false) l2 Hok) as (Hnh & Hn0 & Hn16 & Hnhi).
  fold bp in Hpf, Hph, Hplo, Hnh, Hnhi. simpl fst in Hnh, Hnhi.
  unfold first_block in Hlo.
  assert (forall a, bp - 8 <= a < bp + s - 8 -> free_span (first_block st) bl a) as Hspan.
  { intros a Ha. exists bp, s. auto. }
  unfold coalesce. unfold HDRP, WSIZE.
  rewrite (PREV_BLKP_tag st bp (prev_block l1)); [|valid_tac|exact Hpf|lia|exact Hp16].
  rewrite bind_Done.
  rewrite (FTRP_tag st _ (prev_block l1)); [|valid_tac|exact Hph|lia|exact Hp16].
  rewrite bind_Done.
  replace (bp - fst (prev_block l1) + fst (prev_block l1) - 16) with (bp - 16) by lia.
  rewrite (GET_ALLOC_tag st _ (prev_block l1)); [|valid_tac|exact Hpf|exact Hp16].
  rewrite bind_Done.
  rewrite (NEXT_BLKP_tag st bp (s, false)); [|valid_tac|exact Hh|simpl; lia|exact Hs16].
  rewrite bind_Done. simpl fst.
  rewrite (GET_ALLOC_tag st _ (next_block l2)); [|valid_tac|exact Hnh|exact Hn16].
  rewrite bind_Done.
  rewrite (GET_SIZE_tag st _ (s, false)); [|valid_tac|exact Hh|simpl; lia|exact Hs16].
  rewrite bind_Done. simpl fst.
  destruct (prev_block l1) as [ps pa] eqn:Epb. destruct (next_block l2) as [ns na] eqn:Enb.
  simpl fst in *. simpl snd in *.
  destruct pa, na; cbn [Z.eqb negb andb Pos.eqb].
  - (* case 1: both neighbours allocated *)
    rewrite !bind_Done. cbv iota beta.
    destruct (merge_insert st st l1 [(s, false)] l2 Ls _ fuel Hok Hlists Htm)
      as (st' & la & lb & Hins & HL & Hok' & Hlists' & Htm' & Hsame' & Hun').
    { apply same_region_refl. }
    { reflexivity. }
    { apply unchanged_refl. }
    { fold bp. unfold total. simpl. replace (s + 0) with s by lia. exact Hh. }
    { fold bp. unfold total. simpl. replace (bp + (s + 0) - 16) with (bp + s - 16) by lia.
      replace (s + 0) with s by lia. exact Hf. }
    { discriminate. }
    { intros x s' Hx. simpl in Hx. apply list_elem_of_singleton in Hx. injection Hx as -> _.
      reflexivity. }
    { fold bp. intros x ->. unfold total. simpl. lia. }
    { exact Hfuel. }
    fold bp in Hins. rewrite Hins, bind_Done.
    assert (coalesced l1 s l2 = l1 ++ (total [(s, false)], false) :: l2) as Ec.
    { unfold coalesced, drop_prev_free, drop_next_free, prev_free_size, next_free_size.
      rewrite Epb, Enb. simpl.
      replace (0 + s + 0) with (total [(s, false)]) by (unfold total; simpl; lia).
      reflexivity. }
    assert (prev_free_size l1 = 0) as Ep by (unfold prev_free_size; rewrite Epb; reflexivity).
    rewrite Ec, Ep. replace (bp - 0) with bp by lia.
    eexists st', _. split; [reflexivity|]. split; [exact Hok'|]. split; [exact Hlists'|].
    split; [exact Htm'|]. split; [exact Hsame'|].
    eapply unchanged_weaken; [|exact Hun']. intros a [Ha|Ha]; [exact Ha|].
    apply Hspan. fold bp in Ha. unfold total in Ha. simpl in Ha. lia.
  - (* case 2: the next block is free *)
    destruct (next_block_cases l2) as [[_ E]|(l2' & Hl2)]; [rewrite Enb in E; discriminate|].
    rewrite Enb in Hl2. subst l2.
    rewrite !bind_Done.
    rewrite (NEXT_BLKP_tag st bp (s, false)); [|valid_tac|exact Hh|simpl; lia|exact Hs16].
    rewrite bind_Done. simpl fst.
    assert ((bp + s, (ns, false)) ∈ layout (first_block st) bl) as Hnbin.
    { apply layout_elem. exists (l1 ++ [(s, false)]), l2'. split.
      - unfold bl. rewrite <- app_assoc. reflexivity.
      - rewrite total_app. unfold total at 2. simpl. unfold bp. lia. }
    destruct (block_facts _ _ Hok _ _ Hnbin) as (_ & Hnhi' & _ & Hn32 & _).
    simpl in Hnhi', Hn32.
    destruct (remove_block_heap st bl Ls _ (bp + s) ns Hok Hlists Htm Hnbin)
      as (st1 & la & lb & Hrm & HL & Hok1 & Hlists1 & Htm1 & Hsame1 & Hun1); [lia|].
    rewrite Hrm, bind_Done.
    pose proof (first_block_same _ _ Hsame1) as Hfb1.
    pose proof Hsame1 as (Hs1 & Hs2 & Hs3 & Hs4).
    rewrite <- Hfb1 in Hbp, Hnbin.
    destruct (block_facts _ _ Hok1 _ _ Hbp) as (_ & _ & _ & _ & _ & Hh1 & Hf1 & _).
    destruct (block_facts _ _ Hok1 _ _ Hnbin) as (_ & _ & _ & _ & _ & Hnh1 & Hnf1 & _).
    simpl fst in Hh1, Hf1, Hnh1, Hnf1.
    rewrite (NEXT_BLKP_tag st1 bp (s, false)); [|valid_tac|exact Hh1|simpl; lia|exact Hs16].
    rewrite bind_Done. simpl fst.
    rewrite (GET_SIZE_tag st1 _ (ns, false)); [|valid_tac|exact Hnh1|simpl; lia|exact Hn16].
    rewrite bind_Done. simpl fst.
    rewrite wrap_small by lia.
    change (PACK (s + ns) 0) with (tag (s + ns, false)).
    rewrite PUT_valid by valid_tac. rewrite bind_Done.
    rewrite (FTRP_tag _ bp (s + ns, false)); [|valid_tac|load_tac|simpl; lia|simpl; lia_mod].
    rewrite bind_Done. simpl fst.
    rewrite PUT_valid by valid_tac. rewrite !bind_Done. cbv iota beta.
    match goal with |- context [insert_block fuel ?s0 _] => set (std := s0) end.
    assert (total [(s, false); (ns, false)] = s + ns) as HT by (unfold total; simpl; lia).
    destruct (merge_insert st1 std l1 [(s, false); (ns, false)] l2' _ _ fuel Hok1 Hlists1 Htm1)
      as (st' & lc & ld & Hins & HL' & Hok' & Hlists' & Htm' & Hsame' & Hun').
    { repeat split; auto. }
    { reflexivity. }
    { rewrite Hfb1, HT. fold bp. unfold std. simpl mem.
      repeat (eapply unchanged_trans; [|apply unchanged_store64; intros a Ha; cbv beta; lia]).
      apply unchanged_refl. }
    { rewrite Hfb1, HT. fold bp. unfold std. load_tac. }
    { rewrite Hfb1, HT. fold bp. unfold std. load_tac. }
    { discriminate. }
    { rewrite Hfb1. fold bp. intros x s' Hx. simpl in Hx.
      apply elem_of_cons in Hx as [Hx|Hx]; [injection Hx as -> _; auto|].
      apply list_elem_of_singleton in Hx. injection Hx as -> _. auto. }
    { rewrite Hfb1, HT. fold bp. intros x [->| ->]; lia. }
    { exact Hfuel. }
    rewrite Hfb1 in Hins. fold bp in Hins. rewrite Hins, bind_Done.
    assert (coalesced l1 s ((ns, false) :: l2') =
            l1 ++ (total [(s, false); (ns, false)], false) :: l2') as Ec.
    { unfold coalesced, drop_prev_free, drop_next_free, prev_free_size, next_free_size.
      rewrite Epb, Enb. simpl.
      replace (0 + s + ns) with (total [(s, false); (ns, false)]) by lia.
      reflexivity. }
    assert (prev_free_size l1 = 0) as Ep by (unfold prev_free_size; rewrite Epb; reflexivity).
    rewrite Ec, Ep. replace (bp - 0) with bp by lia.
    eexists st', _. split; [reflexivity|]. split; [exact Hok'|]. split; [exact Hlists'|].
    split; [exact Htm'|]. split; [eapply same_region_trans; eauto|].
    apply (unchanged_trans _ _ (mem st1)).
    + eapply unchanged_weaken; [|exact Hun1]. intros a. apply free_links_span. exact Hsz.
    + eapply unchanged_weaken; [|exact Hun']. rewrite Hfb1, HT. fold bp.
      intros a [Ha|Ha]; [exact Ha|].
      destruct (Z_lt_dec a (bp + s - 8)).
      * apply Hspan. lia.
      * exists (bp + s), ns. rewrite Hfb1 in Hnbin. split; [exact Hnbin|lia].
  - (* case 3: the previous block is free *)
    destruct (prev_block_cases l1) as [[_ E]|(l1' & Hl1)]; [rewrite Epb in E; discriminate|].
    rewrite Epb in Hl1. subst l1.
    assert (bp = first_block st + total l1' + ps) as Ebp.
    { unfold bp. rewrite total_app. unfold total at 2. simpl. lia. }
    assert (bl = l1' ++ [(ps, false); (s, false)] ++ l2) as Ebl.
    { unfold bl. rewrite <- app_assoc. reflexivity. }
    rewrite !bind_Done.
    assert ((bp - ps, (ps, false)) ∈ layout (first_block st) bl) as Hpbin.
    { rewrite Ebl. replace (bp - ps) with (first_block st + total l1') by lia.
      apply layout_mid. }
    destruct (block_facts _ _ Hok _ _ Hpbin) as (Hplo' & _ & _ & Hp32 & _).
    simpl in Hp32.
    destruct (remove_block_heap st bl Ls _ (bp - ps) ps Hok Hlists Htm Hpbin)
      as (st1 & la & lb & Hrm & HL & Hok1 & Hlists1 & Htm1 & Hsame1 & Hun1); [lia|].
    rewrite Hrm, !bind_Done.
    pose proof (first_block_same _ _ Hsame1) as Hfb1.
    pose proof Hsame1 as (Hs1 & Hs2 & Hs3 & Hs4).
    rewrite <- Hfb1 in Hbp, Hpbin.
    destruct (block_facts _ _ Hok1 _ _ Hbp) as (_ & _ & _ & _ & _ & Hh1 & Hf1 & _).
    destruct (block_facts _ _ Hok1 _ _ Hpbin) as (_ & _ & _ & _ & _ & Hph1 & Hpf1 & _).
    simpl fst in Hh1, Hf1, Hph1, Hpf1.
    replace (bp - ps + ps - 16) with (bp - 16) in Hpf1 by lia.
    rewrite (PREV_BLKP_tag st1 bp (ps, false)); [|valid_tac|exact Hpf1|simpl; lia|exact Hp16].
    rewrite bind_Done. simpl fst.
    rewrite (GET_SIZE_tag st1 _ (ps, false)); [|valid_tac|exact Hph1|simpl; lia|exact Hp16].
    rewrite bind_Done. simpl fst.
    rewrite wrap_small by lia.
    change (PACK (s + ps) 0) with (tag (s + ps, false)).
    rewrite (FTRP_tag st1 bp (s, false)); [|valid_tac|exact Hh1|simpl; lia|exact Hs16].
    rewrite bind_Done. simpl fst.
    rewrite PUT_valid by valid_tac. rewrite bind_Done.
    rewrite (PREV_BLKP_tag _ bp (ps, false)); [|valid_tac|load_tac|simpl; lia|exact Hp16].
    rewrite bind_Done. simpl fst.
    rewrite PUT_valid by valid_tac. rewrite bind_Done.
    rewrite (PREV_BLKP_tag _ bp (ps, false)); [|valid_tac|load_tac|simpl; lia|exact Hp16].
    rewrite !bind_Done. simpl fst. cbv iota beta.
    match goal with |- context [insert_block fuel ?s0 _] => set (std := s0) end.
    assert (total [(ps, false); (s, false)] = s + ps) as HT by (unfold total; simpl; lia).
    rewrite Ebl in Hok1, Htm1.
    destruct (merge_insert st1 std l1' [(ps, false); (s, false)] l2 _ _ fuel Hok1 Hlists1 Htm1)
      as (st' & lc & ld & Hins & HL' & Hok' & Hlists' & Htm' & Hsame' & Hun').
    { repeat split; auto. }
    { reflexivity. }
    { rewrite Hfb1, HT. unfold std. simpl mem.
      repeat (eapply unchanged_trans; [|apply unchanged_store64; intros a Ha; cbv beta; lia]).
      apply unchanged_refl. }
    { rewrite Hfb1, HT. unfold std. load_tac. }
    { rewrite Hfb1, HT. unfold std. load_tac. }
    { discriminate. }
    { rewrite Hfb1. intros x s' Hx. simpl in Hx.
      apply elem_of_cons in Hx as [Hx|Hx]; [injection Hx as -> _; left; lia|].
      apply list_elem_of_singleton in Hx. injection Hx as -> _. right. lia. }
    { rewrite Hfb1, HT. intros x [->| ->]; lia. }
    { rewrite <- Ebl. exact Hfuel. }
    rewrite Hfb1 in Hins. replace (first_block st + total l1') with (bp - ps) in Hins by lia.
    rewrite Hins, bind_Done.
    assert (coalesced (l1' ++ [(ps, false)]) s l2 =
            l1' ++ (total [(ps, false); (s, false)], false) :: l2) as Ec.
    { unfold coalesced, drop_prev_free, drop_next_free, prev_free_size, next_free_size.
      rewrite Epb, Enb. simpl. rewrite removelast_last.
      replace (ps + s + 0) with (total [(ps, false); (s, false)]) by lia.
      reflexivity. }
    assert (prev_free_size (l1' ++ [(ps, false)]) = ps) as Ep
      by (unfold prev_free_size; rewrite Epb; reflexivity).
    rewrite Ec, Ep.
    eexists st', _. split; [reflexivity|]. split; [exact Hok'|]. split; [exact Hlists'|].
    split; [exact Htm'|]. split; [eapply same_region_trans; eauto|].
    apply (unchanged_trans _ _ (mem st1)).
    + eapply unchanged_weaken; [|exact Hun1]. intros a. apply free_links_span. exact Hsz.
    + eapply unchanged_weaken; [|exact Hun']. rewrite Hfb1, HT, <- Ebl.
      intros a [Ha|Ha]; [exact Ha|].
      destruct (Z_lt_dec a (bp - 8)).
      * exists (bp - ps), ps. rewrite Hfb1 in Hpbin. split; [exact Hpbin|lia].
      * apply Hspan. lia.
  - (* case 4: both neighbours are free *)
    destruct (prev_block_cases l1) as [[_ E]|(l1' & Hl1)]; [rewrite Epb in E; discriminate|].
    destruct (next_block_cases l2) as [[_ E]|(l2' & Hl2)]; [rewrite Enb in E; discriminate|].
    rewrite Epb in Hl1. rewrite Enb in Hl2. subst l1 l2.
    assert (bp = first_block st + total l1' + ps) as Ebp.
    { unfold bp. rewrite total_app. unfold total at 2. simpl. lia. }
    assert (bl = l1' ++ [(ps, false); (s, false); (ns, false)] ++ l2') as Ebl.
    { unfold bl. rewrite <- app_assoc. reflexivity. }
    rewrite !bind_Done.
    assert ((bp - ps, (ps, false)) ∈ layout (first_block st) bl) as Hpbin.
    { rewrite Ebl. replace (bp - ps) with (first_block st + total l1') by lia.
      apply layout_mid. }
    assert ((bp + s, (ns, false)) ∈ layout (first_block st) bl) as Hnbin.
    { apply layout_elem. exists (l1' ++ [(ps, false); (s, false)]), l2'. split.
      - rewrite Ebl. rewrite <- app_assoc. reflexivity.
      - rewrite total_app. unfold total at 2. simpl. lia. }
    destruct (block_facts _ _ Hok _ _ Hpbin) as (Hplo' & _ & _ & Hp32 & _).
    destruct (block_facts _ _ Hok _ _ Hnbin) as (_ & Hnhi' & _ & Hn32 & _).
    simpl in Hp32, Hnhi', Hn32.
    destruct (remove_block_heap st bl Ls _ (bp - ps) ps Hok Hlists Htm Hpbin)
      as (st1 & la & lb & Hrm & HL & Hok1 & Hlists1 & Htm1 & Hsame1 & Hun1); [lia|].
    rewrite Hrm, !bind_Done.
    pose proof (first_block_same _ _ Hsame1) as Hfb1.
    pose proof Hsame1 as (Hs1 & Hs2 & Hs3 & Hs4).
    rewrite <- Hfb1 in Hbp, Hpbin, Hnbin.
    destruct (block_facts _ _ Hok1 _ _ Hbp) as (_ & _ & _ & _ & _ & Hh1 & _).
    simpl fst in Hh1.
    rewrite (NEXT_BLKP_tag st1 bp (s, false)); [|valid_tac|exact Hh1|simpl; lia|exact Hs16].
    rewrite bind_Done. simpl fst.
    destruct (remove_block_heap st1 bl _ _ (bp + s) ns Hok1 Hlists1 Htm1 Hnbin)
      as (st2 & la2 & lb2 & Hrm2 & HL2 & Hok2 & Hlists2 & Htm2 & Hsame2 & Hun2); [lia|].
    rewrite Hrm2, !bind_Done.
    pose proof (first_block_same _ _ Hsame2) as Hfb2. rewrite Hfb1 in Hfb2.
    pose proof Hsame2 as (Hs1' & Hs2' & Hs3' & Hs4').
    rewrite Hfb1 in Hbp, Hpbin, Hnbin. rewrite <- Hfb2 in Hbp, Hpbin, Hnbin.
    destruct (block_facts _ _ Hok2 _ _ Hbp) as (_ & _ & _ & _ & _ & Hh2 & Hf2 & _).
    destruct (block_facts _ _ Hok2 _ _ Hpbin) as (_ & _ & _ & _ & _ & Hph2 & Hpf2 & _).
    destruct (block_facts _ _ Hok2 _ _ Hnbin) as (_ & _ & _ & _ & _ & Hnh2 & Hnf2 & _).
    simpl fst in Hh2, Hf2, Hph2, Hpf2, Hnh2, Hnf2.
    replace (bp - ps + ps - 16) with (bp - 16) in Hpf2 by lia.
    replace (bp + s - 8) with (bp + s - 8) in Hnh2 by lia.
    rewrite (PREV_BLKP_tag st2 bp (ps, false)); [|valid_tac|exact Hpf2|simpl; lia|exact Hp16].
    rewrite bind_Done. simpl fst.
    rewrite (GET_SIZE_tag st2 (bp - ps - 8) (ps, false));
      [|valid_tac|exact Hph2|simpl; lia|exact Hp16].
    rewrite bind_Done. simpl fst.
    rewrite (NEXT_BLKP_tag st2 bp (s, false)); [|valid_tac|exact Hh2|simpl; lia|exact Hs16].
    rewrite bind_Done. simpl fst.
    rewrite (FTRP_tag st2 (bp + s) (ns, false)); [|valid_tac|exact Hnh2|simpl; lia|exact Hn16].
    rewrite bind_Done. simpl fst.
    rewrite (GET_SIZE_tag st2 (bp + s + ns - 16) (ns, false));
      [|valid_tac|exact Hnf2|simpl; lia|exact Hn16].
    rewrite bind_Done. simpl fst.
    rewrite (wrap_small (ps + ns)) by lia. rewrite wrap_small by lia.
    change (PACK (s + (ps + ns)) 0) with (tag (s + (ps + ns), false)).
    rewrite !bind_Done.
    rewrite PUT_valid by valid_tac. rewrite bind_Done.
    rewrite (NEXT_BLKP_tag _ bp (s, false)); [|valid_tac|load_tac|simpl; lia|exact Hs16].
    rewrite bind_Done. simpl fst.
    rewrite (FTRP_tag _ (bp + s) (ns, false)); [|valid_tac|load_tac|simpl; lia|exact Hn16].
    rewrite bind_Done. simpl fst.
    rewrite PUT_valid by valid_tac. rewrite bind_Done.
    rewrite (PREV_BLKP_tag _ bp (ps, false)); [|valid_tac|load_tac|simpl; lia|exact Hp16].
    rewrite !bind_Done. simpl fst. cbv iota beta.
    match goal with |- context [insert_block fuel ?s0 _] => set (std := s0) end.
    assert (total [(ps, false); (s, false); (ns, false)] = s + (ps + ns)) as HT
      by (unfold total; simpl; lia).
    rewrite Ebl in Hok2, Htm2.
    destruct (merge_insert st2 std l1' [(ps, false); (s, false); (ns, false)] l2' _ _ fuel
                Hok2 Hlists2 Htm2)
      as (st' & lc & ld & Hins & HL' & Hok' & Hlists' & Htm' & Hsame' & Hun').
    { repeat split; auto. }
    { reflexivity. }
    { rewrite Hfb2, HT. unfold std. simpl mem.
      repeat (eapply unchanged_trans; [|apply unchanged_store64; intros a Ha; cbv beta; lia]).
      apply unchanged_refl. }
    { rewrite Hfb2, HT. unfold std. load_tac. }
    { rewrite Hfb2, HT. unfold std. load_tac. }
    { discriminate. }
    { rewrite Hfb2. intros x s' Hx. simpl in Hx.
      apply elem_of_cons in Hx as [Hx|Hx]; [injection Hx as -> _; right; left; lia|].
      apply elem_of_cons in Hx as [Hx|Hx]; [injection Hx as -> _; right; right; lia|].
      apply list_elem_of_singleton in Hx. injection Hx as -> _. left. lia. }
    { rewrite Hfb2, HT. intros x [->|[->| ->]]; lia. }
    { rewrite <- Ebl. exact Hfuel. }
    rewrite Hfb2 in Hins. replace (first_block st + total l1') with (bp - ps) in Hins by lia.
    rewrite Hins, bind_Done.
    assert (coalesced (l1' ++ [(ps, false)]) s ((ns, false) :: l2') =
            l1' ++ (total [(ps, false); (s, false); (ns, false)], false) :: l2') as Ec.
    { unfold coalesced, drop_prev_free, drop_next_free, prev_free_size, next_free_size.
      rewrite Epb, Enb. simpl. rewrite removelast_last.
      replace (ps + s + ns) with (total [(ps, false); (s, false); (ns, false)]) by lia.
      reflexivity. }
    assert (prev_free_size (l1' ++ [(ps, false)]) = ps) as Ep
      by (unfold prev_free_size; rewrite Epb; reflexivity).
    rewrite Ec, Ep.
    eexists st', _. split; [reflexivity|]. split; [exact Hok'|]. split; [exact Hlists'|].
    split; [exact Htm'|].
    split; [eapply same_region_trans; [exact Hsame1|]; eapply same_region_trans; eauto|].
    apply (unchanged_trans _ _ (mem st1)).
    { eapply unchanged_weaken; [|exact Hun1]. intros a. apply free_links_span. exact Hsz. }
    apply (unchanged_trans _ _ (mem st2)).
    { eapply unchanged_weaken; [|exact Hun2]. rewrite Hfb1.
      intros a. apply free_links_span. exact Hsz. }
    eapply unchanged_weaken; [|exact Hun']. rewrite Hfb2, HT, <- Ebl.
    intros a [Ha|Ha]; [exact Ha|].
    rewrite Hfb2 in Hpbin, Hnbin.
    destruct (Z_lt_dec a (bp - 8)); [exists (bp - ps), ps; split; [exact Hpbin|lia]|].
    destruct (Z_lt_dec a (bp + s - 8)); [apply Hspan; lia|].
    exists (bp + s), ns. split; [exact Hnbin|lia].
Qed.

(** * Release *)

Lemma no_adj_free_drop_prev l1 :
  no_adj_free l1 ->
  no_adj_free (drop_prev_free l1) /\ snd (prev_block (drop_prev_free l1)) = true.
Proof.
  intros H. unfold drop_prev_free.
  destruct (snd (prev_block l1)) eqn:E; [auto|].
  destruct (prev_block_cases l1) as [[_ E']|(l1' & Hl1)]; [rewrite E' in E; discriminate|].
  rewrite Hl1 in H |- *. rewrite removelast_last.
  apply no_adj_free_app in H as (H1 & _ & [H|H]); [auto|].
  change (next_block [prev_block l1]) with (prev_block l1) in H. congruence.
Qed.

Lemma no_adj_free_drop_next l2 :
  no_adj_free l2 ->
  no_adj_free (drop_next_free l2) /\ snd (next_block (drop_next_free l2)) = true.
Proof.
  intros H. unfold drop_next_free.
  destruct (snd (next_block l2)) eqn:E; [auto|].
  destruct (next_block_cases l2) as [[_ E']|(l2' & Hl2)]; [rewrite E' in E; discriminate|].
  rewrite Hl2 in H |- *. simpl tail.
  apply no_adj_free_cons in H as ([H|H] & H2); [congruence|auto].
Qed.

(** Merging a block with its free neighbours leaves no two free neighbours. *)
Lemma no_adj_free_coalesced l1 s l2 :
  no_adj_free l1 -> no_adj_free l2 -> no_adj_free (coalesced l1 s l2).
Proof.
  intros H1 H2. unfold coalesced.
  destruct (no_adj_free_drop_prev l1 H1) as [H1' Hp].
  destruct (no_adj_free_drop_next l2 H2) as [H2' Hn].
  apply no_adj_free_mid. auto.
Qed.

Lemma total_snoc l b : total (l ++ [b]) = total l + fst b.
Proof. rewrite total_app. unfold total at 2. simpl. lia. Qed.

Lemma total_coalesced l1 s l2 : total (coalesced l1 s l2) = total l1 + s + total l2.
Proof.
  unfold coalesced, drop_prev_free, drop_next_free, prev_free_size, next_free_size.
  rewrite total_app, total_cons. simpl fst.
  assert (total (if snd (prev_block l1) then l1 else removelast l1) +
          (if snd (prev_block l1) then 0 else fst (prev_block l1)) = total l1) as E1.
  { destruct l1 as [|b l1 _] using rev_ind; [simpl; lia|].
    rewrite prev_block_snoc. destruct (snd b); [lia|].
    rewrite removelast_last, total_snoc. lia. }
  assert ((if snd (next_block l2) then 0 else fst (next_block l2)) +
          total (if snd (next_block l2) then l2 else tail l2) = total l2) as E2.
  { destruct l2 as [|b l2]; [simpl; lia|].
    change (next_block (b :: l2)) with b. destruct (snd b); [lia|].
    simpl tail. rewrite total_cons. lia. }
  lia.
Qed.

Lemma total_drop_prev l1 : total (drop_prev_free l1) = total l1 - prev_free_size l1.
Proof.
  unfold drop_prev_free, prev_free_size.
  destruct l1 as [|b l1 _] using rev_ind; [simpl; lia|].
  rewrite prev_block_snoc. destruct (snd b); [lia|].
  rewrite removelast_last, total_snoc. lia.
Qed.

Lemma mm_free_spec st l1 s l2 Ls fuel :
  heap_inv st (l1 ++ (s, true) :: l2) Ls ->
  (length (l1 ++ (s, true) :: l2) <= S fuel)%nat ->
  exists st' Ls',
    mm_free fuel st (first_block st + total l1) = Done st' /\
    heap_inv st' (coalesced l1 s l2) Ls' /\
    same_region st st' /\
    unchanged_outside (free_span (first_block st) (l1 ++ (s, false) :: l2)) (mem st) (mem st').
Proof.
  intros (Hok & Hlists & Htm & Hnaf) Hfuel.
  set (bp := first_block st + total l1) in *.
  assert ((bp, (s, true)) ∈ layout (first_block st) (l1 ++ (s, true) :: l2)) as Hbp
    by apply layout_mid.
  destruct (block_facts _ _ Hok _ _ Hbp) as (Hlo & Hhi & Hbp16 & Hs32 & Hs16 & Hh & Hf & Hbs).
  simpl in Hhi, Hs32, Hs16, Hh, Hf, Hbs.
  pose proof (heap_brk_bound _ _ Hok) as [_ Hbrk].
  pose proof (ok_base_pos _ _ Hok) as Hbase.
  unfold first_block in Hlo.
  unfold mm_free, HDRP, WSIZE.
  rewrite (GET_SIZE_tag st _ (s, true)); [|valid_tac|exact Hh|simpl; lia|exact Hs16].
  rewrite bind_Done. simpl fst.
  change (PACK s 0) with (tag (s, false)).
  rewrite PUT_valid by valid_tac. rewrite bind_Done.
  rewrite (FTRP_tag _ bp (s, false)); [|valid_tac|load_tac|simpl; lia|exact Hs16].
  rewrite bind_Done. simpl fst.
  rewrite PUT_valid by valid_tac. rewrite bind_Done.
  match goal with |- context [coalesce fuel ?s0 _] => set (std := s0) end.
  assert (total [(s, true)] = s) as HT by (unfold total; simpl; lia).
  assert (heap_ok st (l1 ++ [(s, true)] ++ l2)) as Hok0 by exact Hok.
  assert (table_matches st (l1 ++ [(s, true)] ++ l2) Ls (fun _ => False)) as Htm0 by exact Htm.
  destruct (heap_retag st std l1 [(s, true)] [(s, false)] l2 Ls _ (fun y => y = bp)
              Hok0 Hlists Htm0)
    as (Hokd & Hlistsd & Htmd).
  { repeat split; auto. }
  { reflexivity. }
  { rewrite HT. fold bp. unfold std. simpl mem.
    repeat (eapply unchanged_trans; [|apply unchanged_store64; intros a Ha; cbv beta; lia]).
    apply unchanged_refl. }
  { repeat constructor; simpl; auto; lia. }
  { unfold total. simpl. lia. }
  { fold bp. simpl. unfold std. repeat split; load_tac. }
  { intros x s' Hx. simpl in Hx. apply list_elem_of_singleton in Hx. discriminate. }
  { intros x []. }
  { intros x s' Hx. simpl in Hx. apply list_elem_of_singleton in Hx.
    injection Hx as -> _. reflexivity. }
  { intros x ->. rewrite HT. fold bp. lia. }
  destruct (coalesce_spec std l1 s l2 Ls fuel Hokd Hlistsd Htmd)
    as (st' & Ls' & Hco & Hok' & Hlists' & Htm' & Hsame' & Hun').
  { rewrite length_app in *. simpl in *. lia. }
  change (first_block std) with (first_block st) in Hco, Hun'. fold bp in Hco.
  rewrite Hco, bind_Done.
  exists st', Ls'. split; [reflexivity|].
  split.
  { split; [exact Hok'|]. split; [exact Hlists'|]. split; [exact Htm'|].
    apply no_adj_free_mid in Hnaf as (H1 & H2 & _). apply no_adj_free_coalesced; auto. }
  split.
  { destruct Hsame' as (?&?&?&?). repeat split; auto. }
  apply (unchanged_trans _ _ (mem std)); [|exact Hun'].
  unfold std. simpl mem.
  repeat (eapply unchanged_trans;
          [|apply unchanged_store64; intros a Ha; exists bp, s; split; [apply layout_mid|lia]]).
  apply unchanged_refl.
Qed.

(** * Heap growth *)

Lemma round_even_facts words :
  0 < words -> 2 <= round_even words /\ round_even words mod 2 = 0 /\
               words <= round_even words <= words + 1 /\
               (round_even words * 8) mod 16 = 0.
Proof.
  intros H. unfold round_even. destruct (Z.eqb_spec (words mod 2) 0); lia_mod.
Qed.

(** What [extend_heap] does before it calls [coalesce]. *)
Lemma extend_heap_run st words fuel :
  0 < words -> round_even words * 8 < 2 ^ 64 ->
  mem_start_brk st + 8 <= mem_brk st -> mem_max_addr st < SIZE_MAX ->
  (mem_brk st + round_even words * 8 <= mem_max_addr st ->
   exists st4,
     extend_heap fuel st words = coalesce fuel st4 (mem_brk st) /\
     mem_brk st4 = mem_brk st + round_even words * 8 /\
     mem_start_brk st4 = mem_start_brk st /\ mem_max_addr st4 = mem_max_addr st /\
     heap_listp st4 = heap_listp st /\ seg_list st4 = seg_list st /\
     load64 (mem st4) (mem_brk st - 8) = PACK (round_even words * 8) 0 /\
     load64 (mem st4) (mem_brk st + round_even words * 8 - 16) = PACK (round_even words * 8) 0 /\
     load64 (mem st4) (mem_brk st + round_even words * 8 - 8) = PACK 0 1 /\
     unchanged_outside
       (fun a => mem_brk st - 8 <= a < mem_brk st + round_even words * 8) (mem st) (mem st4)) /\
  (mem_max_addr st < mem_brk st + round_even words * 8 ->
   extend_heap fuel st words = Done (st, NULL)).
Proof.
  intros Hw Hsize Hstart Hbrk.
  destruct (round_even_facts words Hw) as (Hre2 & Hre & Hrw & H16).
  set (size := round_even words * 8) in *.
  assert ((if negb (words mod 2 =? 0) then wrap ((words + 1) * WSIZE) else wrap (words * WSIZE))
          = size) as Esize.
  { unfold size, round_even, WSIZE.
    destruct (Z.eqb_spec (words mod 2) 0); simpl; apply wrap_small; unfold size, round_even in *;
      destruct (Z.eqb_spec (words mod 2) 0); try contradiction; lia. }
  unfold extend_heap. rewrite Esize. unfold mem_sbrk.
  split.
  - intros Hfit. destruct (Z.leb_spec (mem_brk st + size) (mem_max_addr st)); [|lia].
    destruct (Z.eqb_spec (mem_brk st) SIZE_MAX) as [E|_]; [lia|].
    unfold HDRP, WSIZE.
    change (PACK size 0) with (tag (size, false)).
    rewrite PUT_valid by valid_tac. rewrite bind_Done.
    rewrite (FTRP_tag _ (mem_brk st) (size, false)); [|valid_tac|load_tac|simpl; lia|exact H16].
    rewrite bind_Done. simpl fst.
    rewrite PUT_valid by valid_tac. rewrite bind_Done.
    rewrite (NEXT_BLKP_tag _ (mem_brk st) (size, false));
      [|valid_tac|load_tac|simpl; lia|exact H16].
    rewrite bind_Done. simpl fst.
    change (PACK 0 1) with (tag (0, true)).
    rewrite PUT_valid by valid_tac. rewrite bind_Done.
    eexists. split; [reflexivity|]. simpl.
    repeat split; try reflexivity; try load_tac.
    repeat (eapply unchanged_trans; [|apply unchanged_store64; intros a Ha; cbv beta; lia]).
    apply unchanged_refl.
  - intros Hfail. destruct (Z.leb_spec (mem_brk st + size) (mem_max_addr st)); [lia|].
    reflexivity.
Qed.

(** C9: [extend_heap] asks [mem_sbrk] for the word count rounded up to even,
    times 8 bytes; when the region grows it tags the new span as one free
    block, writes a fresh epilogue header after it and hands the block to
    [coalesce]; when the region cannot grow it returns [NULL] and the state
    is the one it was called in. *)
Theorem extend_heap_grows_or_fails st words fuel :
  0 < words -> round_even words * 8 < 2 ^ 64 ->
  mem_start_brk st + 8 <= mem_brk st -> mem_max_addr st < SIZE_MAX ->
  (mem_brk st + round_even words * 8 <= mem_max_addr st ->
   exists st4,
     extend_heap fuel st words = coalesce fuel st4 (mem_brk st) /\
     mem_brk st4 = mem_brk st + round_even words * 8 /\
     mem_start_brk st4 = mem_start_brk st /\ mem_max_addr st4 = mem_max_addr st /\
     heap_listp st4 = heap_listp st /\ seg_list st4 = seg_list st /\
     load64 (mem st4) (mem_brk st - 8) = PACK (round_even words * 8) 0 /\
     load64 (mem st4) (mem_brk st + round_even words * 8 - 16) = PACK (round_even words * 8) 0 /\
     load64 (mem st4) (mem_brk st + round_even words * 8 - 8) = PACK 0 1 /\
     unchanged_outside
       (fun a => mem_brk st - 8 <= a < mem_brk st + round_even words * 8) (mem st) (mem st4)) /\
  (mem_max_addr st < mem_brk st + round_even words * 8 ->
   extend_heap fuel st words = Done (st, NULL)).
Proof. apply extend_heap_run. Qed.

Lemma extend_heap_spec st bl Ls words fuel :
  heap_inv st bl Ls -> 4 <= words -> round_even words * 8 < 2 ^ 64 ->
  (length bl <= fuel)%nat ->
  mem_brk st + round_even words * 8 <= mem_max_addr st ->
  exists st' Ls',
    extend_heap fuel st words = Done (st', mem_brk st - prev_free_size bl) /\
    heap_inv st' (coalesced bl (round_even words * 8) []) Ls' /\
    mem_start_brk st' = mem_start_brk st /\ mem_max_addr st' = mem_max_addr st /\
    heap_listp st' = heap_listp st /\
    mem_brk st' = mem_brk st + round_even words * 8 /\
    unchanged_outside (fun a => free_span (first_block st) bl a \/ mem_brk st - 8 <= a)
      (mem st) (mem st').
Proof.
  intros (Hok & Hlists & Htm & Hnaf) Hw Hsize Hfuel Hfit.
  destruct (round_even_facts words ltac:(lia)) as (Hre2 & Hre & Hrw & H16).
  set (size := round_even words * 8) in *.
  assert (32 <= size) as H32 by (clear - Hw Hrw; unfold size; lia).
  pose proof (heap_brk_bound _ _ Hok) as [Hfbrk Hbrk].
  pose proof (ok_base_pos _ _ Hok) as Hbase.
  pose proof (ok_max _ _ Hok) as [_ Hmax].
  pose proof (ok_sizes _ _ Hok) as Hsz.
  pose proof (ok_brk _ _ Hok) as Ebrk.
  destruct (extend_heap_run st words fuel ltac:(lia) Hsize) as [Hrun _].
  { unfold first_block in Hfbrk. lia. }
  { exact Hmax. }
  destruct (Hrun Hfit) as (st4 & Hext & Hb4 & Hs4 & Hm4 & Hh4 & Hseg4 & Hl1 & Hl2 & Hl3 & Hun4).
  fold size in Hext, Hb4, Hl1, Hl2, Hl3, Hun4. clear Hrun.
  assert (first_block st4 = first_block st) as Hfb4 by (unfold first_block; rewrite Hs4; auto).
  assert (sizes_ok (bl ++ [(size, false)])) as Hsz4.
  { apply sizes_ok_app. split; [auto|]. repeat constructor; simpl; auto. }
  assert (forall q, q + 8 <= mem_brk st - 8 -> load64 (mem st4) q = load64 (mem st) q) as Hold.
  { intros q Hq. apply (load64_unchanged _ _ _ _ Hun4). intros a Ha. cbv beta. lia. }
  assert (heap_ok st4 (bl ++ [(size, false)])) as Hok4.
  { pose proof (ok_blocks _ _ Hok) as Hblocks.
    destruct Hok. constructor; rewrite ?Hs4, ?Hm4, ?Hh4, ?Hfb4, ?Hb4; auto.
    - rewrite Hold; auto. unfold first_block in *. lia.
    - rewrite Hold; auto. unfold first_block in *. lia.
    - apply blocks_at_app. split.
      + eapply blocks_at_unchanged; [exact Hun4| |exact Hblocks].
        intros x b a Hx Ha. pose proof (layout_bounds _ _ _ _ Hsz Hx).
        pose proof (layout_sizes _ _ _ _ Hsz Hx). cbv beta. lia.
      + rewrite <- Ebrk. simpl. auto.
    - rewrite total_snoc. simpl. lia. }
  assert (forall i y, y ∈ Ls i -> y + 32 <= mem_brk st) as Hmem.
  { intros i y Hy. destruct (member_free _ _ _ _ Htm i y Hy) as (s & Hs & _).
    destruct (block_facts _ _ Hok _ _ Hs) as (_ & Hhi & _ & Hs32 & _).
    simpl in Hhi, Hs32. lia. }
  assert (lists_ok st4 Ls) as Hlists4.
  { eapply lists_ok_grow; eauto; [unfold SIZE_MAX, SIZE_MOD in Hmax; lia|].
    intros i y a Hy Ha. specialize (Hmem i y Hy). cbv beta. lia. }
  assert (table_matches st4 (bl ++ [(size, false)]) Ls
            (fun y => y = first_block st4 + total bl)) as Htm4.
  { constructor; rewrite Hfb4.
    - intros i y Hy. destruct (member_free _ _ _ _ Htm i y Hy) as (s & Hs & Hi & _).
      specialize (Hmem i y Hy). split; [lia|].
      exists s. split; [|exact Hi]. rewrite layout_app. apply elem_of_app. left. exact Hs.
    - intros y s Hy HX. rewrite layout_app in Hy. apply elem_of_app in Hy as [Hy|Hy].
      + eapply (tm_complete _ _ _ _ Htm); eauto.
      + simpl in Hy. apply list_elem_of_singleton in Hy. injection Hy as -> _. contradiction. }
  destruct (coalesce_spec st4 bl size [] Ls fuel Hok4 Hlists4 Htm4)
    as (st' & Ls' & Hco & Hok' & Hlists' & Htm' & Hsame' & Hun').
  { rewrite length_app. simpl. lia. }
  rewrite Hfb4, <- Ebrk in Hco. rewrite Hext, Hco.
  destruct Hsame' as (Hs1' & Hs2' & Hs3' & Hs4').
  exists st', Ls'. split; [reflexivity|].
  split.
  { split; [exact Hok'|]. split; [exact Hlists'|]. split; [exact Htm'|].
    apply no_adj_free_coalesced; simpl; auto. }
  repeat split; try congruence.
  apply (unchanged_trans _ _ (mem st4)).
  - eapply unchanged_weaken; [|exact Hun4]. intros a Ha. cbv beta in Ha. right. lia.
  - eapply unchanged_weaken; [|exact Hun']. rewrite Hfb4.
    intros a (x & s & Hx & Ha). rewrite layout_app in Hx. apply elem_of_app in Hx as [Hx|Hx].
    + left. exists x, s. auto.
    + simpl in Hx. apply list_elem_of_singleton in Hx. injection Hx as -> <-. right. lia.
Qed.

(** * The allocated blocks *)

Lemma allocs_app l1 : forall p l2,
  allocs p (l1 ++ l2) = allocs p l1 ++ allocs (p + total l1) l2.
Proof.
  induction l1 as [|b l1 IH]; intros p l2; simpl.
  - f_equal. unfold total. simpl. lia.
  - rewrite IH, total_cons, <- app_assoc. do 3 f_equal. lia.
Qed.

Lemma elem_of_allocs bl : forall p x s,
  (x, s) ∈ allocs p bl <-> (x, (s, true)) ∈ layout p bl.
Proof.
  induction bl as [|[s0 a] bl IH]; intros p x s; simpl.
  - split; intros H; inversion H.
  - rewrite elem_of_app, elem_of_cons, IH. destruct a; simpl.
    + rewrite list_elem_of_singleton. split; intros [H|H]; auto; left; congruence.
    + split; [intros [H|H]; [inversion H|auto]|]. intros [H|H]; [discriminate|auto].
Qed.

Lemma allocs_drop_prev p l1 : allocs p (drop_prev_free l1) = allocs p l1.
Proof.
  unfold drop_prev_free. destruct l1 as [|b l1 _] using rev_ind; [reflexivity|].
  rewrite prev_block_snoc. destruct (snd b) eqn:E; [reflexivity|].
  rewrite removelast_last, allocs_app. simpl. rewrite E. simpl. rewrite app_nil_r. reflexivity.
Qed.

Lemma allocs_drop_next q l2 :
  allocs (q + next_free_size l2) (drop_next_free l2) = allocs q l2.
Proof.
  unfold drop_next_free, next_free_size. destruct l2 as [|b l2].
  - reflexivity.
  - change (next_block (b :: l2)) with b. destruct (snd b) eqn:E.
    + replace (q + 0) with q by lia. reflexivity.
    + simpl. rewrite E. reflexivity.
Qed.

Lemma allocs_coalesced p l1 s l2 :
  allocs p (coalesced l1 s l2) = allocs p l1 ++ allocs (p + total l1 + s) l2.
Proof.
  unfold coalesced. rewrite allocs_app, allocs_drop_prev. f_equal. simpl.
  rewrite total_drop_prev.
  replace (p + (total l1 - prev_free_size l1) + (prev_free_size l1 + s + next_free_size l2))
    with (p + total l1 + s + next_free_size l2) by lia.
  apply allocs_drop_next.
Qed.

Lemma allocs_mid p l1 b l2 :
  allocs p (l1 ++ b :: l2) =
  allocs p l1 ++ (if snd b then [(p + total l1, fst b)] else []) ++
  allocs (p + total l1 + fst b) l2.
Proof. rewrite allocs_app. reflexivity. Qed.

(** * The table as the fit search sees it *)

Lemma lists_ok_bucket st Ls i :
  lists_ok st Ls -> (i < N_LISTS)%nat -> bucket_list st i (Ls i).
Proof.
  intros Hok Hi. split.
  - eapply dllseg_succ_chain. apply (lo_dll _ _ Hok i Hi).
  - apply Forall_forall. intros x Hx.
    destruct (lo_member _ _ Hok i x Hx) as (_ & Hlo & Hhi).
    rewrite !valid_word_iff. lia.
Qed.

Lemma first_best_fits st asize L r :
  first_best st asize L r -> r ∈ L /\ asize <= block_size st r.
Proof.
  intros (l1 & l2 & -> & H & _). split; [|exact H].
  apply elem_of_app. right. left.
Qed.

Lemma alloc_payload_allocs p0 bl a :
  alloc_payload p0 bl a <-> exists x s, (x, s) ∈ allocs p0 bl /\ x <= a < x + s - 16.
Proof.
  unfold alloc_payload. split; intros (x & s & Hx & Ha); exists x, s;
    (split; [apply elem_of_allocs; exact Hx|exact Ha]).
Qed.

(** * Placement keeps the heap well formed *)

Lemma place_inv st l1 csize l2 Ls asize fuel :
  heap_inv st (l1 ++ (csize, false) :: l2) Ls ->
  32 <= asize <= csize -> asize mod 16 = 0 ->
  (length (l1 ++ (csize, false) :: l2) <= fuel)%nat ->
  exists st' bl' Ls' s,
    place fuel st (first_block st + total l1) asize = Done st' /\
    heap_inv st' bl' Ls' /\ same_region st st' /\ asize <= s /\
    allocs (first_block st) bl' =
      allocs (first_block st) l1 ++ (first_block st + total l1, s) ::
      allocs (first_block st + total l1 + csize) l2 /\
    unchanged_outside (free_span (first_block st) (l1 ++ (csize, false) :: l2))
      (mem st) (mem st') /\
    (length bl' <= length (l1 ++ (csize, false) :: l2) + 1)%nat.
Proof.
  intros (Hok & Hlists & Htm & Hnaf) Hasize H16 Hfuel.
  destruct (place_spec st l1 csize l2 Ls asize fuel Hok Hlists Htm Hasize H16 Hfuel)
    as (st' & la & lb & Hrun & HL & Hsame & Hun & Hres).
  apply no_adj_free_mid in Hnaf as (Hn1 & Hn2 & Hnp & Hnn).
  simpl in Hnp, Hnn.
  destruct Hnp as [Hnp|]; [|discriminate]. destruct Hnn as [|Hnn]; [discriminate|].
  cbv zeta in Hres. destruct (decide (32 <= csize - asize)) as [Hsplit|Hnosplit].
  - destruct Hres as (lc & ld & HL' & Hok' & Hlists' & Htm').
    eexists st', (l1 ++ (asize, true) :: (csize - asize, false) :: l2), _, asize.
    split; [exact Hrun|]. split.
    { split; [exact Hok'|]. split; [exact Hlists'|]. split; [exact Htm'|].
      apply no_adj_free_mid. split; [auto|]. split.
      - apply no_adj_free_cons. auto.
      - simpl. auto. }
    split; [exact Hsame|]. split; [lia|]. split.
    { rewrite allocs_mid. simpl. do 3 f_equal. lia. }
    split; [exact Hun|]. rewrite !length_app. simpl. lia.
  - destruct Hres as (Hok' & Hlists' & Htm').
    eexists st', (l1 ++ (csize, true) :: l2), _, csize.
    split; [exact Hrun|]. split.
    { split; [exact Hok'|]. split; [exact Hlists'|]. split; [exact Htm'|].
      apply no_adj_free_mid. simpl. auto. }
    split; [exact Hsame|]. split; [lia|]. split.
    { rewrite allocs_mid. reflexivity. }
    split; [exact Hun|]. rewrite !length_app. simpl. lia.
Qed.

(** * Allocation *)

Lemma MAX_CHUNKSIZE asize :
  0 <= asize -> asize mod 16 = 0 ->
  let e := MAX asize CHUNKSIZE in
  asize <= e /\ 4096 <= e /\ e mod 16 = 0 /\ (e = asize \/ e = 4096) /\
  round_even (e / WSIZE) * 8 = e /\ 4 <= e / WSIZE.
Proof.
  intros H32 H16. unfold MAX, CHUNKSIZE, WSIZE. change (Z.shiftl 1 12) with 4096.
  assert (forall e, 4096 <= e -> e mod 16 = 0 -> round_even (e / 8) * 8 = e /\ 4 <= e / 8) as H.
  { intros e He He16. unfold round_even.
    destruct (Z.eqb_spec ((e / 8) mod 2) 0); lia_mod. }
  destruct (Z.gtb_spec asize 4096); cbv zeta.
  - destruct (H asize); [lia|auto|]. repeat split; auto; lia.
  - destruct (H 4096); [lia|reflexivity|]. repeat split; auto; lia.
Qed.

Lemma mm_malloc_spec st bl Ls size fuel :
  heap_inv st bl Ls -> 0 < size <= 2 ^ 64 - 32 -> (length bl < fuel)%nat ->
  exists st' p, mm_malloc fuel st size = Done (st', p) /\
    ((p = NULL /\ st' = st) \/
     (p <> NULL /\ exists bl' Ls' s A1 A2,
        heap_inv st' bl' Ls' /\
        allocs (first_block st) bl = A1 ++ A2 /\
        allocs (first_block st) bl' = A1 ++ (p, s) :: A2 /\
        size + 16 <= s /\
        mem_start_brk st' = mem_start_brk st /\ mem_max_addr st' = mem_max_addr st /\
        heap_listp st' = heap_listp st /\ mem_brk st <= mem_brk st' /\
        (forall a, alloc_payload (first_block st) bl a ->
                   load_byte (mem st') a = load_byte (mem st) a) /\
        (length bl' <= length bl + 2)%nat)).
Proof.
  intros Hinv Hsize Hfuel. pose proof Hinv as (Hok & Hlists & Htm & Hnaf).
  destruct (adjusted_size_bounds size Hsize) as (Ha32 & Ha16 & Hasz & Hamax).
  set (asize := adjusted_size size) in *.
  pose proof (ok_sizes _ _ Hok) as Hsz.
  pose proof (ok_base_pos _ _ Hok) as Hbase.
  unfold mm_malloc. destruct (Z.eqb_spec size 0) as [|_]; [lia|]. fold asize. cbv zeta.
  destruct (find_fit_correct st asize fuel Ls ltac:(lia)) as (r & Hfind & Hr).
  { intros i Hi. split; [apply lists_ok_bucket; auto|].
    pose proof (bucket_length st bl Ls _ Hlists Htm i). lia. }
  rewrite Hfind, bind_Done.
  destruct Hr as [[-> Hnone]|(Hnz & k & Hk & Hfb & _)].
  - (* no fit: grow the heap *)
    destruct (Z.eqb_spec NULL NULL) as [_|]; [|contradiction]. simpl negb. cbv iota.
    destruct (MAX_CHUNKSIZE asize ltac:(lia) Ha16) as (He1 & He2 & He16 & He & Hre & Hw).
    set (e := MAX asize CHUNKSIZE) in *.
    pose proof (heap_brk_bound _ _ Hok) as [Hfbrk Hbrk].
    pose proof (ok_max _ _ Hok) as [_ Hmax].
    destruct (Z_le_dec (mem_brk st + e) (mem_max_addr st)) as [Hfit|Hnofit].
    + destruct (extend_heap_spec st bl Ls (e / WSIZE) fuel Hinv Hw)
        as (st1 & Ls1 & Hext & Hinv1 & Hs1 & Hm1 & Hh1 & Hb1 & Hun1);
        rewrite ?Hre; try lia.
      rewrite Hre in *. rewrite Hext, bind_Done.
      assert (first_block st1 = first_block st) as Hfb1
        by (unfold first_block; rewrite Hs1; reflexivity).
      assert (mem_brk st - prev_free_size bl = first_block st1 + total (drop_prev_free bl)) as Ep.
      { rewrite Hfb1, total_drop_prev, (ok_brk _ _ Hok). lia. }
      assert (0 <= prev_free_size bl /\ 0 <= total (drop_prev_free bl)) as [Hpfs Htd].
      { pose proof Hinv1 as (Hok1 & _). pose proof (ok_sizes _ _ Hok1) as Hsz1.
        unfold coalesced in Hsz1. apply sizes_ok_app in Hsz1 as [Hsz1 _].
        pose proof (total_nonneg _ Hsz1). split; [|lia].
        unfold prev_free_size. destruct (snd (prev_block bl)); [lia|].
        destruct (prev_block_cases bl) as [[_ ->]|(l' & Hl')]; [unfold DSIZE; simpl; lia|].
        rewrite Hl' in Hsz. apply sizes_ok_app in Hsz as [_ Hsz].
        apply sizes_ok_cons in Hsz as [[? _] _]. lia. }
      destruct (Z.eqb_spec (mem_brk st - prev_free_size bl) NULL) as [E|_].
      { exfalso. unfold NULL, first_block in *. lia. }
      rewrite Ep.
      destruct (place_inv st1 (drop_prev_free bl) (prev_free_size bl + e + next_free_size [])
                  (drop_next_free []) Ls1 asize fuel Hinv1)
        as (st' & bl' & Ls' & s & Hplace & Hinv' & Hsame' & Hs & Hallocs & Hun' & Hlen');
        auto.
      { unfold next_free_size. simpl. lia. }
      { fold (coalesced bl e []).
        assert (length (coalesced bl e []) <= length bl + 1)%nat; [|lia].
        unfold coalesced, drop_prev_free, drop_next_free. simpl.
        destruct (snd (prev_block bl)); rewrite length_app; simpl; [lia|].
        destruct bl as [|b0 bl0 _] using rev_ind; [simpl; lia|].
        rewrite removelast_last, length_app. simpl. lia. }
      rewrite Hplace, bind_Done. rewrite <- Ep.
      eexists st', _. split; [reflexivity|]. right.
      split; [unfold NULL, first_block in *; lia|].
      destruct Hsame' as (Hs1' & Hs2' & Hs3' & Hs4').
      exists bl', Ls', s, (allocs (first_block st) bl), [].
      split; [exact Hinv'|]. split; [rewrite app_nil_r; reflexivity|].
      split.
      { rewrite Hfb1 in Hallocs. rewrite Hallocs, allocs_drop_prev.
        rewrite <- Hfb1, <- Ep. reflexivity. }
      split; [lia|]. repeat split; try congruence; try lia.
      * intros a Ha. rewrite (Hun' a), (Hun1 a); auto.
        -- intros [Hf|Hf]; [eapply alloc_payload_not_free_span; eauto|].
           destruct Ha as (x & s0 & Hx & Ha).
           destruct (block_facts _ _ Hok _ _ Hx) as (_ & Hhi & _). simpl in Hhi. lia.
        -- fold (coalesced bl e []). rewrite Hfb1.
           pose proof Hinv1 as (Hok1 & _).
           apply alloc_payload_not_free_span; [apply (ok_sizes _ _ Hok1)|].
           apply alloc_payload_allocs. rewrite allocs_coalesced. simpl. rewrite app_nil_r.
           apply alloc_payload_allocs. exact Ha.
      * fold (coalesced bl e []) in Hlen'.
        assert (length (coalesced bl e []) <= length bl + 1)%nat; [|lia].
        unfold coalesced, drop_prev_free, drop_next_free. simpl.
        destruct (snd (prev_block bl)); rewrite length_app; simpl; [lia|].
        destruct bl as [|b0 bl0 _] using rev_ind; [simpl; lia|].
        rewrite removelast_last, length_app. simpl. lia.
    + destruct (extend_heap_run st (e / WSIZE) fuel) as [_ Hfail]; rewrite ?Hre; try lia.
      { unfold first_block in Hfbrk. lia. }
      rewrite Hfail by (rewrite Hre; lia). rewrite bind_Done.
      destruct (Z.eqb_spec NULL NULL) as [_|]; [|contradiction].
      eexists st, _. split; [reflexivity|]. left. auto.
  - (* a fit was found *)
    destruct (Z.eqb_spec r NULL) as [|_]; [contradiction|]. simpl negb. cbv iota.
    destruct (first_best_fits _ _ _ _ Hfb) as [Hin Hfits].
    destruct (member_free _ _ _ _ Htm k r Hin) as (s & Hs & _ & _).
    destruct (block_facts _ _ Hok _ _ Hs) as (_ & _ & _ & _ & _ & _ & _ & Hbs).
    simpl in Hbs. rewrite Hbs in Hfits.
    apply layout_elem in Hs as (l1 & l2 & -> & ->).
    destruct (place_inv st l1 s l2 Ls asize fuel Hinv)
      as (st' & bl' & Ls' & s' & Hplace & Hinv' & Hsame' & Hs' & Hallocs & Hun' & Hlen'); auto.
    { lia. }
    rewrite Hplace, bind_Done.
    eexists st', _. split; [reflexivity|]. right. split; [exact Hnz|].
    destruct Hsame' as (Hs1' & Hs2' & Hs3' & Hs4').
    exists bl', Ls', s', (allocs (first_block st) l1),
      (allocs (first_block st + total l1 + s) l2).
    split; [exact Hinv'|]. split; [rewrite allocs_mid; reflexivity|].
    split; [exact Hallocs|]. split; [lia|]. repeat split; try congruence; try lia.
    intros a Ha. apply Hun'. eapply alloc_payload_not_free_span; eauto.
Qed.

(** * Initialisation *)

Lemma mm_init_run m base limit fuel :
  0 < base -> limit < SIZE_MAX ->
  mm_init fuel (fresh_state m base limit) =
  if base + 32 <=? limit then
    '(st, bp) ← extend_heap fuel (prologue_state m base limit) (CHUNKSIZE / WSIZE);
    if bp =? NULL then Done (st, -1) else Done (st, 0)
  else Done (set_heap_listp (fresh_state m base limit) SIZE_MAX, -1).
Proof.
  intros Hbase Hlimit. unfold mm_init. cbn [foldl seq N_LISTS].
  unfold mem_sbrk. cbn [mem_brk mem_max_addr seg_set fresh_state set_seg_list seg_list
                        mem mem_start_brk heap_listp].
  change (4 * WSIZE) with 32. simpl insert.
  destruct (Z.leb_spec (base + 32) limit) as [Hfit|Hnofit].
  - cbn [set_brk set_heap_listp mem mem_start_brk mem_brk mem_max_addr heap_listp seg_list].
    destruct (Z.eqb_spec base SIZE_MAX) as [E|_]; [lia|].
    unfold WSIZE.
    rewrite PUT_valid by valid_tac. rewrite bind_Done.
    rewrite PUT_valid by valid_tac. rewrite bind_Done.
    rewrite PUT_valid by valid_tac. rewrite bind_Done.
    rewrite PUT_valid by valid_tac. rewrite bind_Done.
    reflexivity.
  - destruct (Z.eqb_spec SIZE_MAX SIZE_MAX) as [_|]; [|contradiction]. reflexivity.
Qed.

Lemma seg_get_replicate (st : state) i :
  seg_list st = replicate N_LISTS 0 -> (i < N_LISTS)%nat -> seg_get st i = NULL.
Proof.
  intros H Hi. unfold seg_get. rewrite H.
  apply list_lookup_total_correct, lookup_replicate_2. exact Hi.
Qed.

Lemma prologue_state_inv m base limit :
  0 < base -> base mod 16 = 0 -> base + 32 <= limit -> limit < SIZE_MAX ->
  heap_inv (prologue_state m base limit) [] (fun _ => []).
Proof.
  intros Hbase H16 Hfit Hlimit. split; [|split; [|split]].
  - constructor; cbn [prologue_state mem mem_start_brk mem_brk mem_max_addr heap_listp];
      auto; try lia.
    + change (PACK DSIZE 1) with (tag (16, true)). load_tac.
    + change (PACK DSIZE 1) with (tag (16, true)). load_tac.
    + constructor.
    + simpl. auto.
    + unfold first_block, total. simpl. lia.
    + replace (base + 32 - 8) with (base + 24) by lia.
      change (PACK 0 1) with (tag (0, true)). load_tac.
  - constructor; cbn [prologue_state seg_list mem mem_start_brk mem_brk].
    + apply length_replicate.
    + intros i Hi. simpl. apply seg_get_replicate; auto.
    + intros i. constructor.
    + intros i j x Hx. inversion Hx.
    + intros i x Hx. inversion Hx.
    + unfold SIZE_MAX, SIZE_MOD in Hlimit. lia.
    + lia.
  - constructor.
    + intros i x Hx. inversion Hx.
    + intros x s Hx. inversion Hx.
  - simpl. auto.
Qed.

Lemma mm_init_spec m base limit fuel :
  0 < base -> base mod 16 = 0 -> limit < SIZE_MAX ->
  if decide (base + 32 + 4096 <= limit) then
    exists st Ls,
      mm_init fuel (fresh_state m base limit) = Done (st, 0) /\
      heap_inv st [(4096, false)] Ls /\
      mem_start_brk st = base /\ mem_max_addr st = limit
  else
    exists st, mm_init fuel (fresh_state m base limit) = Done (st, -1).
Proof.
  intros Hbase H16 Hlimit. rewrite mm_init_run by auto.
  assert (CHUNKSIZE / WSIZE = 512) as -> by reflexivity.
  assert (round_even 512 * 8 = 4096) as Hre by reflexivity.
  destruct (decide (base + 32 + 4096 <= limit)) as [Hfit|Hnofit].
  - destruct (Z.leb_spec (base + 32) limit); [|lia].
    destruct (extend_heap_spec (prologue_state m base limit) [] (fun _ => []) 512 fuel)
      as (st & Ls & Hext & Hinv & Hs & Hm & Hh & Hb & Hun);
      rewrite ?Hre; simpl; try lia.
    { apply prologue_state_inv; auto; lia. }
    rewrite Hext, bind_Done. simpl.
    unfold prev_free_size. simpl.
    destruct (Z.eqb_spec (base + 32 - 0) NULL) as [E|_]; [unfold NULL in E; lia|].
    exists st, Ls. split; [reflexivity|]. split; [|auto].
    rewrite Hre in Hinv. exact Hinv.
  - destruct (Z.leb_spec (base + 32) limit) as [Hfit0|]; [|eauto].
    destruct (extend_heap_run (prologue_state m base limit) 512 fuel) as [_ Hfail];
      rewrite ?Hre; simpl; try lia.
    rewrite Hfail by (rewrite Hre; simpl; lia). rewrite bind_Done.
    destruct (Z.eqb_spec NULL NULL) as [_|]; [|contradiction]. eauto.
Qed.

(** * Writes into allocated payloads *)

Lemma heap_inv_payload st st' bl Ls :
  heap_inv st bl Ls ->
  same_region st st' -> seg_list st' = seg_list st ->
  unchanged_outside (alloc_payload (first_block st) bl) (mem st) (mem st') ->
  heap_inv st' bl Ls.
Proof.
  intros (Hok & Hlists & Htm & Hnaf) Hsame Hseg Hun.
  pose proof (ok_sizes _ _ Hok) as Hsz.
  pose proof (first_block_same _ _ Hsame) as Hfb.
  assert (forall a, alloc_payload (first_block st) bl a ->
          first_block st <= a < mem_brk st - 16) as Hin.
  { intros a (x & s & Hx & Ha). destruct (block_facts _ _ Hok _ _ Hx) as (H1 & H2 & _).
    simpl in *. lia. }
  split; [|split; [|split]]; auto.
  - pose proof Hsame as (Hs1 & Hs2 & Hs3 & Hs4).
    assert (forall q, q + 8 <= first_block st \/ mem_brk st - 16 <= q ->
            load64 (mem st') q = load64 (mem st) q) as Hout.
    { intros q Hq. apply (load64_unchanged _ _ _ _ Hun). intros a Ha HDa.
      apply Hin in HDa. lia. }
    destruct Hok. constructor; rewrite ?Hs1, ?Hs2, ?Hs3, ?Hs4, ?Hfb; auto.
    + rewrite Hout; auto. unfold first_block. lia.
    + rewrite Hout; auto. unfold first_block. lia.
    + eapply blocks_at_unchanged; [exact Hun| |eauto].
      intros x b a Hx Ha (y & s & Hy & Hya).
      pose proof (layout_sizes _ _ _ _ Hsz Hx). pose proof (layout_sizes _ _ _ _ Hsz Hy).
      destruct (layout_sep _ _ _ _ _ _ Hsz Hx Hy) as [[-> ->]|H']; simpl in *; lia.
    + rewrite Hout; auto. lia.
  - eapply lists_ok_unchanged; eauto.
    intros i y a Hy Ha HD.
    apply (alloc_payload_not_free_span _ _ _ Hsz HD).
    apply free_links_span; auto. eapply member_links; eauto.
  - destruct Htm as [Hsound Hcomplete]. constructor; rewrite Hfb; auto.
Qed.

(** * [memcpy] *)

Lemma load_store_bytes_copy m dst src n a :
  dst <= a < dst + Z.of_nat n ->
  load_byte (store_bytes m dst (load_bytes m src n)) a = load_byte m (src + (a - dst)).
Proof.
  intros Ha. replace a with (dst + Z.of_nat (Z.to_nat (a - dst))) at 1 by lia.
  erewrite load_store_bytes_in; [|apply load_bytes_lookup; lia].
  rewrite Z2Nat.id by lia. apply Z.mod_small. apply load_byte_range.
Qed.

Lemma memcpy_spec st dst src n :
  0 <= n -> mem_start_brk st <= src -> src + n <= mem_brk st ->
  mem_start_brk st <= dst -> dst + n <= mem_brk st ->
  exists st', memcpy st dst src n = Done st' /\
    same_region st st' /\ seg_list st' = seg_list st /\
    unchanged_outside (fun a => dst <= a < dst + n) (mem st) (mem st') /\
    (forall i, 0 <= i < n -> load_byte (mem st') (dst + i) = load_byte (mem st) (src + i)).
Proof.
  intros Hn Hs1 Hs2 Hd1 Hd2. unfold memcpy, valid_range.
  destruct (Z.leb_spec (mem_start_brk st) src); [|lia].
  destruct (Z.leb_spec (src + n) (mem_brk st)); [|lia].
  destruct (Z.leb_spec (mem_start_brk st) dst); [|lia].
  destruct (Z.leb_spec (dst + n) (mem_brk st)); [|lia].
  simpl. eexists. split; [reflexivity|]. split; [repeat split|]. split; [reflexivity|].
  split.
  - intros a Ha. simpl. apply load_store_bytes_out. rewrite load_bytes_length. lia.
  - intros i Hi. simpl. rewrite load_store_bytes_copy by lia. f_equal. lia.
Qed.

(** * Bookkeeping of the allocated blocks *)

Lemma allocs_bounds bl p x t :
  sizes_ok bl -> (x, t) ∈ allocs p bl -> p <= x /\ x + t <= p + total bl /\ 32 <= t.
Proof.
  intros Hs Hx. apply elem_of_allocs in Hx.
  pose proof (layout_bounds _ _ _ _ Hs Hx). pose proof (layout_sizes _ _ _ _ Hs Hx).
  simpl in *. lia.
Qed.

Lemma allocs_NoDup bl : forall p, sizes_ok bl -> NoDup (allocs p bl).
Proof.
  induction bl as [|[s a] bl IH]; intros p Hs; simpl; [constructor|].
  apply sizes_ok_cons in Hs as [Hb Hs]. simpl in Hb. destruct a; simpl; auto.
  constructor; auto. intros H. apply allocs_bounds in H; auto. lia.
Qed.

Lemma allocs_retag_free p l1 s l2 x t :
  sizes_ok (l1 ++ (s, true) :: l2) ->
  (x, t) ∈ allocs p (l1 ++ (s, false) :: l2) <->
  (x, t) ∈ allocs p (l1 ++ (s, true) :: l2) /\ x <> p + total l1.
Proof.
  intros Hs. rewrite !allocs_mid. simpl.
  apply sizes_ok_app in Hs as [Hs1 Hs2]. apply sizes_ok_cons in Hs2 as [Hb Hs2]. simpl in Hb.
  rewrite !elem_of_app, elem_of_cons. split.
  - intros [H|H].
    + split; auto. apply allocs_bounds in H; auto. lia.
    + split; auto. apply allocs_bounds in H; auto. lia.
  - intros [[H|[H|H]] Hne]; auto. congruence.
Qed.

Lemma allocs_free_iff p l1 s l2 x t :
  sizes_ok (l1 ++ (s, true) :: l2) ->
  (x, t) ∈ allocs p (coalesced l1 s l2) <->
  (x, t) ∈ allocs p (l1 ++ (s, true) :: l2) /\ x <> p + total l1.
Proof.
  intros Hs. rewrite <- allocs_retag_free by auto.
  rewrite allocs_coalesced, allocs_mid. simpl. reflexivity.
Qed.

Lemma allocs_header st bl x t :
  heap_ok st bl -> (x, t) ∈ allocs (first_block st) bl ->
  GET_SIZE st (HDRP x) = Done t /\ block_size st x = t /\
  first_block st <= x /\ x + t <= mem_brk st /\ x mod 16 = 0 /\ 32 <= t < 2 ^ 64.
Proof.
  intros Hok Hx. apply elem_of_allocs in Hx.
  destruct (block_facts _ _ Hok _ _ Hx) as (Hlo & Hhi & H16 & H32 & Ht16 & Hh & _ & Hbs).
  simpl in *. pose proof (heap_brk_bound _ _ Hok) as [_ Hb].
  pose proof (ok_base_pos _ _ Hok). unfold first_block in *.
  split; [|repeat split; auto; lia].
  unfold HDRP, WSIZE. apply (GET_SIZE_tag st (x - 8) (t, true)); simpl; auto; try lia.
  apply valid_word_iff. lia.
Qed.

Lemma length_coalesced l1 s l2 :
  (length (coalesced l1 s l2) <= length (l1 ++ (s, true) :: l2))%nat.
Proof.
  unfold coalesced, drop_prev_free, drop_next_free. rewrite !length_app. simpl.
  assert (length (removelast l1) <= length l1)%nat.
  { destruct l1 as [|b l1 _] using rev_ind; [simpl; lia|].
    rewrite removelast_last, length_app. lia. }
  assert (length (tail l2) <= length l2)%nat by (destruct l2; simpl; lia).
  destruct (snd (prev_block l1)), (snd (next_block l2)); lia.
Qed.

(** * [mm_realloc] *)

Lemma mm_realloc_spec st bl Ls ptr osize size fuel :
  heap_inv st bl Ls -> (ptr, osize) ∈ allocs (first_block st) bl ->
  0 < size <= 2 ^ 64 - 32 -> (length bl + 2 <= fuel)%nat ->
  exists st1 p, mm_malloc fuel st size = Done (st1, p) /\
    ((p = NULL /\ mm_realloc fuel st ptr size = Done (st, NULL)) \/
     (p <> NULL /\ exists st2 st' bl' Ls' s,
        memcpy st1 p ptr (Z.min size (osize - 16)) = Done st2 /\
        mm_free fuel st2 ptr = Done st' /\
        mm_realloc fuel st ptr size = Done (st', p) /\
        heap_inv st' bl' Ls' /\
        (forall x t, (x, t) ∈ allocs (first_block st) bl' <->
                     (x, t) = (p, s) \/ ((x, t) ∈ allocs (first_block st) bl /\ x <> ptr)) /\
        size + 16 <= s /\ p <> ptr /\
        (forall t, (p, t) ∉ allocs (first_block st) bl) /\
        (forall i, 0 <= i < Z.min size (osize - 16) ->
                   load_byte (mem st') (p + i) = load_byte (mem st) (ptr + i)) /\
        mem_start_brk st' = mem_start_brk st /\ mem_max_addr st' = mem_max_addr st /\
        heap_listp st' = heap_listp st /\ mem_brk st <= mem_brk st' /\
        (length bl' <= length bl + 2)%nat /\
        (forall x t a, (x, t) ∈ allocs (first_block st) bl -> x <> ptr ->
                       x <= a < x + t - 16 ->
                       load_byte (mem st') a = load_byte (mem st) a))).
Proof.
  intros Hinv Hptr Hsize Hfuel.
  destruct (mm_malloc_spec st bl Ls size fuel Hinv Hsize ltac:(lia))
    as (st1 & p & Hm & Hres).
  exists st1, p. split; [exact Hm|].
  pose proof Hinv as (Hok & _).
  destruct (allocs_header _ _ _ _ Hok Hptr) as (_ & _ & Hplo & Hphi & Hp16 & Ho).
  assert (ptr <> NULL) as HptrN.
  { pose proof (ok_base_pos _ _ Hok). unfold first_block, NULL in *. lia. }
  unfold mm_realloc. destruct (Z.eqb_spec size 0) as [|_]; [lia|].
  destruct (Z.eqb_spec ptr NULL) as [|_]; [contradiction|].
  rewrite Hm, bind_Done.
  destruct Hres as [[-> ->]|(HpN & bl1 & Ls1 & s & A1 & A2 & Hinv1 & HA & HA1 & Hs & Hst & Hmax &
                               Hhl & Hbrk & Hpay & Hlen)].
  { left. split; reflexivity. }
  right. split; [exact HpN|].
  destruct (Z.eqb_spec p NULL) as [|_]; [contradiction|].
  assert (first_block st1 = first_block st) as Hfb by (unfold first_block; congruence).
  pose proof Hinv1 as (Hok1 & _).
  pose proof (ok_sizes _ _ Hok1) as Hsz1.
  assert (forall x t, (x, t) ∈ allocs (first_block st) bl1 <->
          (x, t) = (p, s) \/ (x, t) ∈ allocs (first_block st) bl) as Hmem1.
  { intros x t. rewrite HA1, HA, !elem_of_app, elem_of_cons. tauto. }
  assert ((ptr, osize) ∈ allocs (first_block st1) bl1) as Hptr1.
  { rewrite Hfb. apply Hmem1. auto. }
  assert ((p, s) ∈ allocs (first_block st1) bl1) as Hp1.
  { rewrite Hfb. apply Hmem1. auto. }
  assert (forall t, (p, t) ∉ allocs (first_block st) bl) as Hfresh.
  { intros t Ht.
    assert (t = s).
    { assert ((t, true) = (s, true)) as E; [|congruence].
      apply (layout_unique bl1 (first_block st) p); auto; apply elem_of_allocs; apply Hmem1; auto. }
    subst t. pose proof (allocs_NoDup bl1 (first_block st) Hsz1) as Hnd.
    rewrite HA1 in Hnd. apply NoDup_app in Hnd as (_ & Hd & Hnd).
    apply NoDup_cons in Hnd as [Hn2 _]. rewrite HA in Ht.
    apply elem_of_app in Ht as [Ht|Ht]; [|contradiction].
    apply (Hd _ Ht). left. }
  assert (p <> ptr) as Hne by (intros ->; apply (Hfresh osize); exact Hptr).
  destruct (allocs_header _ _ _ _ Hok1 Hptr1) as (Hgs & _ & Hplo1 & Hphi1 & _ & _).
  destruct (allocs_header _ _ _ _ Hok1 Hp1) as (_ & _ & Hqlo & Hqhi & Hq16 & Hsr).
  rewrite Hgs, bind_Done. cbv zeta.
  assert (wrap (osize - DSIZE) = osize - 16) as Hw
    by (unfold DSIZE; apply wrap_small; lia).
  rewrite Hw.
  assert ((if size <? osize - 16 then size else osize - 16) = Z.min size (osize - 16)) as ->.
  { destruct (Z.ltb_spec size (osize - 16)); lia. }
  set (n := Z.min size (osize - 16)) in *.
  pose proof (ok_base_pos _ _ Hok1) as Hbase1.
  destruct (memcpy_spec st1 p ptr n) as (st2 & Hcp & Hsame2 & Hseg2 & Hun2 & Hbytes2);
    try (unfold first_block in *; lia).
  rewrite Hcp, bind_Done.
  assert (heap_inv st2 bl1 Ls1) as Hinv2.
  { eapply heap_inv_payload; eauto.
    intros a Ha. apply Hun2. intros Hin. apply Ha.
    exists p, s. split; [apply elem_of_allocs; exact Hp1|lia]. }
  pose proof (first_block_same _ _ Hsame2) as Hfb2.
  pose proof Hptr1 as Hl. apply elem_of_allocs, layout_elem in Hl as (l1 & l2 & Hbl1 & Hpeq).
  subst bl1.
  destruct (mm_free_spec st2 l1 osize l2 Ls1 fuel Hinv2 ltac:(lia))
    as (st' & Ls' & Hfree & Hinv' & Hsame' & Hun').
  rewrite Hfb2, <- Hpeq in Hfree. rewrite Hfree, bind_Done.
  exists st2, st', (coalesced l1 osize l2), Ls', s.
  destruct Hsame2 as (Ha1 & Ha2 & Ha3 & Ha4). destruct Hsame' as (Hb1 & Hb2 & Hb3 & Hb4).
  split; [first [exact Hcp|reflexivity]|]. split; [first [exact Hfree|reflexivity]|].
  split; [reflexivity|].
  split; [exact Hinv'|]. split; [|split; [exact Hs|]; split; [exact Hne|]; split; [exact Hfresh|];
    split; [|split; [congruence|]; split; [congruence|]; split; [congruence|]; split; [lia|];
             split]].
  - intros x t. split.
    + intros H. apply allocs_free_iff in H as [H Hx]; auto.
      apply Hmem1 in H as [H|H]; auto. right. split; auto. rewrite Hpeq, Hfb. exact Hx.
    + intros H. apply allocs_free_iff; auto. rewrite <- Hfb, <- Hpeq.
      destruct H as [H|[H Hx]].
      * injection H as -> ->. split; [rewrite Hfb; apply Hmem1; auto|auto].
      * split; [rewrite Hfb; apply Hmem1; auto|auto].
  - intros i Hi. transitivity (load_byte (mem st2) (p + i)).
    + apply Hun'. rewrite Hfb2.
      apply alloc_payload_not_free_span.
      { apply sizes_ok_app in Hsz1 as [Hs1 Hs2]. apply sizes_ok_cons in Hs2 as [Hb Hs2].
        apply sizes_ok_app. split; auto. apply sizes_ok_cons. split; auto. }
      exists p, s. split; [|lia]. apply elem_of_allocs. apply allocs_retag_free; auto.
      split; [exact Hp1|]. rewrite <- Hpeq. exact Hne.
    + rewrite Hbytes2 by lia. apply Hpay.
      exists ptr, osize. split; [apply elem_of_allocs; exact Hptr|lia].
  - pose proof (length_coalesced l1 osize l2). lia.
  - intros x t a Hx Hxne Ha.
    assert ((x, t) ∈ allocs (first_block st1) (l1 ++ (osize, true) :: l2)) as Hx1.
    { rewrite Hfb. apply Hmem1. auto. }
    assert (Hsz0 : sizes_ok (l1 ++ (osize, false) :: l2)).
    { apply sizes_ok_app in Hsz1 as [Hs1 Hs2]. apply sizes_ok_cons in Hs2 as [Hb Hs2].
      apply sizes_ok_app. split; auto. apply sizes_ok_cons. split; auto. }
    transitivity (load_byte (mem st2) a); [|transitivity (load_byte (mem st1) a)].
    + apply Hun'. rewrite Hfb2. apply alloc_payload_not_free_span; [exact Hsz0|].
      exists x, t. split; [|lia]. apply elem_of_allocs. apply allocs_retag_free; auto.
      split; [exact Hx1|]. rewrite <- Hpeq. exact Hxne.
    + apply Hun2. intros Hin.
      assert (x <> p) as Hxp by (intros ->; apply (Hfresh t); exact Hx).
      apply elem_of_allocs in Hx1, Hp1.
      destruct (layout_sep _ _ _ _ _ _ Hsz1 Hx1 Hp1) as [[E _]|Hsep];
        [contradiction|simpl in Hsep; lia].
    + apply Hpay. exists x, t. split; [apply elem_of_allocs; exact Hx|lia].
Qed.

(** * The iteration bound only cuts runs short

    A run that completes within some bound completes with the same result
    within every larger bound, so a [Done] result at any bound is the result
    of the C function. *)

Lemma bind_mono {A B} (c c' : outcome A) (k k' : A -> outcome B) :
  (forall a, c = Done a -> c' = Done a) ->
  (forall a b, k a = Done b -> k' a = Done b) ->
  forall r, (c ≫= k) = Done r -> (c' ≫= k') = Done r.
Proof.
  intros Hc Hk r H. apply bind_Done_inv in H as (a & Ha & Hb).
  rewrite (Hc a Ha), bind_Done. auto.
Qed.

Create HintDb mono.

Ltac mono_tac :=
  repeat match goal with
    | |- ?x = _ -> ?y = _ => constr_eq x y; exact (fun H => H)
    | |- (let '(_, _) := ?p in _) = _ -> _ => destruct p
    | |- (if ?b then _ else _) = _ -> (if ?c then _ else _) = _ => constr_eq b c; destruct b
    | |- (?c ≫= _) = Done _ -> (?d ≫= _) = Done _ =>
        apply bind_mono;
        [first [constr_eq c d; intros ? H; exact H | intros ?; solve [eauto 2 with mono]]
        |intros ? ?]
    | |- _ => solve [eauto 2 with mono]
    end.

Lemma insert_scan_mono n : forall m st size curr prev r,
  (n <= m)%nat -> insert_scan n st size curr prev = Done r ->
  insert_scan m st size curr prev = Done r.
Proof.
  induction n as [|n IH]; intros m st size curr prev r Hle; destruct m as [|m]; try lia;
    simpl; destruct (curr =? NULL); auto; apply bind_mono; auto;
    intros csize r'; destruct (csize <? size); auto; try discriminate.
  apply bind_mono; auto. intros succ r''. apply IH. lia.
Qed.
#[local] Hint Resolve insert_scan_mono : mono.

Lemma insert_block_mono n m st bp r :
  (n <= m)%nat -> insert_block n st bp = Done r -> insert_block m st bp = Done r.
Proof. intros Hle. unfold insert_block. cbv zeta. mono_tac. Qed.
#[local] Hint Resolve insert_block_mono : mono.

Lemma coalesce_mono n m st bp r :
  (n <= m)%nat -> coalesce n st bp = Done r -> coalesce m st bp = Done r.
Proof. intros Hle. unfold coalesce. cbv zeta. mono_tac. Qed.
#[local] Hint Resolve coalesce_mono : mono.

Lemma extend_heap_mono n m st words r :
  (n <= m)%nat -> extend_heap n st words = Done r -> extend_heap m st words = Done r.
Proof. intros Hle. unfold extend_heap. cbv zeta. mono_tac. Qed.
#[local] Hint Resolve extend_heap_mono : mono.

Lemma mm_init_mono n m st r :
  (n <= m)%nat -> mm_init n st = Done r -> mm_init m st = Done r.
Proof. intros Hle. unfold mm_init. cbv zeta. mono_tac. Qed.

Lemma place_mono n m st bp asize r :
  (n <= m)%nat -> place n st bp asize = Done r -> place m st bp asize = Done r.
Proof. intros Hle. unfold place. cbv zeta. mono_tac. Qed.
#[local] Hint Resolve place_mono : mono.

Lemma scan_bucket_mono n : forall m st asize bp best_bp min_diff r,
  (n <= m)%nat -> scan_bucket n st asize bp best_bp min_diff = Done r ->
  scan_bucket m st asize bp best_bp min_diff = Done r.
Proof.
  induction n as [|n IH]; intros m st asize bp best_bp min_diff r Hle;
    destruct m as [|m]; try lia; simpl; destruct (bp =? NULL); auto; try discriminate.
  apply bind_mono; auto. intros bsize r1. cbv zeta.
  destruct (bsize >=? asize); [destruct (_ <? min_diff); [destruct (_ =? 0); auto|]|];
    (apply bind_mono; auto; intros succ r2; apply IH; lia).
Qed.
#[local] Hint Resolve scan_bucket_mono : mono.

Lemma scan_lists_mono n m st asize indices : forall best_bp min_diff r,
  (n <= m)%nat -> scan_lists n st asize indices best_bp min_diff = Done r ->
  scan_lists m st asize indices best_bp min_diff = Done r.
Proof.
  induction indices as [|i rest IH]; intros best_bp min_diff r Hle; simpl; auto.
  apply bind_mono; [intros ?; apply scan_bucket_mono; exact Hle|].
  intros [bp|b d] r1; auto. destruct (negb _); auto.
Qed.

Lemma find_fit_mono n m st asize r :
  (n <= m)%nat -> find_fit n st asize = Done r -> find_fit m st asize = Done r.
Proof. apply scan_lists_mono. Qed.
#[local] Hint Resolve find_fit_mono : mono.

Lemma mm_malloc_mono n m st size r :
  (n <= m)%nat -> mm_malloc n st size = Done r -> mm_malloc m st size = Done r.
Proof. intros Hle. unfold mm_malloc. cbv zeta. mono_tac. Qed.
#[local] Hint Resolve mm_malloc_mono : mono.

Lemma mm_free_mono n m st bp r :
  (n <= m)%nat -> mm_free n st bp = Done r -> mm_free m st bp = Done r.
Proof. intros Hle. unfold mm_free. mono_tac. Qed.
#[local] Hint Resolve mm_free_mono : mono.

Lemma mm_realloc_mono n m st ptr size r :
  (n <= m)%nat -> mm_realloc n st ptr size = Done r -> mm_realloc m st ptr size = Done r.
Proof. intros Hle. unfold mm_realloc. cbv zeta. mono_tac. Qed.

(** * The block [mm_malloc] hands to [place] *)

Lemma adjusted_size_range size :
  0 <= adjusted_size size < 2 ^ 64 /\ adjusted_size size mod 16 = 0.
Proof.
  unfold adjusted_size. destruct (size <=? DSIZE); [split; [unfold DSIZE; lia|reflexivity]|].
  unfold ALIGN.
  destruct (land_MASK_F_range (wrap (wrap (size + DSIZE) + (ALIGNMENT - 1)))) as (H1 & H2 & _).
  { unfold wrap, SIZE_MOD. apply Z.mod_pos_bound. lia. }
  split; [lia|exact H2].
Qed.

(** The three ways through [mm_malloc]: a fit is placed; no block fits and
    the region cannot grow; no block fits and the grown tail block is
    placed. *)
Lemma mm_malloc_cases st bl Ls size fuel :
  heap_inv st bl Ls -> size <> 0 -> (length bl < fuel)%nat ->
  let asize := adjusted_size size in
  let e := MAX asize CHUNKSIZE in
  (exists bp cs,
      find_fit fuel st asize = Done bp /\ bp <> NULL /\
      (bp, (cs, false)) ∈ layout (first_block st) bl /\ asize <= cs /\
      mm_malloc fuel st size = (st' ← place fuel st bp asize; Done (st', bp))) \/
  (find_fit fuel st asize = Done NULL /\
   (forall x s, (x, (s, false)) ∈ layout (first_block st) bl -> s < asize) /\
   mem_max_addr st < mem_brk st + e /\
   extend_heap fuel st (e / WSIZE) = Done (st, NULL) /\
   mm_malloc fuel st size = Done (st, NULL)) \/
  (exists st1 Ls1,
      find_fit fuel st asize = Done NULL /\
      (forall x s, (x, (s, false)) ∈ layout (first_block st) bl -> s < asize) /\
      mem_brk st + e <= mem_max_addr st /\
      extend_heap fuel st (e / WSIZE) = Done (st1, mem_brk st - prev_free_size bl) /\
      mem_brk st - prev_free_size bl <> NULL /\
      heap_inv st1 (coalesced bl e []) Ls1 /\
      mem_start_brk st1 = mem_start_brk st /\ mem_max_addr st1 = mem_max_addr st /\
      heap_listp st1 = heap_listp st /\ mem_brk st1 = mem_brk st + e /\
      unchanged_outside (fun a => free_span (first_block st) bl a \/ mem_brk st - 8 <= a)
        (mem st) (mem st1) /\
      mem_brk st - prev_free_size bl = first_block st1 + total (drop_prev_free bl) /\
      0 <= prev_free_size bl /\ asize <= e /\
      mm_malloc fuel st size =
        (st' ← place fuel st1 (mem_brk st - prev_free_size bl) asize;
         Done (st', mem_brk st - prev_free_size bl))).
Proof.
  intros Hinv Hsize Hfuel asize e. pose proof Hinv as (Hok & Hlists & Htm & Hnaf).
  destruct (adjusted_size_range size) as (Ha & Ha16). fold asize in Ha, Ha16.
  pose proof (ok_sizes _ _ Hok) as Hsz.
  pose proof (ok_base_pos _ _ Hok) as Hbase.
  unfold mm_malloc. destruct (Z.eqb_spec size 0) as [|_]; [contradiction|]. fold asize. cbv zeta.
  fold e.
  destruct (find_fit_correct st asize fuel Ls ltac:(lia)) as (r & Hfind & Hr).
  { intros i Hi. split; [apply lists_ok_bucket; auto|].
    pose proof (bucket_length st bl Ls _ Hlists Htm i). lia. }
  rewrite Hfind, bind_Done.
  destruct Hr as [[-> Hnone]|(Hnz & k & Hk & Hfb & _)].
  - right.
    assert (forall x s, (x, (s, false)) ∈ layout (first_block st) bl -> s < asize) as Hnofit.
    { intros x s Hx.
      destruct (block_facts _ _ Hok _ _ Hx) as (_ & _ & _ & _ & _ & _ & _ & Hbs).
      simpl in Hbs. destruct (Z_lt_dec s asize) as [|Hge]; [assumption|]. exfalso.
      pose proof (tm_complete _ _ _ _ Htm x s Hx ltac:(tauto)) as Hin.
      pose proof (get_list_index_mono asize s ltac:(lia)) as Hmono.
      pose proof (get_list_index_lt s) as Hlt.
      specialize (Hnone (get_list_index s) x ltac:(lia) Hin). lia. }
    destruct (Z.eqb_spec NULL NULL) as [_|]; [|contradiction]. simpl negb. cbv iota.
    destruct (MAX_CHUNKSIZE asize ltac:(lia) Ha16) as (He1 & He2 & He16 & He & Hre & Hw).
    fold e in He1, He2, He16, He, Hre, Hw.
    pose proof (heap_brk_bound _ _ Hok) as [Hfbrk Hbrk].
    pose proof (ok_max _ _ Hok) as [_ Hmax].
    destruct (Z_le_dec (mem_brk st + e) (mem_max_addr st)) as [Hfit|Hnogrow].
    + right.
      destruct (extend_heap_spec st bl Ls (e / WSIZE) fuel Hinv Hw)
        as (st1 & Ls1 & Hext & Hinv1 & Hs1 & Hm1 & Hh1 & Hb1 & Hun1);
        rewrite ?Hre; try lia.
      rewrite Hre in *. rewrite Hext, bind_Done.
      assert (first_block st1 = first_block st) as Hfb1
        by (unfold first_block; rewrite Hs1; reflexivity).
      assert (mem_brk st - prev_free_size bl = first_block st1 + total (drop_prev_free bl)) as Ep.
      { rewrite Hfb1, total_drop_prev, (ok_brk _ _ Hok). lia. }
      assert (0 <= prev_free_size bl /\ 0 <= total (drop_prev_free bl)) as [Hpfs Htd].
      { pose proof Hinv1 as (Hok1 & _). pose proof (ok_sizes _ _ Hok1) as Hsz1.
        unfold coalesced in Hsz1. apply sizes_ok_app in Hsz1 as [Hsz1 _].
        pose proof (total_nonneg _ Hsz1). split; [|lia].
        unfold prev_free_size. destruct (snd (prev_block bl)); [lia|].
        destruct (prev_block_cases bl) as [[_ ->]|(l' & Hl')]; [unfold DSIZE; simpl; lia|].
        rewrite Hl' in Hsz. apply sizes_ok_app in Hsz as [_ Hsz].
        apply sizes_ok_cons in Hsz as [[? _] _]. lia. }
      assert (mem_brk st - prev_free_size bl <> NULL) as Hnz
        by (unfold NULL, first_block in *; lia).
      destruct (Z.eqb_spec (mem_brk st - prev_free_size bl) NULL) as [E|_]; [contradiction|].
      exists st1, Ls1.
      split; [reflexivity|]. split; [exact Hnofit|]. split; [exact Hfit|].
      split; [reflexivity|]. split; [exact Hnz|]. split; [exact Hinv1|].
      split; [exact Hs1|]. split; [exact Hm1|]. split; [exact Hh1|]. split; [exact Hb1|].
      split; [exact Hun1|]. split; [exact Ep|]. split; [exact Hpfs|]. split; [exact He1|].
      reflexivity.
    + left.
      destruct (extend_heap_run st (e / WSIZE) fuel) as [_ Hfail]; rewrite ?Hre; try lia.
      { unfold first_block in Hfbrk. lia. }
      rewrite Hfail by (rewrite Hre; lia). rewrite bind_Done.
      destruct (Z.eqb_spec NULL NULL) as [_|]; [|contradiction].
      split; [reflexivity|]. split; [exact Hnofit|]. split; [lia|]. auto.
  - left.
    destruct (Z.eqb_spec r NULL) as [|_]; [contradiction|]. simpl negb. cbv iota.
    destruct (first_best_fits _ _ _ _ Hfb) as [Hin Hfits].
    destruct (member_free _ _ _ _ Htm k r Hin) as (s & Hs & _ & _).
    destruct (block_facts _ _ Hok _ _ Hs) as (_ & _ & _ & _ & _ & _ & _ & Hbs).
    simpl in Hbs. rewrite Hbs in Hfits.
    exists r, s. auto.
Qed.

Lemma mm_malloc_steps st bl Ls size fuel :
  heap_inv st bl Ls -> size <> 0 -> (length bl < fuel)%nat ->
  let asize := adjusted_size size in
  let e := MAX asize CHUNKSIZE in
  (exists bp cs,
      find_fit fuel st asize = Done bp /\ bp <> NULL /\
      (bp, (cs, false)) ∈ layout (first_block st) bl /\ asize <= cs /\
      mm_malloc fuel st size = (st' ← place fuel st bp asize; Done (st', bp))) \/
  (find_fit fuel st asize = Done NULL /\
   extend_heap fuel st (e / WSIZE) = Done (st, NULL) /\
   mm_malloc fuel st size = Done (st, NULL)) \/
  (exists st1 bl1 Ls1 bp cs,
      find_fit fuel st asize = Done NULL /\
      extend_heap fuel st (e / WSIZE) = Done (st1, bp) /\ bp <> NULL /\
      heap_inv st1 bl1 Ls1 /\ mem_start_brk st1 = mem_start_brk st /\
      (bp, (cs, false)) ∈ layout (first_block st1) bl1 /\ asize <= e <= cs /\
      mm_malloc fuel st size = (st' ← place fuel st1 bp asize; Done (st', bp))).
Proof.
  intros Hinv Hsize Hfuel asize e.
  destruct (mm_malloc_cases st bl Ls size fuel Hinv Hsize Hfuel)
    as [Ha|[(Hfind & _ & _ & Hext & Hm)|
        (st1 & Ls1 & Hfind & _ & _ & Hext & Hnz & Hinv1 & Hs1 & _ & _ & _ & _ & Ep & Hpfs &
         He & Hm)]].
  - left. exact Ha.
  - right. left. auto.
  - right. right.
    exists st1, (coalesced bl e []), Ls1, (mem_brk st - prev_free_size bl),
      (prev_free_size bl + e + next_free_size []).
    split; [exact Hfind|]. split; [exact Hext|]. split; [exact Hnz|].
    split; [exact Hinv1|]. split; [exact Hs1|].
    split; [rewrite Ep; apply layout_mid|].
    split; [unfold next_free_size; simpl; fold asize e in He; lia|exact Hm].
Qed.

(** The header of a block of the layout, as [place] reads it. *)
Lemma layout_header st bl x b :
  heap_ok st bl -> (x, b) ∈ layout (first_block st) bl ->
  GET_SIZE st (HDRP x) = Done (fst b) /\ x mod 16 = 0 /\ 32 <= fst b < 2 ^ 64.
Proof.
  intros Hok Hx.
  destruct (block_facts _ _ Hok _ _ Hx) as (Hlo & Hhi & H16 & H32 & Ht16 & Hh & _ & Hbs).
  pose proof (heap_brk_bound _ _ Hok) as [_ Hb].
  pose proof (ok_base_pos _ _ Hok). unfold first_block in *.
  split; [|repeat split; auto; lia].
  unfold HDRP, WSIZE. apply (GET_SIZE_tag st (x - 8) b); auto; try lia.
  apply valid_word_iff. lia.
Qed.

Lemma mm_malloc_result_aligned st bl Ls size fuel st' p :
  heap_inv st bl Ls -> mm_malloc fuel st size = Done (st', p) ->
  p = NULL \/ p mod 16 = 0.
Proof.
  intros Hinv Hrun. destruct (Z.eq_dec size 0) as [->|Hsize].
  { rewrite mm_malloc_zero in Hrun. injection Hrun as _ <-. auto. }
  apply (mm_malloc_mono fuel (fuel + S (length bl))) in Hrun; [|lia].
  destruct (mm_malloc_steps st bl Ls size (fuel + S (length bl)) Hinv Hsize ltac:(lia))
    as [(bp & cs & _ & _ & Hbp & _ & Hm)|[(_ & _ & Hm)|
        (st1 & bl1 & Ls1 & bp & cs & _ & _ & _ & Hinv1 & _ & Hbp & _ & Hm)]];
    rewrite Hm in Hrun.
  - apply bind_Done_inv in Hrun as (st2 & _ & E). injection E as _ <-. right.
    destruct Hinv as (Hok & _). apply (layout_header _ _ _ _ Hok Hbp).
  - injection Hrun as _ <-. auto.
  - apply bind_Done_inv in Hrun as (st2 & _ & E). injection E as _ <-. right.
    destruct Hinv1 as (Hok1 & _). apply (layout_header _ _ _ _ Hok1 Hbp).
Qed.

(** * Reachable states are well formed *)

Lemma elem_of_release p live x : x ∈ release p live <-> x ∈ live /\ x <> p.
Proof. unfold release. rewrite list_elem_of_filter. tauto. Qed.

Lemma live_inv_equiv st live live' :
  (forall x, x ∈ live <-> x ∈ live') -> live_inv st live -> live_inv st live'.
Proof.
  intros Heq (bl & Ls & Hinv & Hlive). exists bl, Ls. split; [exact Hinv|].
  intros x. rewrite <- Heq. apply Hlive.
Qed.

Lemma live_nonnull st live : live_inv st live -> NULL ∉ live.
Proof.
  intros (bl & Ls & (Hok & _) & Hlive) Hin. apply Hlive in Hin as (t & Ht).
  destruct (allocs_header _ _ _ _ Hok Ht) as (_ & _ & Hlo & _).
  pose proof (ok_base_pos _ _ Hok). unfold first_block, NULL in *. lia.
Qed.

Lemma live_inv_init m base limit fuel st :
  0 < base -> base mod 16 = 0 -> limit < SIZE_MAX ->
  mm_init fuel (fresh_state m base limit) = Done (st, 0) -> live_inv st [].
Proof.
  intros Hbase H16 Hlimit Hrun.
  pose proof (mm_init_spec m base limit fuel Hbase H16 Hlimit) as Hspec.
  destruct (decide (base + 32 + 4096 <= limit)).
  - destruct Hspec as (st0 & Ls & Hrun0 & Hinv & _). rewrite Hrun in Hrun0.
    injection Hrun0 as <-. exists [(4096, false)], Ls. split; [exact Hinv|].
    intros x. simpl. split; [intros H; inversion H|intros (t & H); inversion H].
  - destruct Hspec as (st0 & Hrun0). rewrite Hrun in Hrun0. discriminate.
Qed.

Lemma live_inv_malloc st live fuel size st' p :
  live_inv st live -> 0 <= size <= 2 ^ 64 - 32 ->
  mm_malloc fuel st size = Done (st', p) ->
  live_inv st' (if p =? NULL then live else p :: live).
Proof.
  intros Hlinv Hsize Hrun. destruct (Z.eq_dec size 0) as [->|Hnz].
  { rewrite mm_malloc_zero in Hrun. injection Hrun as <- <-. exact Hlinv. }
  destruct Hlinv as (bl & Ls & Hinv & Hlive).
  apply (mm_malloc_mono fuel (fuel + S (length bl))) in Hrun; [|lia].
  destruct (mm_malloc_spec st bl Ls size (fuel + S (length bl)) Hinv ltac:(lia) ltac:(lia))
    as (st1 & p1 & Hrun1 & Hres).
  rewrite Hrun in Hrun1. injection Hrun1 as <- <-.
  destruct Hres as [[-> ->]|(Hpnz & bl' & Ls' & s & A1 & A2 & Hinv' & HA & HA' & _ & Hst & _)].
  { exists bl, Ls. auto. }
  destruct (Z.eqb_spec p NULL) as [|_]; [contradiction|].
  assert (first_block st' = first_block st) as Hfb by (unfold first_block; congruence).
  exists bl', Ls'. split; [exact Hinv'|]. intros x. rewrite Hfb, elem_of_cons, Hlive.
  split.
  - intros [->|(t & Ht)].
    + exists s. rewrite HA', elem_of_app, elem_of_cons. auto.
    + exists t. rewrite HA in Ht. rewrite HA', elem_of_app, elem_of_cons.
      rewrite elem_of_app in Ht. tauto.
  - intros (t & Ht). rewrite HA' in Ht. rewrite elem_of_app, elem_of_cons in Ht.
    destruct Ht as [Ht|[Ht|Ht]].
    + right. exists t. rewrite HA, elem_of_app. auto.
    + left. congruence.
    + right. exists t. rewrite HA, elem_of_app. auto.
Qed.

Lemma live_inv_free st live fuel p st' :
  live_inv st live -> p ∈ live -> mm_free fuel st p = Done st' ->
  live_inv st' (release p live).
Proof.
  intros (bl & Ls & Hinv & Hlive) Hp Hrun.
  apply Hlive in Hp as (t & Ht). pose proof Hinv as (Hok & _).
  pose proof (ok_sizes _ _ Hok) as Hsz.
  apply elem_of_allocs, layout_elem in Ht as (l1 & l2 & -> & ->).
  apply (mm_free_mono fuel (fuel + length (l1 ++ (t, true) :: l2))) in Hrun; [|lia].
  destruct (mm_free_spec st l1 t l2 Ls (fuel + length (l1 ++ (t, true) :: l2)) Hinv ltac:(lia))
    as (st1 & Ls' & Hrun1 & Hinv' & Hsame & _).
  rewrite Hrun in Hrun1. injection Hrun1 as <-.
  exists (coalesced l1 t l2), Ls'. split; [exact Hinv'|].
  intros x. rewrite (first_block_same _ _ Hsame), elem_of_release, Hlive. split.
  - intros [(t' & Ht') Hne]. exists t'. apply allocs_free_iff; auto.
  - intros (t' & Ht'). apply allocs_free_iff in Ht' as [Ht' Hne]; eauto.
Qed.

Lemma live_inv_realloc st live fuel p size st' q :
  live_inv st live -> p ∈ live \/ (p = NULL /\ size <> 0) ->
  0 <= size <= 2 ^ 64 - 32 ->
  mm_realloc fuel st p size = Done (st', q) ->
  live_inv st'
    (if q =? NULL then (if size =? 0 then release p live else live)
     else q :: release p live).
Proof.
  intros Hlinv Hp Hsize Hrun.
  pose proof (live_nonnull _ _ Hlinv) as Hnull.
  destruct (Z.eqb_spec size 0) as [->|Hnz].
  { rewrite mm_realloc_zero in Hrun. apply bind_Done_inv in Hrun as (st1 & Hfree & E).
    injection E as <- <-. destruct Hp as [Hp|[_ Hp]]; [|contradiction].
    destruct (Z.eqb_spec NULL NULL) as [_|]; [|contradiction].
    eapply live_inv_free; eauto. }
  destruct (Z.eq_dec p NULL) as [->|Hpnz].
  { rewrite mm_realloc_null in Hrun by auto.
    apply (live_inv_malloc _ _ _ _ _ _ Hlinv Hsize) in Hrun.
    assert (forall x, x ∈ release NULL live <-> x ∈ live) as Hrel.
    { intros x. rewrite elem_of_release. split; [tauto|]. intros Hx. split; auto.
      intros ->. contradiction. }
    destruct (q =? NULL); auto.
    eapply live_inv_equiv; [|exact Hrun]. intros x. rewrite !elem_of_cons, Hrel. tauto. }
  destruct Hp as [Hp|[Hp _]]; [|contradiction].
  destruct Hlinv as (bl & Ls & Hinv & Hlive).
  pose proof Hp as Hp'. apply Hlive in Hp' as (osize & Hosize).
  apply (mm_realloc_mono fuel (fuel + (length bl + 2))) in Hrun; [|lia].
  destruct (mm_realloc_spec st bl Ls p osize size (fuel + (length bl + 2)) Hinv Hosize
              ltac:(lia) ltac:(lia))
    as (st1 & q1 & _ & [[-> Hrun1]|(Hqnz & st2 & st3 & bl' & Ls' & s & _ & _ & Hrun1 & Hinv' &
                                    Hmem & _ & _ & _ & _ & Hst & _)]);
    rewrite Hrun in Hrun1.
  - injection Hrun1 as -> ->. destruct (Z.eqb_spec NULL NULL) as [_|]; [|contradiction].
    exists bl, Ls. auto.
  - injection Hrun1 as <- <-. destruct (Z.eqb_spec q NULL) as [|_]; [contradiction|].
    assert (first_block st' = first_block st) as Hfb by (unfold first_block; congruence).
    exists bl', Ls'. split; [exact Hinv'|]. intros x.
    rewrite Hfb, elem_of_cons, elem_of_release, Hlive. split.
    + intros [->|[(t & Ht) Hne]]; [exists s|exists t]; apply Hmem; auto.
    + intros (t & Ht). apply Hmem in Ht as [E|[Ht Hne]]; [left; congruence|eauto].
Qed.

Lemma live_inv_store st live p a v :
  live_inv st live -> p ∈ live -> p <= a < p + (block_size st p - 16) ->
  live_inv (client_store st a v) live.
Proof.
  intros (bl & Ls & Hinv & Hlive) Hp Ha. pose proof Hinv as (Hok & _).
  apply Hlive in Hp as (t & Ht).
  destruct (allocs_header _ _ _ _ Hok Ht) as (_ & Hbs & _). rewrite Hbs in Ha.
  exists bl, Ls. split; [|exact Hlive].
  eapply heap_inv_payload; [exact Hinv|repeat split|reflexivity|].
  intros a' Ha'. unfold client_store. simpl. rewrite load_store_byte.
  destruct (decide (a = a')) as [<-|]; [|reflexivity].
  exfalso. apply Ha'. exists p, t. split; [apply elem_of_allocs; exact Ht|lia].
Qed.

Lemma reachable_inv st live : reachable st live -> live_inv st live.
Proof.
  induction 1.
  - eapply live_inv_init; eauto.
  - eapply live_inv_malloc; eauto.
  - eapply live_inv_free; eauto.
  - eapply live_inv_realloc; eauto.
  - eapply live_inv_store; eauto.
Qed.

(** * The layout after a merge *)

Lemma layout_drop_prev p l1 x b :
  sizes_ok l1 ->
  (x, b) ∈ layout p (drop_prev_free l1) <->
  (x, b) ∈ layout p l1 /\ x < p + total l1 - prev_free_size l1.
Proof.
  intros Hs. unfold drop_prev_free, prev_free_size.
  destruct l1 as [|c l1 _] using rev_ind.
  { simpl. split; [intros H; inversion H|intros [H _]; inversion H]. }
  rewrite prev_block_snoc. apply sizes_ok_app in Hs as [Hs1 Hs2].
  apply sizes_ok_cons in Hs2 as [Hc _].
  rewrite total_snoc, layout_app. simpl layout. rewrite elem_of_app, list_elem_of_singleton.
  destruct (snd c).
  - rewrite layout_app. simpl layout. rewrite elem_of_app, list_elem_of_singleton. split.
    + intros [H|H]; (split; [auto|]).
      * pose proof (layout_bounds _ _ _ _ Hs1 H). pose proof (layout_sizes _ _ _ _ Hs1 H). lia.
      * injection H as -> ->. lia.
    + tauto.
  - rewrite removelast_last. split.
    + intros H. split; [auto|].
      pose proof (layout_bounds _ _ _ _ Hs1 H). pose proof (layout_sizes _ _ _ _ Hs1 H). lia.
    + intros [[H|H] Hlt]; [auto|]. injection H as -> ->. lia.
Qed.

Lemma layout_drop_next q l2 x b :
  sizes_ok l2 ->
  (x, b) ∈ layout (q + next_free_size l2) (drop_next_free l2) <->
  (x, b) ∈ layout q l2 /\ q + next_free_size l2 <= x.
Proof.
  intros Hs. unfold drop_next_free, next_free_size. destruct l2 as [|c l2].
  { simpl. split; [intros H; inversion H|intros [H _]; inversion H]. }
  change (next_block (c :: l2)) with c. apply sizes_ok_cons in Hs as [Hc Hs].
  destruct (snd c).
  - replace (q + 0) with q by lia. split; [|tauto]. intros H. split; [auto|].
    assert (sizes_ok (c :: l2)) as Hs' by (apply sizes_ok_cons; auto).
    pose proof (layout_bounds _ _ _ _ Hs' H). lia.
  - simpl. rewrite elem_of_cons. split.
    + intros H. split; [auto|]. pose proof (layout_bounds _ _ _ _ Hs H). lia.
    + intros [[H|H] Hle]; [|auto]. injection H as -> ->. lia.
Qed.

Lemma layout_coalesced p l1 s l2 x b :
  sizes_ok (l1 ++ (s, true) :: l2) ->
  (x, b) ∈ layout p (coalesced l1 s l2) <->
  (x, b) = (p + total l1 - prev_free_size l1,
            (prev_free_size l1 + s + next_free_size l2, false)) \/
  ((x, b) ∈ layout p (l1 ++ (s, true) :: l2) /\
   (x < p + total l1 - prev_free_size l1 \/ p + total l1 + s + next_free_size l2 <= x)).
Proof.
  intros Hs. apply sizes_ok_app in Hs as [Hs1 Hs2]. apply sizes_ok_cons in Hs2 as [Hb Hs2].
  simpl in Hb.
  assert (0 <= prev_free_size l1 /\ 0 <= next_free_size l2) as [Hp Hn].
  { unfold prev_free_size, next_free_size. split.
    - destruct (snd (prev_block l1)); [lia|].
      destruct (prev_block_cases l1) as [[_ ->]|(l' & Hl')]; [unfold DSIZE; simpl; lia|].
      rewrite Hl' in Hs1. apply sizes_ok_app in Hs1 as [_ Hs1].
      apply sizes_ok_cons in Hs1 as [[? _] _]. lia.
    - destruct (snd (next_block l2)); [lia|].
      destruct (next_block_cases l2) as [[_ ->]|(l' & Hl')]; [simpl; lia|].
      rewrite Hl' in Hs2. apply sizes_ok_cons in Hs2 as [[? _] _]. lia. }
  unfold coalesced. rewrite !layout_app. simpl layout. rewrite total_drop_prev.
  rewrite !elem_of_app, !elem_of_cons.
  replace (p + (total l1 - prev_free_size l1) +
           (prev_free_size l1 + s + next_free_size l2))
    with (p + total l1 + s + next_free_size l2) by lia.
  rewrite layout_drop_prev, layout_drop_next by auto.
  replace (p + (total l1 - prev_free_size l1)) with (p + total l1 - prev_free_size l1) by lia.
  split.
  - intros [[H Hlt]|[H|[H Hle]]]; auto.
  - intros [H|[[H|[H|H]] Hx]]; auto.
    + destruct Hx as [Hx|Hx]; auto.
      pose proof (layout_bounds _ _ _ _ Hs1 H). pose proof (layout_sizes _ _ _ _ Hs1 H). lia.
    + injection H as -> ->. lia.
    + destruct Hx as [Hx|Hx]; auto.
      pose proof (layout_bounds _ _ _ _ Hs2 H). lia.
Qed.

(** * Release *)

(** C2: on a well-formed heap [mm_free] of the allocated block between [l1]
    and [l2] returns, and the heap it leaves has no two adjacent free blocks:
    the block and its free neighbours have become one free block that starts
    at the predecessor when the predecessor was free and covers the combined
    span; the table holds that block once, in the bucket of its size, the
    other blocks it held before, and neither neighbour as a block of its
    own. *)
Theorem mm_free_merges_neighbours st l1 s l2 Ls fuel :
  heap_inv st (l1 ++ (s, true) :: l2) Ls ->
  (length (l1 ++ (s, true) :: l2) <= S fuel)%nat ->
  let bl := l1 ++ (s, true) :: l2 in
  let bp := first_block st + total l1 in
  let merged := bp - prev_free_size l1 in
  let size := prev_free_size l1 + s + next_free_size l2 in
  exists st' Ls',
    mm_free fuel st bp = Done st' /\
    heap_inv st' (coalesced l1 s l2) Ls' /\
    no_adj_free (coalesced l1 s l2) /\
    (forall x b, (x, b) ∈ layout (first_block st') (coalesced l1 s l2) <->
       (x, b) = (merged, (size, false)) \/
       ((x, b) ∈ layout (first_block st) bl /\ (x < merged \/ merged + size <= x))) /\
    (forall i x, x ∈ Ls' i <->
       (x = merged /\ i = get_list_index size) \/
       (x ∈ Ls i /\ (x < merged \/ merged + size <= x))) /\
    (forall i, NoDup (Ls' i)).
Proof.
  intros Hinv Hfuel bl bp merged size.
  destruct (mm_free_spec st l1 s l2 Ls fuel Hinv Hfuel) as (st' & Ls' & Hrun & Hinv' & Hsame & _).
  exists st', Ls'. split; [exact Hrun|]. split; [exact Hinv'|].
  pose proof Hinv as (Hok & Hlists & Htm & Hnaf).
  pose proof Hinv' as (Hok' & Hlists' & Htm' & Hnaf').
  pose proof (ok_sizes _ _ Hok) as Hsz.
  pose proof (first_block_same _ _ Hsame) as Hfb.
  assert (forall x b, (x, b) ∈ layout (first_block st') (coalesced l1 s l2) <->
       (x, b) = (merged, (size, false)) \/
       ((x, b) ∈ layout (first_block st) bl /\ (x < merged \/ merged + size <= x))) as Hlay.
  { intros x b. rewrite Hfb, layout_coalesced by exact Hsz.
    unfold merged, size, bp, bl.
    replace (first_block st + total l1 - prev_free_size l1 +
             (prev_free_size l1 + s + next_free_size l2))
      with (first_block st + total l1 + s + next_free_size l2) by lia.
    reflexivity. }
  split; [exact Hnaf'|]. split; [exact Hlay|]. split; [|apply (lo_nodup _ _ Hlists')].
  intros i x. split.
  - intros Hx. destruct (tm_sound _ _ _ _ Htm' i x Hx) as (_ & t & Ht & Hi).
    apply Hlay in Ht as [E|[Ht Hr]].
    + injection E as -> ->. left. auto.
    + right. split; [|exact Hr]. rewrite <- Hi. apply (tm_complete _ _ _ _ Htm); auto.
  - intros [[-> ->]|[Hx Hr]].
    + apply (tm_complete _ _ _ _ Htm'); auto. apply Hlay. auto.
    + destruct (tm_sound _ _ _ _ Htm i x Hx) as (_ & t & Ht & Hi). rewrite <- Hi.
      apply (tm_complete _ _ _ _ Htm'); auto. apply Hlay. auto.
Qed.

(** * Placement *)

(** C5 (amended): on a well-formed heap [place] of an adjusted size [asize]
    (a multiple of 16, at least 32) into the free block [bp] of size
    [csize >= asize] returns; the block has left its bucket list; when
    [csize - asize >= 32] the front [asize] bytes are an allocated block, the
    rest is a free block of size [csize - asize] with its own header and
    footer, and that remainder has entered the bucket of its size; otherwise
    the whole block of size [csize] is allocated and the table is the one
    without [bp]. *)
Theorem place_splits_or_takes_whole st l1 csize l2 Ls asize fuel :
  heap_inv st (l1 ++ (csize, false) :: l2) Ls ->
  32 <= asize <= csize -> asize mod 16 = 0 ->
  (length (l1 ++ (csize, false) :: l2) <= fuel)%nat ->
  let bp := first_block st + total l1 in
  exists st' la lb,
    place fuel st bp asize = Done st' /\
    Ls (get_list_index csize) = la ++ bp :: lb /\
    let Ls1 := <[get_list_index csize := la ++ lb]> Ls in
    if decide (32 <= csize - asize) then
      exists lc ld,
        Ls1 (get_list_index (csize - asize)) = lc ++ ld /\
        heap_inv st' (l1 ++ (asize, true) :: (csize - asize, false) :: l2)
          (<[get_list_index (csize - asize) := lc ++ (bp + asize) :: ld]> Ls1) /\
        load64 (mem st') (bp - 8) = PACK asize 1 /\
        load64 (mem st') (bp + asize - 16) = PACK asize 1 /\
        load64 (mem st') (bp + asize - 8) = PACK (csize - asize) 0 /\
        load64 (mem st') (bp + csize - 16) = PACK (csize - asize) 0
    else
      heap_inv st' (l1 ++ (csize, true) :: l2) Ls1 /\
      load64 (mem st') (bp - 8) = PACK csize 1 /\
      load64 (mem st') (bp + csize - 16) = PACK csize 1.
Proof.
  intros (Hok & Hlists & Htm & Hnaf) Hasize H16 Hfuel bp.
  destruct (place_spec st l1 csize l2 Ls asize fuel Hok Hlists Htm Hasize H16 Hfuel)
    as (st' & la & lb & Hrun & HL & Hsame & Hun & Hres).
  exists st', la, lb. split; [exact Hrun|]. split; [exact HL|].
  apply no_adj_free_mid in Hnaf as (Hn1 & Hn2 & Hnp & Hnn).
  simpl in Hnp, Hnn.
  destruct Hnp as [Hnp|]; [|discriminate]. destruct Hnn as [|Hnn]; [discriminate|].
  pose proof (first_block_same _ _ Hsame) as Hfb.
  cbv zeta in Hres |- *. destruct (decide (32 <= csize - asize)) as [Hsplit|Hnosplit].
  - destruct Hres as (lc & ld & HL' & Hok' & Hlists' & Htm').
    exists lc, ld. split; [exact HL'|]. split.
    { split; [exact Hok'|]. split; [exact Hlists'|]. split; [exact Htm'|].
      apply no_adj_free_mid. split; [auto|]. split.
      - apply no_adj_free_cons. auto.
      - simpl. auto. }
    assert ((bp, (asize, true)) ∈
            layout (first_block st') (l1 ++ (asize, true) :: (csize - asize, false) :: l2)) as H1.
    { rewrite Hfb. apply layout_mid. }
    assert ((bp + asize, (csize - asize, false)) ∈
            layout (first_block st') (l1 ++ (asize, true) :: (csize - asize, false) :: l2)) as H2.
    { rewrite Hfb. change (l1 ++ (asize, true) :: (csize - asize, false) :: l2)
        with (l1 ++ [(asize, true)] ++ (csize - asize, false) :: l2).
      rewrite app_assoc. replace (bp + asize) with (first_block st + total (l1 ++ [(asize, true)])).
      - apply layout_mid.
      - unfold bp. rewrite total_snoc. simpl. lia. }
    destruct (block_facts _ _ Hok' _ _ H1) as (_ & _ & _ & _ & _ & Hh1 & Hf1 & _).
    destruct (block_facts _ _ Hok' _ _ H2) as (_ & _ & _ & _ & _ & Hh2 & Hf2 & _).
    simpl in Hh1, Hf1, Hh2, Hf2.
    replace (bp + asize + (csize - asize) - 16) with (bp + csize - 16) in Hf2 by lia.
    auto.
  - destruct Hres as (Hok' & Hlists' & Htm'). split.
    { split; [exact Hok'|]. split; [exact Hlists'|]. split; [exact Htm'|].
      apply no_adj_free_mid. simpl. auto. }
    assert ((bp, (csize, true)) ∈ layout (first_block st') (l1 ++ (csize, true) :: l2)) as H1.
    { rewrite Hfb. apply layout_mid. }
    destruct (block_facts _ _ Hok' _ _ H1) as (_ & _ & _ & _ & _ & Hh1 & Hf1 & _).
    auto.
Qed.

(** * The size of the block handed to [place] *)

(** C10: a block that [find_fit] returns has a stored size of at least
    [asize]; and on a well-formed heap every call of [mm_malloc] with a size
    other than 0 either returns [NULL] without calling [place], or calls
    [place] on a block whose stored size [cs] is at least the adjusted size,
    the block being the one [find_fit] found or, when it found none, the one
    [extend_heap] returned for a growth of [MAX asize CHUNKSIZE] bytes, which
    has at least that size; so [csize - asize] in [place] does not wrap. *)
Theorem place_receives_fitting_block :
  (forall fuel st asize bp,
     find_fit fuel st asize = Done bp -> bp <> NULL ->
     GET_SIZE st (HDRP bp) = Done (block_size st bp) /\ asize <= block_size st bp) /\
  (forall st bl Ls size fuel,
     heap_inv st bl Ls -> size <> 0 -> (length bl < fuel)%nat ->
     let asize := adjusted_size size in
     let e := MAX asize CHUNKSIZE in
     mm_malloc fuel st size = Done (st, NULL) \/
     exists st1 bp cs,
       mm_malloc fuel st size = (st' ← place fuel st1 bp asize; Done (st', bp)) /\
       GET_SIZE st1 (HDRP bp) = Done cs /\ asize <= cs /\
       wrap (cs - asize) = cs - asize /\
       ((st1 = st /\ find_fit fuel st asize = Done bp /\ bp <> NULL) \/
        (find_fit fuel st asize = Done NULL /\
         extend_heap fuel st (e / WSIZE) = Done (st1, bp) /\ bp <> NULL /\ e <= cs))).
Proof.
  split; [apply find_fit_fits|].
  intros st bl Ls size fuel Hinv Hsize Hfuel asize e.
  destruct (adjusted_size_range size) as [Ha _]. fold asize in Ha.
  destruct (mm_malloc_steps st bl Ls size fuel Hinv Hsize Hfuel)
    as [(bp & cs & Hfind & Hnz & Hbp & Hfit & Hm)|[(_ & _ & Hm)|
        (st1 & bl1 & Ls1 & bp & cs & Hfind & Hext & Hnz & Hinv1 & _ & Hbp & Hfit & Hm)]].
  - right. exists st, bp, cs. destruct Hinv as (Hok & _).
    destruct (layout_header _ _ _ _ Hok Hbp) as (Hg & _ & Hcs). simpl in Hg, Hcs.
    fold asize in Hfit.
    split; [exact Hm|]. split; [exact Hg|]. split; [exact Hfit|].
    split; [apply wrap_small; lia|]. left. auto.
  - left. exact Hm.
  - right. exists st1, bp, cs. destruct Hinv1 as (Hok1 & _).
    destruct (layout_header _ _ _ _ Hok1 Hbp) as (Hg & _ & Hcs). simpl in Hg, Hcs.
    fold asize e in Hfit.
    split; [exact Hm|]. split; [exact Hg|]. split; [lia|].
    split; [apply wrap_small; lia|]. right. split; [exact Hfind|].
    split; [exact Hext|]. split; [exact Hnz|lia].
Qed.

(** * Alignment *)

(** In every state reached from a successful [mm_init] on a region with a
    16-aligned base by [mm_malloc], [mm_free] and [mm_realloc] calls for at
    most [2 ^ 64 - 32] bytes each (and client stores into held payloads),
    every pointer the client holds is a multiple of 16, every result of a
    further [mm_malloc] call, whatever its size, is [NULL] or a multiple of
    16, and the call returns for every size up to [2 ^ 64 - 32]. *)
Theorem payload_pointers_aligned st live :
  reachable st live ->
  (forall p, p ∈ live -> p mod 16 = 0) /\
  (forall size fuel st' p,
     mm_malloc fuel st size = Done (st', p) -> p = NULL \/ p mod 16 = 0) /\
  (forall size, 0 <= size <= 2 ^ 64 - 32 ->
     exists fuel st' p, mm_malloc fuel st size = Done (st', p)).
Proof.
  intros Hreach. destruct (reachable_inv _ _ Hreach) as (bl & Ls & Hinv & Hlive).
  split; [|split].
  - intros p Hp. apply Hlive in Hp as (t & Ht). destruct Hinv as (Hok & _).
    apply (allocs_header _ _ _ _ Hok Ht).
  - intros size fuel st' p Hrun. eapply mm_malloc_result_aligned; eauto.
  - intros size Hsize. exists (S (length bl)). destruct (Z.eq_dec size 0) as [->|Hnz].
    + rewrite mm_malloc_zero. eauto.
    + destruct (mm_malloc_spec st bl Ls size (S (length bl)) Hinv ltac:(lia) ltac:(lia))
        as (st' & p & Hrun & _). eauto.
Qed.

(** * Resize: the degenerate arguments *)

(** C7 (amended): with size 0 [mm_realloc] runs [mm_free] on the pointer: it
    returns exactly when [mm_free] returns, then with null and the state
    [mm_free] left, and it faults when [mm_free] faults; for a pointer to an
    allocated block of a well-formed heap both return and the block has been
    released; for a null pointer both fault, as [mm_free] reads the word at
    address -8, while [mm_malloc 0] returns null and leaves the state alone;
    with a null pointer and a size other than 0 [mm_realloc] behaves as
    [mm_malloc] of that size. *)
Theorem mm_realloc_degenerate :
  (forall fuel st ptr r,
     mm_realloc fuel st ptr 0 = Done r <->
     exists st', mm_free fuel st ptr = Done st' /\ r = (st', NULL)) /\
  (forall fuel st ptr,
     mm_free fuel st ptr = Fault -> mm_realloc fuel st ptr 0 = Fault) /\
  (forall st l1 s l2 Ls fuel,
     heap_inv st (l1 ++ (s, true) :: l2) Ls ->
     (length (l1 ++ (s, true) :: l2) <= S fuel)%nat ->
     exists st' Ls',
       mm_free fuel st (first_block st + total l1) = Done st' /\
       mm_realloc fuel st (first_block st + total l1) 0 = Done (st', NULL) /\
       heap_inv st' (coalesced l1 s l2) Ls') /\
  (forall fuel st,
     0 <= mem_start_brk st ->
     mm_free fuel st NULL = Fault /\ mm_realloc fuel st NULL 0 = Fault /\
     mm_malloc fuel st 0 = Done (st, NULL)) /\
  (forall fuel st size,
     size <> 0 -> mm_realloc fuel st NULL size = mm_malloc fuel st size).
Proof.
  split; [|split; [|split; [|split]]].
  - intros fuel st ptr r. rewrite mm_realloc_zero. split.
    + destruct (mm_free fuel st ptr) as [st'| |]; simpl; intros H; try discriminate.
      exists st'. split; [reflexivity|]. apply Done_inj in H. symmetry. exact H.
    + intros (st' & -> & ->). reflexivity.
  - intros fuel st ptr H. rewrite mm_realloc_zero, H. reflexivity.
  - intros st l1 s l2 Ls fuel Hinv Hfuel.
    destruct (mm_free_spec st l1 s l2 Ls fuel Hinv Hfuel) as (st' & Ls' & Hrun & Hinv' & _).
    exists st', Ls'. split; [exact Hrun|]. split; [|exact Hinv'].
    rewrite mm_realloc_zero, Hrun. reflexivity.
  - intros fuel st Hs.
    assert (mm_free fuel st NULL = Fault) as H.
    { unfold mm_free, GET_SIZE, GET, HDRP, NULL, WSIZE, valid_word.
      destruct (Z.leb_spec (mem_start_brk st) (0 - 8)); [lia|]. reflexivity. }
    split; [exact H|]. split; [|apply mm_malloc_zero].
    rewrite mm_realloc_zero, H. reflexivity.
  - intros fuel st size. apply mm_realloc_null.
Qed.

(** * The example states *)

(** Closed facts about the example states, by evaluation. *)
Ltac eval_tac :=
  vm_compute; repeat split; try reflexivity; try discriminate.

Ltac example_inv s :=
  split; [|split; [|split]];
  [ constructor; try (eval_tac; fail); repeat constructor; eval_tac
  | constructor;
    [ vm_compute; reflexivity
    | intros i Hi; do 10 (destruct i as [|i]; [eval_tac|]); unfold N_LISTS in Hi; lia
    | intros i; do 8 (destruct i as [|i]; [apply NoDup_nil_2|]);
      destruct i; [apply NoDup_singleton|apply NoDup_nil_2]
    | intros i j y Hi Hj;
      do 8 (destruct i as [|i]; [inversion Hi|]); destruct i; [|inversion Hi];
      do 8 (destruct j as [|j]; [inversion Hj|]); destruct j; [reflexivity|inversion Hj]
    | intros i y Hi;
      do 8 (destruct i as [|i]; [inversion Hi|]); destruct i; [|inversion Hi];
      apply list_elem_of_singleton in Hi as ->; eval_tac
    | eval_tac
    | eval_tac ]
  | constructor;
    [ intros i y Hi;
      do 8 (destruct i as [|i]; [inversion Hi|]); destruct i; [|inversion Hi];
      apply list_elem_of_singleton in Hi as ->; split; [tauto|];
      exists s; split; [|reflexivity];
      apply layout_elem
    | intros y t Hy _ ]
  | simpl; auto ].

Lemma example_heap_inv : heap_inv example_heap [(4096, false)] example_table.
Proof.
  example_inv 4096.
  - exists [], []. split; [reflexivity|vm_compute; reflexivity].
  - replace (first_block example_heap) with 4128 in Hy by (vm_compute; reflexivity).
    simpl in Hy. apply list_elem_of_singleton in Hy. injection Hy as -> ->.
    change (4128 ∈ [4128]). apply list_elem_of_singleton. reflexivity.
Qed.

Lemma example_alloc_inv :
  heap_inv example_alloc [(48, true); (4048, false)] example_alloc_table.
Proof.
  example_inv 4048.
  - exists [(48, true)], []. split; [reflexivity|vm_compute; reflexivity].
  - replace (first_block example_alloc) with 4128 in Hy by (vm_compute; reflexivity).
    simpl in Hy. apply elem_of_cons in Hy as [Hy|Hy]; [discriminate|].
    apply list_elem_of_singleton in Hy. injection Hy as -> ->.
    change (4176 ∈ [4176]). apply list_elem_of_singleton. reflexivity.
Qed.

(** * Resizing *)

(** C8: at [example_alloc], where 4128 is an allocated block of 48 bytes,
    [mm_realloc 4128 (2 ^ 64 - 1)] does not obtain a block of the new size:
    [mm_malloc] places a block of 16 bytes in all at 4176, in front of a free
    block with header [PACK 4032 0]; the 32 payload bytes copied to 4176 then
    overwrite the footer of that block and the header of the free block, and
    the heap that the call leaves is not well formed. *)
Theorem mm_realloc_huge_size_overruns :
  (4128, 48) ∈ allocs (first_block example_alloc) [(48, true); (4048, false)] /\
  (exists st2,
     mm_malloc 1 example_alloc (2 ^ 64 - 1) = Done (st2, 4176) /\
     GET st2 (HDRP 4176) = Done (PACK 16 1) /\
     GET st2 (HDRP 4192) = Done (PACK 4032 0)) /\
  mm_realloc 1 example_alloc 4128 (2 ^ 64 - 1) = Done (example_overrun, 4176) /\
  GET example_overrun (HDRP 4176) = Done (PACK 16 1) /\
  GET example_overrun 4176 = Done 0 /\
  GET example_overrun (HDRP 4192) = Done 0 /\
  seg_get example_overrun 8 = 4192 /\
  forall bl, ~ heap_ok example_overrun bl.
Proof.
  split; [vm_compute; left|].
  split.
  { exists (match mm_malloc 1 example_alloc (2 ^ 64 - 1) with
            | Done (st, _) => st
            | _ => example_alloc
            end). eval_tac. }
  do 5 (split; [eval_tac|]).
  intros bl Hok.
  pose proof (ok_sizes _ _ Hok) as Hsz. pose proof (ok_blocks _ _ Hok) as Hbl.
  pose proof (ok_brk _ _ Hok) as Hbrk.
  replace (first_block example_overrun) with 4128 in Hbl, Hbrk by (vm_compute; reflexivity).
  replace (mem_brk example_overrun) with 8224 in Hbrk by (vm_compute; reflexivity).
  destruct bl as [|b1 bl]; [discriminate Hbrk|].
  apply sizes_ok_cons in Hsz as [[H32 H16] Hsz]. rewrite total_cons in Hbrk.
  pose proof (total_nonneg _ Hsz) as Hnn. destruct Hbl as (Hh1 & _ & Hbl).
  assert (fst b1 = 48) as E1.
  { rewrite <- (tag_size_of b1) by lia. rewrite <- Hh1. vm_compute. reflexivity. }
  rewrite E1 in *. destruct bl as [|b2 bl]; [unfold total in Hbrk; simpl in Hbrk; lia|].
  apply sizes_ok_cons in Hsz as [[H32' H16'] Hsz]. rewrite total_cons in Hbrk.
  pose proof (total_nonneg _ Hsz) as Hnn'. destruct Hbl as (Hh2 & _).
  assert (fst b2 = 16) as E2.
  { rewrite <- (tag_size_of b2) by lia. rewrite <- Hh2. vm_compute. reflexivity. }
  lia.
Qed.

(** * The fragmented heap *)

(** Case analysis on membership in a list that is written out. *)
Ltac elem_cases H :=
  repeat (apply elem_of_cons in H as [H|H]); [..|inversion H].

Ltac elem_search :=
  repeat first [apply list_elem_of_here | apply list_elem_of_further].

(** Case analysis on the bucket index [i] and on the member [H] of a
    table that is written out; [tac] closes each case. *)
Ltac by_bucket i H tac :=
  do 10 (destruct i as [|i]; [simpl in H; elem_cases H; tac|]); inversion H.

Lemma example_frag_layout :
  layout (first_block example_frag) example_frag_blocks =
  [(4128, (80, false)); (4208, (32, true)); (4240, (96, false)); (4336, (32, true));
   (4368, (112, false)); (4480, (32, true)); (4512, (144, false)); (4656, (32, true));
   (4688, (176, false)); (4864, (32, true)); (4896, (3328, false))].
Proof. vm_compute. reflexivity. Qed.

Lemma example_frag_heap_ok : heap_ok example_frag example_frag_blocks.
Proof. constructor; try (eval_tac; fail); repeat constructor; eval_tac. Qed.

Lemma example_frag_lists_ok : lists_ok example_frag example_frag_table.
Proof.
  constructor.
  - vm_compute. reflexivity.
  - intros i Hi. do 10 (destruct i as [|i]; [eval_tac|]). unfold N_LISTS in Hi. lia.
  - intros i. do 10 (destruct i as [|i]; [refine (bool_decide_unpack _ _); vm_compute; exact I|]).
    apply NoDup_nil_2.
  - intros i j y Hi Hj.
    by_bucket i Hi ltac:(by_bucket j Hj ltac:(first [reflexivity | lia])).
  - intros i y Hi. by_bucket i Hi ltac:(subst y; eval_tac).
  - eval_tac.
  - eval_tac.
Qed.

Lemma example_frag_table_matches :
  table_matches example_frag example_frag_blocks example_frag_table (fun _ => False).
Proof.
  constructor.
  - intros i y Hi. split; [tauto|]. rewrite example_frag_layout.
    by_bucket i Hi ltac:(subst y; eexists; split; [elem_search|reflexivity]).
  - intros y t Hy _. rewrite example_frag_layout in Hy.
    elem_cases Hy; try discriminate Hy; injection Hy as -> ->; simpl; elem_search.
Qed.

Lemma example_frag_inv : heap_inv example_frag example_frag_blocks example_frag_table.
Proof.
  split; [exact example_frag_heap_ok|]. split; [exact example_frag_lists_ok|].
  split; [exact example_frag_table_matches|]. simpl. auto 20.
Qed.

Lemma example_frag_removed_layout :
  layout (first_block example_frag_removed) example_frag_blocks =
  [(4128, (80, false)); (4208, (32, true)); (4240, (96, false)); (4336, (32, true));
   (4368, (112, false)); (4480, (32, true)); (4512, (144, false)); (4656, (32, true));
   (4688, (176, false)); (4864, (32, true)); (4896, (3328, false))].
Proof. vm_compute. reflexivity. Qed.

Lemma example_frag_removed_ok :
  remove_block example_frag 4240 = Done example_frag_removed /\
  heap_ok example_frag_removed example_frag_blocks /\
  lists_ok example_frag_removed example_frag_rest /\
  table_matches example_frag_removed example_frag_blocks example_frag_rest
    (fun y => y = 4240) /\
  (4240, (96, false)) ∈ layout (first_block example_frag_removed) example_frag_blocks.
Proof.
  split; [vm_compute; reflexivity|].
  split; [constructor; try (eval_tac; fail); repeat constructor; eval_tac|].
  split; [|split].
  - constructor.
    + vm_compute. reflexivity.
    + intros i Hi. do 10 (destruct i as [|i]; [eval_tac|]). unfold N_LISTS in Hi. lia.
    + intros i.
      do 10 (destruct i as [|i]; [refine (bool_decide_unpack _ _); vm_compute; exact I|]).
      apply NoDup_nil_2.
    + intros i j y Hi Hj.
      by_bucket i Hi ltac:(by_bucket j Hj ltac:(first [reflexivity | lia])).
    + intros i y Hi. by_bucket i Hi ltac:(subst y; eval_tac).
    + eval_tac.
    + eval_tac.
  - constructor.
    + intros i y Hi. rewrite example_frag_removed_layout.
      by_bucket i Hi ltac:(subst y; split; [discriminate|];
                           eexists; split; [elem_search|reflexivity]).
    + intros y t Hy Hne. rewrite example_frag_removed_layout in Hy.
      elem_cases Hy; try discriminate Hy; injection Hy as -> ->;
        try (exfalso; apply Hne; reflexivity); simpl; elem_search.
  - rewrite example_frag_removed_layout. elem_search.
Qed.

(** * Placement of a size that is not an adjusted size *)

(** C5, as stated, fails for a size that is not an adjusted size: at
    [example_heap], whose one free block at 4128 has 4096 bytes, [place]
    with [asize = 0] (what [mm_malloc] passes for a request of [2 ^ 64 - 31]
    bytes, whose adjusted size wraps to 0) returns with the block still free,
    of its whole size and at the head of its bucket, and with the prologue
    footer at 4112 overwritten by [PACK 0 1]: the front part and the
    remainder are the same block, no block has been marked allocated, and
    the heap is no longer well formed. *)
Lemma place_zero_size_keeps_block_free :
  heap_inv example_heap ([] ++ (4096, false) :: []) example_table /\
  0 <= 4096 /\
  first_block example_heap + total [] = 4128 /\
  adjusted_size (2 ^ 64 - 31) = 0 /\
  exists st',
    place 1 example_heap 4128 0 = Done st' /\
    mm_malloc 1 example_heap (2 ^ 64 - 31) = Done (st', 4128) /\
    load64 (mem st') (4128 - 8) = PACK 4096 0 /\
    load64 (mem st') (4128 + 4096 - 16) = PACK 4096 0 /\
    seg_get st' (get_list_index 4096) = 4128 /\
    load64 (mem example_heap) 4112 = PACK DSIZE 1 /\
    load64 (mem st') 4112 = PACK 0 1 /\
    forall bl, ~ heap_ok st' bl.
Proof.
  split; [exact example_heap_inv|]. split; [lia|].
  split; [vm_compute; reflexivity|]. split; [vm_compute; reflexivity|].
  set (st' := match place 1 example_heap 4128 0 with
              | Done st => st
              | _ => example_heap
              end).
  exists st'.
  do 7 (split; [vm_compute; reflexivity|]).
  intros bl Hok. pose proof (ok_prologue_ftr _ _ Hok) as H.
  assert (load64 (mem st') (mem_start_brk st' + 16) = 1) as E by (vm_compute; reflexivity).
  rewrite E in H. change (PACK DSIZE 1) with 17 in H. discriminate H.
Qed.

(** * A misaligned result *)

(** C6 (the code departs from the claim): after [mm_init] on a region at
    4096, [mm_malloc 64] returns 4128, a block of 80 bytes; the client stores
    three bytes into its payload; [mm_realloc 4128 (2 ^ 64 - 1)] then places
    a block of 16 bytes in all at 4208 (the adjusted size has wrapped) and
    copies the 64 payload bytes to 4208, over the header and the link words
    of the free block at 4224; the next [mm_malloc 100] follows the copied
    successor link and returns 4169, which is not a multiple of 16. *)
Theorem mm_malloc_misaligned_after_overrun :
  mm_init 0 (fresh_state ∅ 4096 1052672) = Done (example_heap, 0) /\
  mm_malloc 1 example_heap 64 = Done (example_block, 4128) /\
  block_size example_block 4128 - 16 = 64 /\
  exists st2 st3,
    mm_realloc 1 example_stored 4128 (2 ^ 64 - 1) = Done (st2, 4208) /\
    seg_get st2 8 = 4224 /\
    load64 (mem st2) (4224 + 8) = 4169 /\
    block_size st2 4169 = 128 /\
    mm_malloc 2 st2 100 = Done (st3, 4169) /\
    4169 <> NULL /\ 4169 mod 16 = 9.
Proof.
  do 3 (split; [vm_compute; reflexivity|]).
  exists (match mm_realloc 1 example_stored 4128 (2 ^ 64 - 1) with
          | Done (st, _) => st
          | _ => example_stored
          end).
  exists (match mm_realloc 1 example_stored 4128 (2 ^ 64 - 1) with
          | Done (st, _) =>
              match mm_malloc 2 st 100 with
              | Done (st', _) => st'
              | _ => st
              end
          | _ => example_stored
          end).
  do 5 (split; [vm_compute; reflexivity|]).
  split; [discriminate|reflexivity].
Qed.

(** * The theorems at the example states *)

Lemma example_alloc_reachable : reachable example_alloc [4128].
Proof.
  apply (reach_malloc example_heap [] 1 24 example_alloc 4128).
  - apply (reach_init ∅ 4096 1052672 0 example_heap); eval_tac.
  - lia.
  - vm_compute. reflexivity.
Qed.

Lemma example_frag_buckets i :
  (i < N_LISTS)%nat ->
  bucket_list example_frag i (example_frag_table i) /\
  (length (example_frag_table i) <= 3)%nat.
Proof.
  intros Hi.
  do 10 (destruct i as [|i];
         [split; [vm_compute; repeat split; try reflexivity; try discriminate;
                  repeat constructor|simpl; lia]|]).
  unfold N_LISTS in Hi. lia.
Qed.

Lemma find_fit_first_admissible_bucket_witness :
  map (block_size example_frag) (example_frag_table 3) = [80; 96; 112] /\
  map (block_size example_frag) (example_frag_table 4) = [144; 176] /\
  find_fit 3 example_frag 128 = Done 4512 /\
  find_fit 3 example_frag 96 = Done 4240 /\
  (forall i, (i < N_LISTS)%nat ->
     bucket_list example_frag i (example_frag_table i) /\
     (length (example_frag_table i) <= 3)%nat) /\
  (0 <= 128 /\
   exists r, find_fit 3 example_frag 128 = Done r /\
     ((r = NULL /\
       forall j b, (get_list_index 128 <= j < N_LISTS)%nat -> b ∈ example_frag_table j ->
                   block_size example_frag b < 128) \/
      (r <> NULL /\
       exists k, (get_list_index 128 <= k < N_LISTS)%nat /\
         first_best example_frag 128 (example_frag_table k) r /\
         forall j b, (get_list_index 128 <= j < k)%nat -> b ∈ example_frag_table j ->
                     block_size example_frag b < 128))) /\
  (0 <= 96 /\
   exists r, find_fit 3 example_frag 96 = Done r /\
     ((r = NULL /\
       forall j b, (get_list_index 96 <= j < N_LISTS)%nat -> b ∈ example_frag_table j ->
                   block_size example_frag b < 96) \/
      (r <> NULL /\
       exists k, (get_list_index 96 <= k < N_LISTS)%nat /\
         first_best example_frag 96 (example_frag_table k) r /\
         forall j b, (get_list_index 96 <= j < k)%nat -> b ∈ example_frag_table j ->
                     block_size example_frag b < 96))).
Proof.
  do 4 (split; [vm_compute; reflexivity|]).
  split; [exact example_frag_buckets|]. split.
  - split; [lia|].
    apply (find_fit_first_admissible_bucket example_frag 128 3 example_frag_table);
      [lia|exact example_frag_buckets].
  - split; [lia|].
    apply (find_fit_first_admissible_bucket example_frag 96 3 example_frag_table);
      [lia|exact example_frag_buckets].
Defined.

Lemma mm_free_merges_neighbours_witness :
  heap_inv example_alloc ([] ++ (48, true) :: [(4048, false)]) example_alloc_table /\
  (length ([] ++ (48%Z, true) :: [(4048%Z, false)]) <= 2)%nat /\
  let bl := [] ++ (48, true) :: [(4048, false)] in
  let bp := first_block example_alloc + total [] in
  let merged := bp - prev_free_size [] in
  let size := prev_free_size [] + 48 + next_free_size [(4048, false)] in
  exists st' Ls',
    mm_free 1 example_alloc bp = Done st' /\
    heap_inv st' (coalesced [] 48 [(4048, false)]) Ls' /\
    no_adj_free (coalesced [] 48 [(4048, false)]) /\
    (forall x b, (x, b) ∈ layout (first_block st') (coalesced [] 48 [(4048, false)]) <->
       (x, b) = (merged, (size, false)) \/
       ((x, b) ∈ layout (first_block example_alloc) bl /\
        (x < merged \/ merged + size <= x))) /\
    (forall i x, x ∈ Ls' i <->
       (x = merged /\ i = get_list_index size) \/
       (x ∈ example_alloc_table i /\ (x < merged \/ merged + size <= x))) /\
    (forall i, NoDup (Ls' i)).
Proof.
  split; [exact example_alloc_inv|]. split; [simpl; lia|].
  apply (mm_free_merges_neighbours example_alloc [] 48 [(4048, false)] example_alloc_table 1
           example_alloc_inv).
  simpl. lia.
Defined.

Lemma place_splits_or_takes_whole_witness :
  let l1 := [(80, false); (32, true); (96, false); (32, true); (112, false); (32, true);
             (144, false); (32, true)] in
  let l2 := [(32, true); (3328, false)] in
  heap_inv example_frag (l1 ++ (176, false) :: l2) example_frag_table /\
  32 <= 80 <= 176 /\ 80 mod 16 = 0 /\
  (length (l1 ++ (176%Z, false) :: l2) <= 11)%nat /\
  example_frag_table (get_list_index 176) = [4512; 4688] /\
  example_frag_table (get_list_index (176 - 80)) = [4128; 4240; 4368] /\
  let bp := first_block example_frag + total l1 in
  exists st' la lb,
    place 11 example_frag bp 80 = Done st' /\
    example_frag_table (get_list_index 176) = la ++ bp :: lb /\
    let Ls1 := <[get_list_index 176 := la ++ lb]> example_frag_table in
    if decide (32 <= 176 - 80) then
      exists lc ld,
        Ls1 (get_list_index (176 - 80)) = lc ++ ld /\
        heap_inv st' (l1 ++ (80, true) :: (176 - 80, false) :: l2)
          (<[get_list_index (176 - 80) := lc ++ (bp + 80) :: ld]> Ls1) /\
        load64 (mem st') (bp - 8) = PACK 80 1 /\
        load64 (mem st') (bp + 80 - 16) = PACK 80 1 /\
        load64 (mem st') (bp + 80 - 8) = PACK (176 - 80) 0 /\
        load64 (mem st') (bp + 176 - 16) = PACK (176 - 80) 0
    else
      heap_inv st' (l1 ++ (176, true) :: l2) Ls1 /\
      load64 (mem st') (bp - 8) = PACK 176 1 /\
      load64 (mem st') (bp + 176 - 16) = PACK 176 1.
Proof.
  intros l1 l2.
  split; [exact example_frag_inv|]. split; [lia|]. split; [reflexivity|].
  split; [simpl; lia|]. split; [reflexivity|]. split; [reflexivity|].
  apply (place_splits_or_takes_whole example_frag l1 176 l2 example_frag_table 80 11
           example_frag_inv); [lia|reflexivity|simpl; lia].
Defined.

Lemma payload_pointers_aligned_witness :
  reachable example_alloc [4128] /\
  (forall p, p ∈ [4128] -> p mod 16 = 0) /\
  (forall size fuel st' p,
     mm_malloc fuel example_alloc size = Done (st', p) -> p = NULL \/ p mod 16 = 0) /\
  (forall size, 0 <= size <= 2 ^ 64 - 32 ->
     exists fuel st' p, mm_malloc fuel example_alloc size = Done (st', p)).
Proof.
  split; [exact example_alloc_reachable|].
  apply (payload_pointers_aligned example_alloc [4128] example_alloc_reachable).
Defined.

Lemma extend_heap_grows_or_fails_witness :
  0 < 512 /\ round_even 512 * 8 < 2 ^ 64 /\
  mem_start_brk example_heap + 8 <= mem_brk example_heap /\
  mem_max_addr example_heap < SIZE_MAX /\
  (mem_brk example_heap + round_even 512 * 8 <= mem_max_addr example_heap ->
   exists st4,
     extend_heap 1 example_heap 512 = coalesce 1 st4 (mem_brk example_heap) /\
     mem_brk st4 = mem_brk example_heap + round_even 512 * 8 /\
     mem_start_brk st4 = mem_start_brk example_heap /\
     mem_max_addr st4 = mem_max_addr example_heap /\
     heap_listp st4 = heap_listp example_heap /\ seg_list st4 = seg_list example_heap /\
     load64 (mem st4) (mem_brk example_heap - 8) = PACK (round_even 512 * 8) 0 /\
     load64 (mem st4) (mem_brk example_heap + round_even 512 * 8 - 16) =
       PACK (round_even 512 * 8) 0 /\
     load64 (mem st4) (mem_brk example_heap + round_even 512 * 8 - 8) = PACK 0 1 /\
     unchanged_outside
       (fun a => mem_brk example_heap - 8 <= a < mem_brk example_heap + round_even 512 * 8)
       (mem example_heap) (mem st4)) /\
  (mem_max_addr example_heap < mem_brk example_heap + round_even 512 * 8 ->
   extend_heap 1 example_heap 512 = Done (example_heap, NULL)).
Proof.
  assert (0 < 512) as H1 by lia.
  assert (round_even 512 * 8 < 2 ^ 64) as H2 by (vm_compute; reflexivity).
  assert (mem_start_brk example_heap + 8 <= mem_brk example_heap) as H3
    by (vm_compute; discriminate).
  assert (mem_max_addr example_heap < SIZE_MAX) as H4 by (vm_compute; reflexivity).
  split; [exact H1|]. split; [exact H2|]. split; [exact H3|]. split; [exact H4|].
  apply (extend_heap_grows_or_fails example_heap 512 1 H1 H2 H3 H4).
Defined.

Lemma place_receives_fitting_block_witness :
  (find_fit 1 example_heap 48 = Done 4128 -> 4128 <> NULL ->
   GET_SIZE example_heap (HDRP 4128) = Done (block_size example_heap 4128) /\
   48 <= block_size example_heap 4128) /\
  heap_inv example_heap [(4096, false)] example_table /\ 24 <> 0 /\
  (length [(4096%Z, false)] < 2)%nat /\
  let asize := adjusted_size 24 in
  let e := MAX asize CHUNKSIZE in
  (mm_malloc 2 example_heap 24 = Done (example_heap, NULL) \/
   exists st1 bp cs,
     mm_malloc 2 example_heap 24 = (st' ← place 2 st1 bp asize; Done (st', bp)) /\
     GET_SIZE st1 (HDRP bp) = Done cs /\ asize <= cs /\
     wrap (cs - asize) = cs - asize /\
     ((st1 = example_heap /\ find_fit 2 example_heap asize = Done bp /\ bp <> NULL) \/
      (find_fit 2 example_heap asize = Done NULL /\
       extend_heap 2 example_heap (e / WSIZE) = Done (st1, bp) /\ bp <> NULL /\ e <= cs))).
Proof.
  split; [apply (proj1 place_receives_fitting_block 1%nat example_heap 48 4128)|].
  split; [exact example_heap_inv|]. split; [lia|]. split; [simpl; lia|].
  apply (proj2 place_receives_fitting_block example_heap [(4096, false)] example_table 24 2%nat
           example_heap_inv); [lia|simpl; lia].
Defined.

Lemma mm_realloc_degenerate_witness :
  heap_inv example_alloc ([] ++ (48, true) :: [(4048, false)]) example_alloc_table /\
  (length ([] ++ (48%Z, true) :: [(4048%Z, false)]) <= 2)%nat /\
  (exists st' Ls',
     mm_free 1 example_alloc (first_block example_alloc + total []) = Done st' /\
     mm_realloc 1 example_alloc (first_block example_alloc + total []) 0 = Done (st', NULL) /\
     heap_inv st' (coalesced [] 48 [(4048, false)]) Ls') /\
  0 <= mem_start_brk example_alloc /\
  (mm_free 1 example_alloc NULL = Fault /\ mm_realloc 1 example_alloc NULL 0 = Fault /\
   mm_malloc 1 example_alloc 0 = Done (example_alloc, NULL)) /\
  (mm_free 1 example_alloc NULL = Fault -> mm_realloc 1 example_alloc NULL 0 = Fault) /\
  24 <> 0 /\ mm_realloc 1 example_heap NULL 24 = mm_malloc 1 example_heap 24.
Proof.
  destruct mm_realloc_degenerate as (_ & Hfault & Hheld & Hnull & Hmalloc).
  assert (0 <= mem_start_brk example_alloc) as Hs by (vm_compute; discriminate).
  split; [exact example_alloc_inv|]. split; [simpl; lia|].
  split; [apply (Hheld example_alloc [] 48 [(4048, false)] example_alloc_table 1%nat
                   example_alloc_inv); simpl; lia|].
  split; [exact Hs|]. split; [exact (Hnull 1%nat example_alloc Hs)|].
  split; [exact (Hfault 1%nat example_alloc NULL)|].
  split; [lia|]. apply (Hmalloc 1%nat example_heap 24). lia.
Defined.

(** * Header words *)

(** A header written with [PUT (PACK size alloc)] reads back its two fields:
    [GET_SIZE] gives the size and [GET_ALLOC] the allocated bit, for a size
    that is a multiple of 16 and an allocated bit of 0 or 1. *)
Theorem header_word_round_trip st p size alloc :
  valid_word st p = true ->
  0 <= size -> size + alloc < 2 ^ 64 -> size mod 16 = 0 -> 0 <= alloc <= 1 ->
  exists st',
    PUT st p (PACK size alloc) = Done st' /\
    GET_SIZE st' p = Done size /\ GET_ALLOC st' p = Done alloc /\
    forall q, q + 8 <= p \/ p + 8 <= q -> GET st' q = GET st q.
Proof.
  intros Hv H0 Hlt H16 Ha.
  rewrite PUT_valid by exact Hv. eexists. split; [reflexivity|].
  assert (forall q, valid_word (set_mem st (store64 (mem st) p (PACK size alloc))) q
                    = valid_word st q) as Hvq by reflexivity.
  assert (load64 (mem (set_mem st (store64 (mem st) p (PACK size alloc)))) p = size + alloc)
    as Hl.
  { simpl. rewrite load64_store64_eq, PACK_add by lia. apply Z.mod_small. lia. }
  split; [|split].
  - unfold GET_SIZE. rewrite GET_valid by (rewrite Hvq; exact Hv).
    rewrite bind_Done, Hl, tag_size by lia. reflexivity.
  - unfold GET_ALLOC. rewrite GET_valid by (rewrite Hvq; exact Hv).
    rewrite bind_Done, Hl, tag_alloc by lia. reflexivity.
  - intros q Hq. unfold GET. rewrite Hvq. destruct (valid_word st q); [|reflexivity].
    simpl. rewrite load64_store64_disj by exact Hq. reflexivity.
Qed.

Lemma header_word_round_trip_witness :
  valid_word example_heap 4120 = true /\
  0 <= 48 /\ 48 + 1 < 2 ^ 64 /\ 48 mod 16 = 0 /\ 0 <= 1 <= 1 /\
  exists st',
    PUT example_heap 4120 (PACK 48 1) = Done st' /\
    GET_SIZE st' 4120 = Done 48 /\ GET_ALLOC st' 4120 = Done 1 /\
    forall q, q + 8 <= 4120 \/ 4120 + 8 <= q -> GET st' q = GET example_heap q.
Proof.
  assert (valid_word example_heap 4120 = true) as H by (vm_compute; reflexivity).
  split; [exact H|]. split; [lia|]. split; [lia|]. split; [reflexivity|]. split; [lia|].
  apply (header_word_round_trip example_heap 4120 48 1 H); [lia|lia|reflexivity|lia].
Defined.

(** * Rounding *)

(** [ALIGN x] is the least multiple of 16 that is at least [x], as long as
    that multiple is below [2 ^ 64]; for the 15 larger values of [size_t] the
    sum [x + 15] wraps and [ALIGN x] is 0. *)
Theorem ALIGN_rounds_up x :
  0 <= x < 2 ^ 64 ->
  (x <= 2 ^ 64 - 16 -> ALIGN x mod 16 = 0 /\ x <= ALIGN x < x + 16) /\
  (2 ^ 64 - 16 < x -> ALIGN x = 0).
Proof.
  intros Hx. split.
  - intros Hle. rewrite ALIGN_spec by lia. unfold spec_align. lia_mod.
  - intros Hgt. unfold ALIGN, ALIGNMENT.
    assert (wrap (x + (16 - 1)) = x + 15 - 2 ^ 64) as ->.
    { unfold wrap, SIZE_MOD. lia_mod. }
    rewrite land_MASK_F by lia. lia_mod.
Qed.

Lemma ALIGN_rounds_up_witness :
  0 <= 40 < 2 ^ 64 /\ ALIGN 40 mod 16 = 0 /\ 40 <= ALIGN 40 < 40 + 16.
Proof.
  split; [lia|]. apply (proj1 (ALIGN_rounds_up 40 ltac:(lia))). lia.
Defined.

(** * Null pointers *)

(** [mm_free] has no null check: called with [NULL] it reads the header word
    at address -8, which no region with non-negative addresses grants; the
    same holds for [mm_realloc] with [NULL] and size 0, which calls
    [mm_free]. *)
Theorem mm_free_null_faults fuel st :
  0 <= mem_start_brk st ->
  mm_free fuel st NULL = Fault /\ mm_realloc fuel st NULL 0 = Fault.
Proof.
  intros Hs.
  assert (mm_free fuel st NULL = Fault) as H.
  { unfold mm_free, GET_SIZE, GET, HDRP, NULL, WSIZE, valid_word.
    destruct (Z.leb_spec (mem_start_brk st) (0 - 8)); [lia|]. reflexivity. }
  split; [exact H|]. rewrite mm_realloc_zero, H. reflexivity.
Qed.

Lemma mm_free_null_faults_witness :
  0 <= mem_start_brk example_alloc /\
  mm_free 1 example_alloc NULL = Fault /\ mm_realloc 1 example_alloc NULL 0 = Fault.
Proof.
  assert (0 <= mem_start_brk example_alloc) as H by (vm_compute; discriminate).
  split; [exact H|]. apply (mm_free_null_faults 1 example_alloc H).
Defined.

(** * Initialisation *)

(** [mm_init] on a fresh region succeeds exactly when the region can hold
    the 32 bytes of padding, prologue and epilogue and one chunk of 4096
    bytes: then it returns 0 and leaves a well-formed heap that is one free
    block of 4096 bytes; otherwise it returns -1. *)
Theorem mm_init_outcome m base limit fuel :
  0 < base -> base mod 16 = 0 -> limit < SIZE_MAX ->
  (base + 32 + 4096 <= limit ->
   exists st Ls,
     mm_init fuel (fresh_state m base limit) = Done (st, 0) /\
     heap_inv st [(4096, false)] Ls /\
     mem_start_brk st = base /\ mem_brk st = base + 32 + 4096 /\
     mem_max_addr st = limit /\ heap_listp st = base + 16) /\
  (limit < base + 32 + 4096 ->
   exists st, mm_init fuel (fresh_state m base limit) = Done (st, -1)).
Proof.
  intros Hbase H16 Hlimit.
  pose proof (mm_init_spec m base limit fuel Hbase H16 Hlimit) as Hspec.
  destruct (decide (base + 32 + 4096 <= limit)) as [Hfit|Hnofit].
  - split; [|lia]. intros _. destruct Hspec as (st & Ls & Hrun & Hinv & Hs & Hm).
    exists st, Ls. pose proof Hinv as (Hok & _).
    pose proof (ok_brk _ _ Hok) as Hbrk. pose proof (ok_heap_listp _ _ Hok) as Hhl.
    rewrite total_cons in Hbrk. unfold first_block, total in Hbrk. simpl in Hbrk.
    split; [exact Hrun|]. split; [exact Hinv|]. split; [exact Hs|].
    split; [lia|]. split; [exact Hm|lia].
  - split; [lia|]. intros _. exact Hspec.
Qed.

Lemma mm_init_outcome_witness :
  0 < 4096 /\ 4096 mod 16 = 0 /\ 1052672 < SIZE_MAX /\
  (4096 + 32 + 4096 <= 1052672 ->
   exists st Ls,
     mm_init 0 (fresh_state ∅ 4096 1052672) = Done (st, 0) /\
     heap_inv st [(4096, false)] Ls /\
     mem_start_brk st = 4096 /\ mem_brk st = 4096 + 32 + 4096 /\
     mem_max_addr st = 1052672 /\ heap_listp st = 4096 + 16) /\
  (1052672 < 4096 + 32 + 4096 ->
   exists st, mm_init 0 (fresh_state ∅ 4096 1052672) = Done (st, -1)).
Proof.
  assert (1052672 < SIZE_MAX) as H by reflexivity.
  split; [lia|]. split; [reflexivity|]. split; [exact H|].
  apply (mm_init_outcome ∅ 4096 1052672 0 ltac:(lia) eq_refl H).
Defined.

(** * Reachable states *)

(** Every state reached from a successful [mm_init] by [mm_malloc],
    [mm_free] and [mm_realloc] calls on held pointers (and client stores
    into held payloads) is a well-formed heap, and its allocated blocks are
    exactly the pointers the client holds. *)
Theorem reachable_heap_well_formed st live :
  reachable st live ->
  exists bl Ls, heap_inv st bl Ls /\
    forall x, x ∈ live <-> exists t, (x, t) ∈ allocs (first_block st) bl.
Proof. intros H. apply reachable_inv. exact H. Qed.

Lemma reachable_heap_well_formed_witness :
  reachable example_alloc [4128] /\
  exists bl Ls, heap_inv example_alloc bl Ls /\
    forall x, x ∈ [4128] <-> exists t, (x, t) ∈ allocs (first_block example_alloc) bl.
Proof.
  split; [exact example_alloc_reachable|].
  apply (reachable_heap_well_formed example_alloc [4128] example_alloc_reachable).
Defined.

(** In a reachable state [mm_free] of a held pointer returns (no access
    leaves the region and the list walks end), and so does [mm_realloc] of a
    held pointer for every size up to [2 ^ 64 - 32]; the state after the
    [mm_free] is reachable again. *)
Theorem held_pointer_calls_return st live p :
  reachable st live -> p ∈ live ->
  (exists fuel st', mm_free fuel st p = Done st' /\ reachable st' (release p live)) /\
  (forall size, 0 <= size <= 2 ^ 64 - 32 ->
     exists fuel st' q, mm_realloc fuel st p size = Done (st', q)).
Proof.
  intros Hreach Hp. destruct (reachable_inv _ _ Hreach) as (bl & Ls & Hinv & Hlive).
  pose proof Hp as Hp'. apply Hlive in Hp' as (t & Ht).
  pose proof Ht as Hl. apply elem_of_allocs, layout_elem in Hl as (l1 & l2 & Hbl & Hpeq).
  assert (exists st', mm_free (length bl) st p = Done st') as (st1 & Hfree).
  { subst bl p.
    destruct (mm_free_spec st l1 t l2 Ls (length (l1 ++ (t, true) :: l2)) Hinv ltac:(lia))
      as (st' & _ & Hrun & _). eauto. }
  split.
  - exists (length bl), st1. split; [exact Hfree|]. eapply reach_free; eauto.
  - intros size Hsize. exists (length bl + 2)%nat.
    destruct (Z.eq_dec size 0) as [->|Hnz].
    + rewrite mm_realloc_zero.
      rewrite (mm_free_mono (length bl) (length bl + 2) st p st1 ltac:(lia) Hfree).
      rewrite bind_Done. eauto.
    + destruct (mm_realloc_spec st bl Ls p t size (length bl + 2) Hinv Ht ltac:(lia) ltac:(lia))
        as (st2 & q & _ & [[_ Hrun]|(_ & st3 & st4 & bl' & Ls' & s & _ & _ & Hrun & _)]); eauto.
Qed.

Lemma held_pointer_calls_return_witness :
  reachable example_alloc [4128] /\ 4128 ∈ [4128] /\
  (exists fuel st',
     mm_free fuel example_alloc 4128 = Done st' /\ reachable st' (release 4128 [4128])) /\
  (forall size, 0 <= size <= 2 ^ 64 - 32 ->
     exists fuel st' q, mm_realloc fuel example_alloc 4128 size = Done (st', q)).
Proof.
  assert (4128 ∈ [4128]) as H by (apply list_elem_of_singleton; reflexivity).
  split; [exact example_alloc_reachable|]. split; [exact H|].
  apply (held_pointer_calls_return example_alloc [4128] 4128 example_alloc_reachable H).
Defined.

(** * Allocation *)

(** [place] with the size of the block it leaves allocated made explicit. *)
Lemma place_inv_size st l1 csize l2 Ls asize fuel :
  heap_inv st (l1 ++ (csize, false) :: l2) Ls ->
  32 <= asize <= csize -> asize mod 16 = 0 ->
  (length (l1 ++ (csize, false) :: l2) <= fuel)%nat ->
  exists st' bl' Ls' t,
    place fuel st (first_block st + total l1) asize = Done st' /\
    heap_inv st' bl' Ls' /\ same_region st st' /\
    (first_block st + total l1, (t, true)) ∈ layout (first_block st) bl' /\
    asize <= t < asize + 32 /\ t <= csize.
Proof.
  intros (Hok & Hlists & Htm & Hnaf) Hasize H16 Hfuel.
  destruct (place_spec st l1 csize l2 Ls asize fuel Hok Hlists Htm Hasize H16 Hfuel)
    as (st' & la & lb & Hrun & HL & Hsame & Hun & Hres).
  apply no_adj_free_mid in Hnaf as (Hn1 & Hn2 & Hnp & Hnn).
  simpl in Hnp, Hnn.
  destruct Hnp as [Hnp|]; [|discriminate]. destruct Hnn as [|Hnn]; [discriminate|].
  cbv zeta in Hres. destruct (decide (32 <= csize - asize)) as [Hsplit|Hnosplit].
  - destruct Hres as (lc & ld & HL' & Hok' & Hlists' & Htm').
    eexists st', (l1 ++ (asize, true) :: (csize - asize, false) :: l2), _, asize.
    split; [exact Hrun|]. split.
    { split; [exact Hok'|]. split; [exact Hlists'|]. split; [exact Htm'|].
      apply no_adj_free_mid. split; [auto|]. split.
      - apply no_adj_free_cons. auto.
      - simpl. auto. }
    split; [exact Hsame|]. split; [apply layout_mid|lia].
  - destruct Hres as (Hok' & Hlists' & Htm').
    eexists st', (l1 ++ (csize, true) :: l2), _, csize.
    split; [exact Hrun|]. split.
    { split; [exact Hok'|]. split; [exact Hlists'|]. split; [exact Htm'|].
      apply no_adj_free_mid. simpl. auto. }
    split; [exact Hsame|]. split; [apply layout_mid|lia].
Qed.

(** A block that [mm_malloc] returns is new and does not disturb the blocks
    already allocated: the requested bytes lie inside the region, 16-aligned,
    apart from every block allocated before (header to footer), and the
    payload bytes of those blocks are unchanged; a [NULL] result leaves the
    state as it was. *)
Theorem mm_malloc_fresh_block st bl Ls size fuel :
  heap_inv st bl Ls -> 0 < size <= 2 ^ 64 - 32 -> (length bl < fuel)%nat ->
  exists st' p, mm_malloc fuel st size = Done (st', p) /\
    ((p = NULL /\ st' = st) \/
     (p <> NULL /\ p mod 16 = 0 /\
      mem_start_brk st + 32 <= p /\ p + size <= mem_brk st' - 16 /\
      (forall x t, (x, t) ∈ allocs (first_block st) bl ->
                   x + t - 8 <= p \/ p + size <= x - 16) /\
      (forall a, alloc_payload (first_block st) bl a ->
                 load_byte (mem st') a = load_byte (mem st) a))).
Proof.
  intros Hinv Hsize Hfuel.
  destruct (mm_malloc_spec st bl Ls size fuel Hinv Hsize Hfuel) as (st' & p & Hrun & Hres).
  exists st', p. split; [exact Hrun|].
  destruct Hres as [Hnull|(Hpnz & bl' & Ls' & s & A1 & A2 & Hinv' & HA & HA' & Hs & Hst & _ &
                           _ & _ & Hpay & _)]; [left; exact Hnull|].
  right. pose proof Hinv' as (Hok' & _). pose proof (ok_sizes _ _ Hok') as Hsz'.
  assert (first_block st' = first_block st) as Hfb by (unfold first_block; congruence).
  assert ((p, s) ∈ allocs (first_block st') bl') as Hp.
  { rewrite Hfb, HA', elem_of_app, elem_of_cons. auto. }
  destruct (allocs_header _ _ _ _ Hok' Hp) as (_ & _ & Hlo & Hhi & Hp16 & Hsr).
  split; [exact Hpnz|]. split; [exact Hp16|].
  split; [unfold first_block in Hlo; lia|]. split; [lia|]. split; [|exact Hpay].
  intros x t Hx.
  assert ((x, t) ∈ allocs (first_block st') bl') as Hx'.
  { rewrite Hfb, HA'. rewrite HA in Hx. rewrite elem_of_app, elem_of_cons.
    rewrite elem_of_app in Hx. tauto. }
  assert (x <> p) as Hne.
  { intros ->.
    assert ((t, true) = (s, true)) as E.
    { apply (layout_unique bl' (first_block st') p); auto; apply elem_of_allocs; auto. }
    injection E as ->.
    pose proof (allocs_NoDup bl' (first_block st) Hsz') as Hnd.
    rewrite HA' in Hnd. apply NoDup_app in Hnd as (_ & Hd & Hnd).
    apply NoDup_cons in Hnd as [Hn2 _]. rewrite HA in Hx.
    apply elem_of_app in Hx as [Hx|Hx]; [|contradiction].
    apply (Hd _ Hx). left. }
  apply elem_of_allocs in Hx', Hp.
  destruct (layout_sep _ _ _ _ _ _ Hsz' Hx' Hp) as [[E _]|Hsep]; [contradiction|].
  simpl in Hsep. lia.
Qed.

Lemma mm_malloc_fresh_block_witness :
  heap_inv example_alloc [(48, true); (4048, false)] example_alloc_table /\
  0 < 100 <= 2 ^ 64 - 32 /\ (length [(48%Z, true); (4048%Z, false)] < 3)%nat /\
  exists st' p, mm_malloc 3 example_alloc 100 = Done (st', p) /\
    ((p = NULL /\ st' = example_alloc) \/
     (p <> NULL /\ p mod 16 = 0 /\
      mem_start_brk example_alloc + 32 <= p /\ p + 100 <= mem_brk st' - 16 /\
      (forall x t, (x, t) ∈ allocs (first_block example_alloc) [(48, true); (4048, false)] ->
                   x + t - 8 <= p \/ p + 100 <= x - 16) /\
      (forall a, alloc_payload (first_block example_alloc) [(48, true); (4048, false)] a ->
                 load_byte (mem st') a = load_byte (mem example_alloc) a))).
Proof.
  split; [exact example_alloc_inv|]. split; [lia|]. split; [simpl; lia|].
  apply (mm_malloc_fresh_block example_alloc [(48, true); (4048, false)] example_alloc_table
           100 3 example_alloc_inv); [lia|simpl; lia].
Defined.

(** [mm_malloc] returns [NULL] exactly when no free block of the heap has the
    adjusted size and the region cannot grow by [MAX asize CHUNKSIZE] bytes:
    the upward bucket scan misses no block that fits. *)
Theorem mm_malloc_null_iff st bl Ls size fuel :
  heap_inv st bl Ls -> 0 < size <= 2 ^ 64 - 32 -> (length bl < fuel)%nat ->
  let asize := adjusted_size size in
  exists st' p, mm_malloc fuel st size = Done (st', p) /\
    (p = NULL <->
     (forall x s, (x, (s, false)) ∈ layout (first_block st) bl -> s < asize) /\
     mem_max_addr st < mem_brk st + MAX asize CHUNKSIZE).
Proof.
  intros Hinv Hsize Hfuel asize. subst asize.
  destruct (mm_malloc_spec st bl Ls size fuel Hinv Hsize Hfuel) as (st' & p & Hrun & _).
  exists st', p. split; [exact Hrun|].
  destruct (adjusted_size_bounds size Hsize) as (Ha32 & Ha16 & _).
  destruct (mm_malloc_cases st bl Ls size fuel Hinv ltac:(lia) Hfuel)
    as [(bp & cs & _ & Hnz & Hbp & Hfit & Hm)|[(_ & Hnofit & Hnogrow & _ & Hm)|
        (st1 & Ls1 & _ & Hnofit & Hgrow & _ & Hnz & Hinv1 & _ & _ & _ & _ & _ & Ep & Hpfs &
         He & Hm)]]; rewrite Hm in Hrun.
  - apply bind_Done_inv in Hrun as (st2 & _ & E). injection E as _ <-. split.
    + intros E. contradiction.
    + intros [Hno _]. specialize (Hno _ _ Hbp). lia.
  - injection Hrun as _ <-. tauto.
  - apply bind_Done_inv in Hrun as (st2 & _ & E). injection E as _ <-. split.
    + intros E. contradiction.
    + intros [_ Hno]. lia.
Qed.

Lemma mm_malloc_null_iff_witness :
  heap_inv example_heap [(4096, false)] example_table /\
  0 < 24 <= 2 ^ 64 - 32 /\ (length [(4096%Z, false)] < 2)%nat /\
  let asize := adjusted_size 24 in
  exists st' p, mm_malloc 2 example_heap 24 = Done (st', p) /\
    (p = NULL <->
     (forall x s, (x, (s, false)) ∈ layout (first_block example_heap) [(4096, false)] ->
                  s < asize) /\
     mem_max_addr example_heap < mem_brk example_heap + MAX asize CHUNKSIZE).
Proof.
  split; [exact example_heap_inv|]. split; [lia|]. split; [simpl; lia|].
  apply (mm_malloc_null_iff example_heap [(4096, false)] example_table 24 2 example_heap_inv);
    [lia|simpl; lia].
Defined.

(** The block [mm_malloc] returns has a total size of at least the adjusted
    size and less than 32 bytes more: a remainder of 32 bytes or more is
    always split off. *)
Theorem mm_malloc_block_size st bl Ls size fuel :
  heap_inv st bl Ls -> 0 < size <= 2 ^ 64 - 32 -> (length bl < fuel)%nat ->
  exists st' p, mm_malloc fuel st size = Done (st', p) /\
    (p <> NULL ->
     exists t, GET_SIZE st' (HDRP p) = Done t /\
       adjusted_size size <= t < adjusted_size size + 32 /\ size + 16 <= t).
Proof.
  intros Hinv Hsize Hfuel.
  destruct (adjusted_size_bounds size Hsize) as (Ha32 & Ha16 & Hasz & _).
  set (asize := adjusted_size size) in *.
  assert (forall st1 l1 cs l2 Ls1,
    heap_inv st1 (l1 ++ (cs, false) :: l2) Ls1 -> asize <= cs ->
    (length (l1 ++ (cs, false) :: l2) <= fuel)%nat ->
    exists st', place fuel st1 (first_block st1 + total l1) asize = Done st' /\
      exists t, GET_SIZE st' (HDRP (first_block st1 + total l1)) = Done t /\
        asize <= t < asize + 32) as Hplace.
  { intros st1 l1 cs l2 Ls1 Hinv1 Hcs Hlen.
    destruct (place_inv_size st1 l1 cs l2 Ls1 asize fuel Hinv1 ltac:(lia) Ha16 Hlen)
      as (st' & bl' & Ls' & t & Hrun & (Hok' & _) & Hsame & Hl & Ht & _).
    exists st'. split; [exact Hrun|]. exists t. split; [|exact Ht].
    rewrite <- (first_block_same _ _ Hsame) in Hl |- *.
    destruct (layout_header _ _ _ _ Hok' Hl) as (Hg & _). exact Hg. }
  destruct (mm_malloc_cases st bl Ls size fuel Hinv ltac:(lia) Hfuel)
    as [(bp & cs & _ & Hnz & Hbp & Hfit & Hm)|[(_ & _ & _ & _ & Hm)|
        (st1 & Ls1 & _ & _ & _ & _ & Hnz & Hinv1 & _ & _ & _ & _ & _ & Ep & Hpfs &
         He & Hm)]]; fold asize in Hm |- *; rewrite Hm.
  - apply layout_elem in Hbp as (l1 & l2 & -> & ->).
    destruct (Hplace st l1 cs l2 Ls Hinv Hfit (Nat.lt_le_incl _ _ Hfuel))
      as (st' & Hrun & t & Hg & Ht).
    rewrite Hrun, bind_Done. eexists _, _. split; [reflexivity|].
    intros _. exists t. split; [exact Hg|unfold asize in *; lia].
  - eexists _, _. split; [reflexivity|]. intros H. contradiction.
  - rewrite Ep.
    destruct (Hplace st1 (drop_prev_free bl)
                (prev_free_size bl + MAX asize CHUNKSIZE + next_free_size [])
                (drop_next_free []) Ls1 Hinv1) as (st' & Hrun & t & Hg & Ht).
    { unfold next_free_size. simpl. unfold asize in *. lia. }
    { fold (coalesced bl (MAX asize CHUNKSIZE) []).
      pose proof (length_coalesced bl (MAX asize CHUNKSIZE) []) as Hlen.
      rewrite length_app in Hlen. simpl in Hlen. lia. }
    rewrite Hrun, bind_Done. eexists _, _. split; [reflexivity|].
    intros _. exists t. split; [exact Hg|unfold asize in *; lia].
Qed.

Lemma mm_malloc_block_size_witness :
  heap_inv example_heap [(4096, false)] example_table /\
  0 < 24 <= 2 ^ 64 - 32 /\ (length [(4096%Z, false)] < 2)%nat /\
  exists st' p, mm_malloc 2 example_heap 24 = Done (st', p) /\
    (p <> NULL ->
     exists t, GET_SIZE st' (HDRP p) = Done t /\
       adjusted_size 24 <= t < adjusted_size 24 + 32 /\ 24 + 16 <= t).
Proof.
  split; [exact example_heap_inv|]. split; [lia|]. split; [simpl; lia|].
  apply (mm_malloc_block_size example_heap [(4096, false)] example_table 24 2 example_heap_inv);
    [lia|simpl; lia].
Defined.

(** * Release and the other blocks *)

(** [mm_free] of an allocated block leaves the region bounds and every other
    allocated block as they were: the other blocks stay allocated with their
    sizes, their headers read the same and their payload bytes are
    unchanged; the freed block is no longer allocated. *)
Theorem mm_free_keeps_other_blocks st l1 s l2 Ls fuel :
  heap_inv st (l1 ++ (s, true) :: l2) Ls ->
  (length (l1 ++ (s, true) :: l2) <= S fuel)%nat ->
  let bl := l1 ++ (s, true) :: l2 in
  let bp := first_block st + total l1 in
  exists st' bl' Ls',
    mm_free fuel st bp = Done st' /\ heap_inv st' bl' Ls' /\ same_region st st' /\
    (forall x t, (x, t) ∈ allocs (first_block st) bl' <->
                 (x, t) ∈ allocs (first_block st) bl /\ x <> bp) /\
    (forall x t, (x, t) ∈ allocs (first_block st) bl -> x <> bp ->
       GET_SIZE st' (HDRP x) = Done t /\
       forall a, x <= a < x + t - 16 -> load_byte (mem st') a = load_byte (mem st) a).
Proof.
  intros Hinv Hfuel bl bp.
  destruct (mm_free_spec st l1 s l2 Ls fuel Hinv Hfuel) as (st' & Ls' & Hrun & Hinv' & Hsame & Hun).
  exists st', (coalesced l1 s l2), Ls'.
  pose proof Hinv as (Hok & _). pose proof Hinv' as (Hok' & _).
  pose proof (ok_sizes _ _ Hok) as Hsz.
  pose proof (first_block_same _ _ Hsame) as Hfb.
  split; [exact Hrun|]. split; [exact Hinv'|]. split; [exact Hsame|]. split.
  - intros x t. apply allocs_free_iff. exact Hsz.
  - intros x t Hx Hne.
    assert ((x, t) ∈ allocs (first_block st') (coalesced l1 s l2)) as Hx'.
    { rewrite Hfb. apply allocs_free_iff; auto. }
    destruct (allocs_header _ _ _ _ Hok' Hx') as (Hg & _). split; [exact Hg|].
    intros a Ha. apply Hun. apply alloc_payload_not_free_span.
    { apply sizes_ok_app in Hsz as [Hs1 Hs2]. apply sizes_ok_cons in Hs2 as [Hb Hs2].
      apply sizes_ok_app. split; auto. apply sizes_ok_cons. split; auto. }
    exists x, t. split; [|lia]. apply elem_of_allocs. apply allocs_retag_free; auto.
Qed.

Lemma mm_free_keeps_other_blocks_witness :
  heap_inv example_alloc ([] ++ (48, true) :: [(4048, false)]) example_alloc_table /\
  (length ([] ++ (48%Z, true) :: [(4048%Z, false)]) <= 2)%nat /\
  let bl := [] ++ (48, true) :: [(4048, false)] in
  let bp := first_block example_alloc + total [] in
  exists st' bl' Ls',
    mm_free 1 example_alloc bp = Done st' /\ heap_inv st' bl' Ls' /\
    same_region example_alloc st' /\
    (forall x t, (x, t) ∈ allocs (first_block example_alloc) bl' <->
                 (x, t) ∈ allocs (first_block example_alloc) bl /\ x <> bp) /\
    (forall x t, (x, t) ∈ allocs (first_block example_alloc) bl -> x <> bp ->
       GET_SIZE st' (HDRP x) = Done t /\
       forall a, x <= a < x + t - 16 ->
                 load_byte (mem st') a = load_byte (mem example_alloc) a).
Proof.
  split; [exact example_alloc_inv|]. split; [simpl; lia|].
  apply (mm_free_keeps_other_blocks example_alloc [] 48 [(4048, false)] example_alloc_table 1
           example_alloc_inv).
  simpl. lia.
Defined.

(** * Reuse *)

(** A freed block is reused: after [mm_free] of a block of size [s], an
    [mm_malloc] whose adjusted size is at most [s] returns a block without
    growing the region. *)
Theorem mm_free_then_malloc_reuses st l1 s l2 Ls size fuel :
  heap_inv st (l1 ++ (s, true) :: l2) Ls ->
  (length (l1 ++ (s, true) :: l2) < fuel)%nat ->
  0 < size <= 2 ^ 64 - 32 -> adjusted_size size <= s ->
  exists st1 st2 p,
    mm_free fuel st (first_block st + total l1) = Done st1 /\
    mm_malloc fuel st1 size = Done (st2, p) /\
    p <> NULL /\ mem_brk st2 = mem_brk st.
Proof.
  intros Hinv Hfuel Hsize Hfit.
  destruct (mm_free_spec st l1 s l2 Ls fuel Hinv ltac:(lia))
    as (st1 & Ls1 & Hfree & Hinv1 & Hsame1 & _).
  pose proof (length_coalesced l1 s l2) as Hlen.
  destruct (adjusted_size_bounds size Hsize) as (Ha32 & Ha16 & _).
  pose proof Hinv as (Hok & _). pose proof (ok_sizes _ _ Hok) as Hsz.
  assert (0 <= prev_free_size l1 /\ 0 <= next_free_size l2) as [Hp Hn].
  { apply sizes_ok_app in Hsz as [Hs1 Hs2]. apply sizes_ok_cons in Hs2 as [Hb Hs2].
    unfold prev_free_size, next_free_size. split.
    - destruct (snd (prev_block l1)); [lia|].
      destruct (prev_block_cases l1) as [[_ ->]|(l' & Hl')]; [unfold DSIZE; simpl; lia|].
      rewrite Hl' in Hs1. apply sizes_ok_app in Hs1 as [_ Hs1].
      apply sizes_ok_cons in Hs1 as [[? _] _]. lia.
    - destruct (snd (next_block l2)); [lia|].
      destruct (next_block_cases l2) as [[_ ->]|(l' & Hl')]; [simpl; lia|].
      rewrite Hl' in Hs2. apply sizes_ok_cons in Hs2 as [[? _] _]. lia. }
  assert ((first_block st1 + total (drop_prev_free l1),
           (prev_free_size l1 + s + next_free_size l2, false))
          ∈ layout (first_block st1) (coalesced l1 s l2)) as Hmerged by apply layout_mid.
  exists st1.
  destruct (mm_malloc_cases st1 (coalesced l1 s l2) Ls1 size fuel Hinv1 ltac:(lia) ltac:(lia))
    as [(bp & cs & _ & Hnz & Hbp & Hcs & Hm)|[(_ & Hnofit & _)|
        (st2 & Ls2 & _ & Hnofit & _)]].
  - apply layout_elem in Hbp as (la & lb & Hbl & ->). rewrite Hbl in Hinv1, Hlen.
    destruct (place_inv st1 la cs lb Ls1 (adjusted_size size) fuel Hinv1 ltac:(lia) Ha16
                ltac:(lia)) as (st2 & bl2 & Ls2 & t & Hplace & _ & Hsame2 & _).
    rewrite Hplace, bind_Done in Hm.
    exists st2, (first_block st1 + total la). split; [exact Hfree|]. split; [exact Hm|].
    split; [exact Hnz|].
    destruct Hsame1 as (_ & Hb1 & _). destruct Hsame2 as (_ & Hb2 & _). congruence.
  - exfalso. specialize (Hnofit _ _ Hmerged). lia.
  - exfalso. specialize (Hnofit _ _ Hmerged). lia.
Qed.

Lemma mm_free_then_malloc_reuses_witness :
  heap_inv example_alloc ([] ++ (48, true) :: [(4048, false)]) example_alloc_table /\
  (length ([] ++ (48%Z, true) :: [(4048%Z, false)]) < 3)%nat /\
  0 < 30 <= 2 ^ 64 - 32 /\ adjusted_size 30 <= 48 /\
  exists st1 st2 p,
    mm_free 3 example_alloc (first_block example_alloc + total []) = Done st1 /\
    mm_malloc 3 st1 30 = Done (st2, p) /\
    p <> NULL /\ mem_brk st2 = mem_brk example_alloc.
Proof.
  assert (adjusted_size 30 <= 48) as H by (vm_compute; discriminate).
  split; [exact example_alloc_inv|]. split; [simpl; lia|]. split; [lia|]. split; [exact H|].
  apply (mm_free_then_malloc_reuses example_alloc [] 48 [(4048, false)] example_alloc_table
           30 3 example_alloc_inv); [simpl; lia|lia|exact H].
Defined.

(** * Resizing within the supported sizes *)

(** On a well-formed heap, for an allocated [ptr] of block size [osize] and
    [0 < size <= 2 ^ 64 - 32], [mm_realloc] returns what [mm_malloc size]
    returns.  When that is [NULL] the state is unchanged and [ptr] stays
    allocated.  Otherwise the call is [mm_malloc], then a [memcpy] of
    [min size (osize - 16)] bytes, then [mm_free ptr]: the heap is well
    formed again, the new block is allocated and [ptr] is not, the copied
    bytes of the new payload equal the old payload, and the payloads of the
    other allocated blocks are unchanged. *)
Theorem mm_realloc_relocates st bl Ls ptr osize size fuel :
  heap_inv st bl Ls -> (ptr, osize) ∈ allocs (first_block st) bl ->
  0 < size <= 2 ^ 64 - 32 -> (length bl + 2 <= fuel)%nat ->
  exists st1 p, mm_malloc fuel st size = Done (st1, p) /\
    ((p = NULL /\ mm_realloc fuel st ptr size = Done (st, NULL)) \/
     (p <> NULL /\ exists st2 st' bl' Ls' s,
        memcpy st1 p ptr (Z.min size (osize - 16)) = Done st2 /\
        mm_free fuel st2 ptr = Done st' /\
        mm_realloc fuel st ptr size = Done (st', p) /\
        heap_inv st' bl' Ls' /\
        (forall x t, (x, t) ∈ allocs (first_block st) bl' <->
                     (x, t) = (p, s) \/ ((x, t) ∈ allocs (first_block st) bl /\ x <> ptr)) /\
        size + 16 <= s /\ p <> ptr /\
        (forall i, 0 <= i < Z.min size (osize - 16) ->
                   load_byte (mem st') (p + i) = load_byte (mem st) (ptr + i)) /\
        (forall x t a, (x, t) ∈ allocs (first_block st) bl -> x <> ptr ->
                       x <= a < x + t - 16 ->
                       load_byte (mem st') a = load_byte (mem st) a))).
Proof.
  intros Hinv Hptr Hsize Hfuel.
  destruct (mm_realloc_spec st bl Ls ptr osize size fuel Hinv Hptr Hsize Hfuel)
    as (st1 & p & Hm & Hres).
  exists st1, p. split; [exact Hm|].
  destruct Hres as [Hnull|(Hnz & st2 & st' & bl' & Ls' & s & Hcp & Hfree & Hrun & Hinv' & Hmem &
                           Hs & Hne & _ & Hbytes & _ & _ & _ & _ & _ & Hothers)].
  - left. exact Hnull.
  - right. split; [exact Hnz|]. exists st2, st', bl', Ls', s. auto 10.
Qed.

Lemma mm_realloc_relocates_witness :
  heap_inv example_alloc [(48, true); (4048, false)] example_alloc_table /\
  (4128, 48) ∈ allocs (first_block example_alloc) [(48, true); (4048, false)] /\
  0 < 100 <= 2 ^ 64 - 32 /\ (length [(48%Z, true); (4048%Z, false)] + 2 <= 4)%nat /\
  exists st1 p, mm_malloc 4 example_alloc 100 = Done (st1, p) /\
    ((p = NULL /\ mm_realloc 4 example_alloc 4128 100 = Done (example_alloc, NULL)) \/
     (p <> NULL /\ exists st2 st' bl' Ls' s,
        memcpy st1 p 4128 (Z.min 100 (48 - 16)) = Done st2 /\
        mm_free 4 st2 4128 = Done st' /\
        mm_realloc 4 example_alloc 4128 100 = Done (st', p) /\
        heap_inv st' bl' Ls' /\
        (forall x t, (x, t) ∈ allocs (first_block example_alloc) bl' <->
                     (x, t) = (p, s) \/
                     ((x, t) ∈ allocs (first_block example_alloc) [(48, true); (4048, false)] /\
                      x <> 4128)) /\
        100 + 16 <= s /\ p <> 4128 /\
        (forall i, 0 <= i < Z.min 100 (48 - 16) ->
                   load_byte (mem st') (p + i) = load_byte (mem example_alloc) (4128 + i)) /\
        (forall x t a,
           (x, t) ∈ allocs (first_block example_alloc) [(48, true); (4048, false)] ->
           x <> 4128 -> x <= a < x + t - 16 ->
           load_byte (mem st') a = load_byte (mem example_alloc) a))).
Proof.
  assert ((4128, 48) ∈ allocs (first_block example_alloc) [(48, true); (4048, false)]) as H
    by (vm_compute; left).
  split; [exact example_alloc_inv|]. split; [exact H|]. split; [lia|]. split; [simpl; lia|].
  apply (mm_realloc_relocates example_alloc [(48, true); (4048, false)] example_alloc_table
           4128 48 100 4 example_alloc_inv H); [lia|simpl; lia].
Defined.

(** * Growing a well-formed heap *)

(** On a well-formed heap [extend_heap] either fails, returning [NULL] with
    the state unchanged, when the region cannot grow by the rounded byte
    count; or it leaves a well-formed heap whose last block is free and
    returns that block: the new span merged with the free block that ended
    the heap before, if there was one.  The break moves up by exactly the
    rounded byte count. *)
Theorem extend_heap_merges_tail st bl Ls words fuel :
  heap_inv st bl Ls -> 4 <= words -> round_even words * 8 < 2 ^ 64 ->
  (length bl <= fuel)%nat ->
  let n := round_even words * 8 in
  (mem_brk st + n <= mem_max_addr st ->
   exists st' Ls',
     extend_heap fuel st words = Done (st', mem_brk st - prev_free_size bl) /\
     heap_inv st' (drop_prev_free bl ++ [(prev_free_size bl + n, false)]) Ls' /\
     mem_brk st' = mem_brk st + n /\ mem_start_brk st' = mem_start_brk st /\
     (forall a, alloc_payload (first_block st) bl a ->
                load_byte (mem st') a = load_byte (mem st) a)) /\
  (mem_max_addr st < mem_brk st + n -> extend_heap fuel st words = Done (st, NULL)).
Proof.
  intros Hinv Hw Hsize Hfuel n. split.
  - intros Hfit.
    destruct (extend_heap_spec st bl Ls words fuel Hinv Hw Hsize Hfuel Hfit)
      as (st' & Ls' & Hrun & Hinv' & Hs & _ & _ & Hb & Hun).
    exists st', Ls'. split; [exact Hrun|]. split.
    { unfold coalesced, next_free_size, drop_next_free in Hinv'. simpl in Hinv'.
      replace (prev_free_size bl + round_even words * 8 + 0)
        with (prev_free_size bl + n) in Hinv' by (unfold n; lia).
      exact Hinv'. }
    split; [exact Hb|]. split; [exact Hs|].
    intros a Ha. apply Hun. pose proof Hinv as (Hok & _).
    intros [Hf|Hf]; [eapply alloc_payload_not_free_span; eauto; apply (ok_sizes _ _ Hok)|].
    destruct Ha as (x & s0 & Hx & Ha).
    destruct (block_facts _ _ Hok _ _ Hx) as (_ & Hhi & _). simpl in Hhi. lia.
  - intros Hnofit. pose proof Hinv as (Hok & _).
    pose proof (heap_brk_bound _ _ Hok) as [Hfbrk _].
    pose proof (ok_max _ _ Hok) as [_ Hmax]. pose proof (ok_base_pos _ _ Hok).
    destruct (extend_heap_run st words fuel ltac:(lia) Hsize) as [_ Hfail]; auto.
    unfold first_block in Hfbrk. lia.
Qed.

Lemma extend_heap_merges_tail_witness :
  heap_inv example_alloc [(48, true); (4048, false)] example_alloc_table /\
  4 <= 5 /\ round_even 5 * 8 < 2 ^ 64 /\ (length [(48%Z, true); (4048%Z, false)] <= 2)%nat /\
  let n := round_even 5 * 8 in
  (mem_brk example_alloc + n <= mem_max_addr example_alloc ->
   exists st' Ls',
     extend_heap 2 example_alloc 5 =
       Done (st', mem_brk example_alloc - prev_free_size [(48, true); (4048, false)]) /\
     heap_inv st'
       (drop_prev_free [(48, true); (4048, false)] ++
        [(prev_free_size [(48, true); (4048, false)] + n, false)]) Ls' /\
     mem_brk st' = mem_brk example_alloc + n /\
     mem_start_brk st' = mem_start_brk example_alloc /\
     (forall a, alloc_payload (first_block example_alloc) [(48, true); (4048, false)] a ->
                load_byte (mem st') a = load_byte (mem example_alloc) a)) /\
  (mem_max_addr example_alloc < mem_brk example_alloc + n ->
   extend_heap 2 example_alloc 5 = Done (example_alloc, NULL)).
Proof.
  assert (round_even 5 * 8 < 2 ^ 64) as H by (vm_compute; reflexivity).
  split; [exact example_alloc_inv|]. split; [lia|]. split; [exact H|]. split; [simpl; lia|].
  apply (extend_heap_merges_tail example_alloc [(48, true); (4048, false)] example_alloc_table
           5 2 example_alloc_inv); [lia|exact H|simpl; lia].
Defined.

(** * Insertion into a bucket *)

Lemma ascending_app st l1 l2 :
  ascending st (l1 ++ l2) <->
  ascending st l1 /\ ascending st l2 /\
  forall y z, y ∈ l1 -> z ∈ l2 -> block_size st y <= block_size st z.
Proof.
  induction l1 as [|a l1 IH]; simpl.
  - split; [intros H; repeat split; auto; intros y z Hy; inversion Hy|tauto].
  - rewrite IH, Forall_app, !Forall_forall. split.
    + intros ((H1 & H2) & H3 & H4 & H5). repeat split; auto.
      intros y z Hy Hz. apply elem_of_cons in Hy as [->|Hy]; auto.
    + intros ((H1 & H2) & H3 & H4). repeat split; auto.
      * intros z Hz. apply H4; [left|exact Hz].
      * intros y z Hy Hz. apply H4; [right; exact Hy|exact Hz].
Qed.

Lemma ascending_ext st st' L :
  (forall y, y ∈ L -> block_size st' y = block_size st y) ->
  ascending st L -> ascending st' L.
Proof.
  induction L as [|a L IH]; simpl; [auto|]. intros Heq [H1 H2]. split.
  - rewrite Forall_forall in *. intros z Hz.
    rewrite (Heq a), (Heq z) by (try left; try right; auto). auto.
  - apply IH; auto. intros y Hy. apply Heq. right. exact Hy.
Qed.

(** [insert_block] puts a free block behind the entries of its bucket that
    are smaller and in front of the first entry that is not; a bucket in
    ascending size order stays in ascending size order (the insertion is by
    size, not last-in first-out). *)
Theorem insert_block_keeps_order st bl Ls (X : Z -> Prop) x s fuel :
  heap_ok st bl -> lists_ok st Ls -> table_matches st bl Ls X ->
  (x, (s, false)) ∈ layout (first_block st) bl -> X x ->
  (length bl <= S fuel)%nat ->
  exists st' la lb,
    insert_block fuel st x = Done st' /\
    Ls (get_list_index s) = la ++ lb /\
    lists_ok st' (<[get_list_index s := la ++ x :: lb]> Ls) /\
    block_size st' x = s /\
    Forall (fun y => block_size st' y < s) la /\
    (forall y, head lb = Some y -> s <= block_size st' y) /\
    (ascending st (Ls (get_list_index s)) -> ascending st' (la ++ x :: lb)).
Proof.
  intros Hok Hlists Htm Hx HX Hfuel.
  destruct (insert_block_heap st bl Ls X x s fuel Hok Hlists Htm Hx HX Hfuel)
    as (st' & la & lb & Hrun & HL & Hok' & Hlists' & Htm' & Hsame & Hun & Hlt & Hge).
  exists st', la, lb. split; [exact Hrun|]. split; [exact HL|]. split; [exact Hlists'|].
  pose proof (first_block_same _ _ Hsame) as Hfb.
  assert (forall y t, (y, (t, false)) ∈ layout (first_block st) bl ->
                      block_size st' y = t /\ block_size st y = t) as Hsize.
  { intros y t Hy. split.
    - rewrite <- Hfb in Hy. apply (block_facts _ _ Hok' _ _ Hy).
    - apply (block_facts _ _ Hok _ _ Hy). }
  assert (forall y, y ∈ Ls (get_list_index s) -> block_size st' y = block_size st y) as Heq.
  { intros y Hy. destruct (member_free _ _ _ _ Htm _ y Hy) as (t & Ht & _).
    destruct (Hsize y t Ht) as [-> ->]. reflexivity. }
  assert (block_size st' x = s) as Hxs by apply (Hsize x s Hx).
  split; [exact Hxs|].
  assert (Forall (fun y => block_size st' y < s) la) as Hlt'.
  { rewrite Forall_forall in *. intros y Hy. rewrite Heq; [auto|].
    rewrite HL. apply elem_of_app. auto. }
  assert (forall y, head lb = Some y -> s <= block_size st' y) as Hge'.
  { intros y Hy. rewrite Heq; [auto|]. rewrite HL. apply elem_of_app. right.
    destruct lb; [discriminate|]. injection Hy as ->. left. }
  split; [exact Hlt'|]. split; [exact Hge'|].
  intros Hasc. rewrite HL in Hasc, Heq.
  apply (ascending_ext st st') in Hasc; [|exact Heq].
  apply ascending_app in Hasc as (Ha & Hb & Hab).
  apply ascending_app. split; [exact Ha|].
  assert (forall z, z ∈ lb -> s <= block_size st' z) as Hall.
  { intros z Hz. destruct lb as [|b lb']; [inversion Hz|].
    specialize (Hge' b eq_refl). apply elem_of_cons in Hz as [->|Hz]; [exact Hge'|].
    simpl in Hb. destruct Hb as [Hb _]. rewrite Forall_forall in Hb.
    specialize (Hb z Hz). lia. }
  split.
  - simpl. split; [|exact Hb]. rewrite Forall_forall. intros z Hz. rewrite Hxs. auto.
  - intros y z Hy Hz. rewrite Forall_forall in Hlt'. specialize (Hlt' y Hy).
    apply elem_of_cons in Hz as [->|Hz]; [lia|]. specialize (Hall z Hz). lia.
Qed.

Lemma insert_block_keeps_order_witness :
  example_frag_rest (get_list_index 96) = [4128; 4368] /\
  map (block_size example_frag_removed) [4128; 4368] = [80; 112] /\
  heap_ok example_frag_removed example_frag_blocks /\
  lists_ok example_frag_removed example_frag_rest /\
  table_matches example_frag_removed example_frag_blocks example_frag_rest
    (fun y => y = 4240) /\
  (4240, (96, false)) ∈ layout (first_block example_frag_removed) example_frag_blocks /\
  4240 = 4240 /\ (length example_frag_blocks <= 11)%nat /\
  exists st' la lb,
    insert_block 10 example_frag_removed 4240 = Done st' /\
    example_frag_rest (get_list_index 96) = la ++ lb /\
    lists_ok st' (<[get_list_index 96 := la ++ 4240 :: lb]> example_frag_rest) /\
    block_size st' 4240 = 96 /\
    Forall (fun y => block_size st' y < 96) la /\
    (forall y, head lb = Some y -> 96 <= block_size st' y) /\
    (ascending example_frag_removed (example_frag_rest (get_list_index 96)) ->
     ascending st' (la ++ 4240 :: lb)).
Proof.
  destruct example_frag_removed_ok as (_ & Hok & Hlists & Htm & Hx).
  split; [reflexivity|]. split; [vm_compute; reflexivity|].
  split; [exact Hok|]. split; [exact Hlists|]. split; [exact Htm|]. split; [exact Hx|].
  split; [reflexivity|]. split; [simpl; lia|].
  apply (insert_block_keeps_order example_frag_removed example_frag_blocks example_frag_rest
           (fun y => y = 4240) 4240 96 10 Hok Hlists Htm Hx eq_refl).
  simpl. lia.
Defined.

(** * Insertion undone by removal *)

(** Two memories that hold the same list between the same ends agree on the
    link words of its blocks. *)
Lemma dllseg_words m m' L : forall prev cur cur' nxt,
  dllseg m prev cur L nxt -> dllseg m' prev cur' L nxt ->
  forall y, y ∈ L -> load64 m y = load64 m' y /\ load64 m (y + 8) = load64 m' (y + 8).
Proof.
  induction L as [|b L IH]; intros prev cur cur' nxt H H' y Hy; [inversion Hy|].
  destruct H as (_ & _ & Hp & H). destruct H' as (_ & _ & Hp' & H').
  apply elem_of_cons in Hy as [->|Hy].
  - split; [congruence|].
    rewrite (dllseg_head _ _ _ _ _ H), (dllseg_head _ _ _ _ _ H'). reflexivity.
  - eapply IH; eauto.
Qed.

Lemma NoDup_split_unique (x : Z) l1 : forall l2 l1' l2',
  NoDup (l1 ++ x :: l2) -> l1 ++ x :: l2 = l1' ++ x :: l2' -> l1 = l1' /\ l2 = l2'.
Proof.
  induction l1 as [|a l1 IH]; intros l2 l1' l2' Hnd Heq.
  - destruct l1' as [|a' l1']; simpl in *.
    + injection Heq as ->. auto.
    + injection Heq as <- ->. apply NoDup_cons in Hnd as [Hn _]. exfalso. apply Hn.
      apply elem_of_app. right. left.
  - destruct l1' as [|a' l1']; simpl in *.
    + injection Heq as -> <-. apply NoDup_cons in Hnd as [Hn _]. exfalso. apply Hn.
      apply elem_of_app. right. left.
    + injection Heq as <- Heq. apply NoDup_cons in Hnd as [_ Hnd].
      destruct (IH _ _ _ Hnd Heq) as [-> ->]. auto.
Qed.

(** The bucket heads are determined by the table. *)
Lemma seg_list_determined st st' Ls :
  lists_ok st Ls -> lists_ok st' Ls -> seg_list st' = seg_list st.
Proof.
  intros H H'. apply list_eq. intros i.
  pose proof (lo_seg_len _ _ H) as Hlen. pose proof (lo_seg_len _ _ H') as Hlen'.
  destruct (decide (i < N_LISTS)%nat) as [Hi|Hi].
  - pose proof (dllseg_head _ _ _ _ _ (lo_dll _ _ H i Hi)) as E.
    pose proof (dllseg_head _ _ _ _ _ (lo_dll _ _ H' i Hi)) as E'.
    unfold seg_get in E, E'.
    rewrite (list_lookup_lookup_total_lt (seg_list st) i) by lia.
    rewrite (list_lookup_lookup_total_lt (seg_list st') i) by lia.
    congruence.
  - rewrite !lookup_ge_None_2 by lia. reflexivity.
Qed.

(** [remove_block] undoes [insert_block]: when the table holds every free
    block but [x], inserting [x] and removing it again restores the bucket
    heads and every 8-byte-aligned word of memory other than the two link
    words of [x]; the table is the one before. *)
Theorem insert_then_remove_restores st bl Ls x s fuel :
  heap_ok st bl -> lists_ok st Ls -> table_matches st bl Ls (fun y => y = x) ->
  (x, (s, false)) ∈ layout (first_block st) bl ->
  (length bl <= S fuel)%nat ->
  exists st1 st2,
    insert_block fuel st x = Done st1 /\ remove_block st1 x = Done st2 /\
    seg_list st2 = seg_list st /\ same_region st st2 /\
    heap_ok st2 bl /\ lists_ok st2 Ls /\
    (forall q, q mod 8 = 0 -> q <> x -> q <> x + 8 ->
               load64 (mem st2) q = load64 (mem st) q).
Proof.
  intros Hok Hlists Htm Hx Hfuel.
  destruct (insert_block_heap st bl Ls _ x s fuel Hok Hlists Htm Hx eq_refl Hfuel)
    as (st1 & la & lb & Hins & HL & Hok1 & Hlists1 & Htm1 & Hsame1 & Hun1 & _).
  pose proof (first_block_same _ _ Hsame1) as Hfb1.
  set (idx := get_list_index s) in *.
  assert ((x, (s, false)) ∈ layout (first_block st1) bl) as Hx1 by (rewrite Hfb1; exact Hx).
  destruct (remove_block_heap st1 bl _ _ x s Hok1 Hlists1 Htm1 Hx1)
    as (st2 & la' & lb' & Hrm & HL' & Hok2 & Hlists2 & Htm2 & Hsame2 & Hun2); [tauto|].
  fold idx in HL', Hlists2. rewrite fn_lookup_insert in HL'.
  pose proof (lo_nodup _ _ Hlists1 idx) as Hnd. rewrite fn_lookup_insert in Hnd.
  destruct (NoDup_split_unique x la lb la' lb' Hnd HL') as [<- <-].
  assert (forall i, <[idx := la ++ lb]> (<[idx := la ++ x :: lb]> Ls) i = Ls i) as Hback.
  { intros i. destruct (decide (i = idx)) as [->|Hne].
    - rewrite fn_lookup_insert. symmetry. exact HL.
    - rewrite !fn_lookup_insert_ne by auto. reflexivity. }
  assert (lists_ok st2 Ls) as Hlists2'.
  { destruct Hlists2 as [H1 H2 H3 H4 H5 H6 H7]. constructor; auto.
    - intros i Hi. rewrite <- (Hback i). auto.
    - intros i. rewrite <- (Hback i). auto.
    - intros i j y. rewrite <- (Hback i), <- (Hback j). apply H4.
    - intros i y. rewrite <- (Hback i). apply H5. }
  exists st1, st2. split; [exact Hins|]. split; [exact Hrm|].
  split; [exact (seg_list_determined _ _ _ Hlists Hlists2')|].
  split; [eapply same_region_trans; eauto|]. split; [exact Hok2|]. split; [exact Hlists2'|].
  intros q Hq8 Hqx Hqx8.
  pose proof (ok_sizes _ _ Hok) as Hsz.
  destruct (decide (Exists (fun yb : Z * block =>
                      snd (snd yb) = false /\ (q = fst yb \/ q = fst yb + 8))
                      (layout (first_block st) bl))) as [Hex|Hnex].
  - apply Exists_exists in Hex as ([y [t a]] & Hy & Ha & Hqy). simpl in Ha, Hqy. subst a.
    assert (y <> x) as Hne by (intros ->; lia).
    pose proof (tm_complete _ _ _ _ Htm y t Hy Hne) as Hin.
    pose proof (get_list_index_lt t) as Hi.
    destruct (dllseg_words _ _ _ _ _ _ _ (lo_dll _ _ Hlists2' _ Hi) (lo_dll _ _ Hlists _ Hi)
                y Hin) as [E1 E2].
    destruct Hqy as [->| ->]; auto.
  - assert (forall a, q <= a < q + 8 -> ~ free_links (first_block st) bl a) as Hout.
    { intros a Ha (y & t & Hy & Hya). apply Hnex. apply Exists_exists.
      exists (y, (t, false)). split; [exact Hy|]. split; [reflexivity|]. simpl.
      destruct (block_facts _ _ Hok _ _ Hy) as (_ & _ & Hy16 & _). lia_mod. }
    rewrite (load64_unchanged _ _ _ q Hun2) by (rewrite Hfb1; exact Hout).
    apply (load64_unchanged _ _ _ q Hun1). exact Hout.
Qed.

Lemma insert_then_remove_restores_witness :
  example_frag_rest (get_list_index 96) = [4128; 4368] /\
  heap_ok example_frag_removed example_frag_blocks /\
  lists_ok example_frag_removed example_frag_rest /\
  table_matches example_frag_removed example_frag_blocks example_frag_rest
    (fun y => y = 4240) /\
  (4240, (96, false)) ∈ layout (first_block example_frag_removed) example_frag_blocks /\
  (length example_frag_blocks <= 11)%nat /\
  exists st1 st2,
    insert_block 10 example_frag_removed 4240 = Done st1 /\
    remove_block st1 4240 = Done st2 /\
    seg_list st2 = seg_list example_frag_removed /\
    same_region example_frag_removed st2 /\
    heap_ok st2 example_frag_blocks /\ lists_ok st2 example_frag_rest /\
    (forall q, q mod 8 = 0 -> q <> 4240 -> q <> 4240 + 8 ->
               load64 (mem st2) q = load64 (mem example_frag_removed) q).
Proof.
  destruct example_frag_removed_ok as (_ & Hok & Hlists & Htm & Hx).
  split; [reflexivity|].
  split; [exact Hok|]. split; [exact Hlists|]. split; [exact Htm|]. split; [exact Hx|].
  split; [simpl; lia|].
  apply (insert_then_remove_restores example_frag_removed example_frag_blocks
           example_frag_rest 4240 96 10 Hok Hlists Htm Hx).
  simpl. lia.
Defined.

